(** * VideoTube: ingestion pipeline and range streaming

    A shallow embedding of the two Express servers of the repository
    (the MinIO server and the Cloudflare R2 server) and the properties
    of their upload, view-count and streaming handlers.

    Conventions of the embedding.
    - JavaScript numbers are [jsnum]: [NaN] or an integer [Num z].  The
      handlers only add, subtract and compare byte offsets and counters;
      on integers of magnitude below 2^53 these operations are exact in
      JavaScript, and the theorems that depend on exactness say so.
    - Strings are [string]; a header value reaches the handler decoded as
      latin-1, one [ascii] per character, and an object key stands for
      the bytes of its UTF-8 encoding.
    - Every awaited external call (ffprobe, ffmpeg, object store, MongoDB)
      resolves or rejects as the environment record of the request says.
    - Handlers run in a state-and-exception monad over the server's world
      (the local disk and the collection) and append what they do to a
      log; the object store is outside, seen through the calls it is sent
      and the answers the environment gives.
    - A handler runs from its first line to its response with no other
      request in between, except where an interleaving is spelled out
      ([get_video_during]). *)

From Stdlib Require Import ZArith String Ascii List Bool Lia Sorted Permutation.
From Stdlib Require Import DecimalString DecimalN DecimalPos.
From Stdlib Require QArith_base.
From stdpp Require Import base option gmap strings.

Import ListNotations.
Local Open Scope string_scope.
Local Open Scope Z_scope.

(** ** JavaScript numbers *)

Module JS.

Inductive jsnum : Type :=
| NaN
| Num (z : Z).

Definition sub (a b : jsnum) : jsnum :=
  match a, b with
  | Num x, Num y => Num (x - y)
  | _, _ => NaN
  end.

Definition add (a b : jsnum) : jsnum :=
  match a, b with
  | Num x, Num y => Num (x + y)
  | _, _ => NaN
  end.

(** [a >= b]: false as soon as one side is NaN. *)
Definition ge (a b : jsnum) : bool :=
  match a, b with
  | Num x, Num y => y <=? x
  | _, _ => false
  end.

(** [a < b]: false as soon as one side is NaN. *)
Definition lt (a b : jsnum) : bool :=
  match a, b with
  | Num x, Num y => x <? y
  | _, _ => false
  end.

Definition MAX_SAFE_INTEGER : Z := 2 ^ 53 - 1.

(** A number is an integer here, and the integer is the JavaScript
    number only as far as doubles hold integers exactly: NaN, or an
    integer of magnitude at most [MAX_SAFE_INTEGER].  Past that bound
    JavaScript rounds what [parseInt] reads to the nearest double and,
    from 1e21 on, prints in exponent form, which [parseInt] and
    [toString] below do not do; a statement about numbers read from a
    request takes [safe] as a hypothesis. *)
Definition safe (n : jsnum) : Prop :=
  match n with
  | NaN => True
  | Num z => - MAX_SAFE_INTEGER <= z <= MAX_SAFE_INTEGER
  end.

(** ** Strings *)

(** [s.length > 0], the truthiness of a string. *)
Definition truthy (s : string) : bool :=
  match s with
  | EmptyString => false
  | String _ _ => true
  end.

Fixpoint strip_prefix (p s : string) : option string :=
  match p, s with
  | EmptyString, _ => Some s
  | String a p', String b s' =>
      if Ascii.eqb a b then strip_prefix p' s' else None
  | String _ _, EmptyString => None
  end.

(** [s.replace(/pat/, '')] for a pattern without metacharacters: the
    first occurrence of [pat], wherever it is, is removed. *)
Fixpoint remove_first (pat s : string) : string :=
  match strip_prefix pat s with
  | Some rest => rest
  | None =>
      match s with
      | EmptyString => EmptyString
      | String c s' => String c (remove_first pat s')
      end
  end.

(** [s.split(sep)] for a one-character separator. *)
Fixpoint split (sep : ascii) (s : string) : list string :=
  match s with
  | EmptyString => [EmptyString]
  | String c s' =>
      if Ascii.eqb c sep then EmptyString :: split sep s'
      else match split sep s' with
           | h :: t => String c h :: t
           | [] => [String c EmptyString]
           end
  end.

(** [s.endsWith(suffix)]. *)
Definition endsWith (s suffix : string) : bool :=
  let n := String.length s in
  let k := String.length suffix in
  (k <=? n)%nat && String.eqb (substring (n - k) k s) suffix.

(** The white space [parseInt] skips, among the characters a latin-1
    header can hold: TAB, LF, VT, FF, CR, SP and NBSP. *)
Definition is_white (c : ascii) : bool :=
  let n := nat_of_ascii c in
  ((9 <=? n) && (n <=? 13) || (n =? 32) || (n =? 160))%nat.

Fixpoint skip_white (s : string) : string :=
  match s with
  | String c s' => if is_white c then skip_white s' else s
  | EmptyString => s
  end.

Definition digit_of (c : ascii) : option Z :=
  let n := nat_of_ascii c in
  if ((48 <=? n) && (n <=? 57))%nat then Some (Z.of_nat n - 48) else None.

(** The longest prefix of decimal digits, read most significant first;
    [None] when the string does not start with a digit. *)
Fixpoint digits_acc (s : string) (acc : option Z) : option Z :=
  match s with
  | String c s' =>
      match digit_of c with
      | Some d =>
          digits_acc s' (Some (10 * (match acc with Some a => a | None => 0 end) + d))
      | None => acc
      end
  | EmptyString => acc
  end.

(** [parseInt(s, 10)]: white space, a sign, then the leading decimal
    digits; what follows the digits is ignored, and NaN is the result
    when there is no digit.  Exact when the result is [safe]. *)
Definition parseInt (s : string) : jsnum :=
  let s1 := skip_white s in
  let '(sign, s2) :=
    match s1 with
    | String "-" r => (-1, r)
    | String "+" r => (1, r)
    | _ => (1, s1)
    end in
  match digits_acc s2 None with
  | Some v => Num (sign * v)
  | None => NaN
  end.

(** [String(z)] for an integer below 1e21, in particular for a [safe]
    one: its decimal digits. *)
Definition Z_toString (z : Z) : string :=
  match z with
  | Z0 => "0"
  | Zpos p => NilZero.string_of_uint (Pos.to_uint p)
  | Zneg p => String "-" (NilZero.string_of_uint (Pos.to_uint p))
  end.

(** [`${n}`] in a template literal. *)
Definition toString (n : jsnum) : string :=
  match n with
  | NaN => "NaN"
  | Num z => Z_toString z
  end.

(** [arr.sort()] with the default comparator: ascending order of the
    elements as strings, compared code unit by code unit.  The order is
    total and two strings that compare equal are the same string, so the
    result does not depend on the sorting algorithm. *)
Fixpoint sort_insert (x : string) (l : list string) : list string :=
  match l with
  | [] => [x]
  | y :: l' => if String.leb x y then x :: l else y :: sort_insert x l'
  end.

Fixpoint sort (l : list string) : list string :=
  match l with
  | [] => []
  | x :: l' => sort_insert x (sort l')
  end.

End JS.

(** ** Results and the handler monad *)

(** What an awaited call or a synchronous library call gives back: a
    value, or an exception carrying [err.message]. *)
Inductive Result (A : Type) : Type :=
| Ok (a : A)
| Throw (message : string).
Arguments Ok {A} a.
Arguments Throw {A} message.

(** A computation over a state [S] that may throw. *)
Definition M (S A : Type) : Type := S -> Result A * S.

Definition ret {S A} (a : A) : M S A := fun s => (Ok a, s).

Definition throw {S A} (message : string) : M S A := fun s => (Throw message, s).

Definition bind {S A B} (m : M S A) (k : A -> M S B) : M S B :=
  fun s =>
    match m s with
    | (Ok a, s') => k a s'
    | (Throw e, s') => (Throw e, s')
    end.

(** [try { m } catch (err) { h err }]. *)
Definition try_catch {S A} (m : M S A) (h : string -> M S A) : M S A :=
  fun s =>
    match m s with
    | (Ok a, s') => (Ok a, s')
    | (Throw e, s') => h e s'
    end.

Definition gets {S A} (f : S -> A) : M S A := fun s => (Ok (f s), s).

Definition modify {S} (f : S -> S) : M S unit := fun s => (Ok tt, f s).

(** An external call whose outcome the environment fixed. *)
Definition await {S A} (r : Result A) : M S A := fun s => (r, s).

Declare Scope handler_scope.
Delimit Scope handler_scope with handler.
Notation "x <- m ;; k" := (bind m (fun x => k))
  (at level 100, m at next level, k at level 200, right associativity) : handler_scope.
Notation "m ;; k" := (bind m (fun _ => k))
  (at level 100, k at level 200, right associativity) : handler_scope.
Local Open Scope handler_scope.

(** [for (const x of l) { await body(x) }]: stops at the first throw. *)
Fixpoint for_of {S A} (l : list A) (body : A -> M S unit) : M S unit :=
  match l with
  | [] => ret tt
  | x :: l' => body x ;; for_of l' body
  end.

(** ** The world of a server *)

(** A document of the [Video] collection (the schema of both servers).
    [duration] is carried from ffprobe to the document and never computed
    with. *)
Record Video : Type := mkVideo {
  videoId : string;
  title : string;
  description : string;
  filename : string;
  duration : QArith_base.Q;
  thumbnailCount : Z;
  views : Z;
  createdAt : Z
}.

Definition set_views (v : Video) (n : Z) : Video :=
  {| videoId := videoId v; title := title v; description := description v;
     filename := filename v; duration := duration v;
     thumbnailCount := thumbnailCount v; views := n; createdAt := createdAt v |}.

(** The local disk: regular files by path with their size, directories by
    path with their entries in the order [readdirSync] lists them. *)
Record FS : Type := mkFS {
  files : gmap string Z;
  dirs : gmap string (list string)
}.

(** How an object is sent to the store. *)
Inductive PutCall : Type :=
| MinioPutObject (size : Z)
    (* minioClient.putObject(bucket, name, stream, size, meta) *)
| S3PutObject (size : Z)
    (* r2Client.send(new PutObjectCommand({Body: whole file})) *)
| S3Upload (partSize queueSize : Z) (onProgress : bool).
    (* new Upload({partSize, queueSize}), with a httpUploadProgress listener *)

Inductive Body : Type :=
| BError (error : string)
| BUploadFailed (details : string)
| BUploaded (video : Video)
| BVideo (video : Video) (thumbnails : list string)
| BVideos (videos : list (Video * list string))
| BBytes (bytes : list Byte.byte)
| BRedirect (url : string)
| BHealth (healthy : bool).

Record Response : Type := mkResponse {
  status : Z;
  headers : list (string * string);
  body : Body
}.

Inductive Event : Type :=
| EvProbe (path : string)
| EvScreenshots (path folder : string) (count : Z)
| EvPut (key contentType : string) (call : PutCall)
| EvSave (id : string)
| EvUnlink (path : string)
| EvRm (path : string)
| EvRespond (r : Response).

Record World : Type := mkWorld {
  fs : FS;
  db : gmap string Video;
  log : list Event
}.

Definition set_fs (f : FS -> FS) (w : World) : World :=
  {| fs := f (fs w); db := db w; log := log w |}.

Definition set_db (f : gmap string Video -> gmap string Video) (w : World) : World :=
  {| fs := fs w; db := f (db w); log := log w |}.

Definition logged (e : Event) (w : World) : World :=
  {| fs := fs w; db := db w; log := log w ++ [e] |}.

Definition emit (e : Event) : M World unit := modify (logged e).

(** The last response written to the log, if any. *)
Fixpoint last_response (l : list Event) : option Response :=
  match l with
  | [] => None
  | e :: l' =>
      match last_response l' with
      | Some r => Some r
      | None => match e with EvRespond r => Some r | _ => None end
      end
  end.

(** What the outside decides during one request. *)
Record Env : Type := mkEnv {
  multer_filename : string;
    (* the random name multer gives the temp file *)
  ffprobe : Result (option QArith_base.Q);
    (* metadata.format.duration, undefined when the container has none *)
  ffmpeg_files : list (string * Z);
    (* what ffmpeg leaves in the output folder: name and size *)
  ffmpeg_end : Result unit;
    (* the 'end' or the 'error' event of the screenshots run *)
  store_put : string -> Result unit;
    (* outcome of sending the object with that key *)
  store_stat : Result Z;
    (* statObject: the size of the object *)
  store_get : Result (list (list Byte.byte));
    (* getObject: the chunks the 'data' events deliver, in order *)
  store_sign : string -> Result string;
    (* getSignedUrl for the object with that key *)
  db_find : Result unit;
    (* whether the query reaches the database *)
  db_save : Result unit;
    (* whether the write reaches the database *)
  now : Z
}.

(** ** fs *)

Definition existsSync (p : string) : M World bool :=
  gets (fun w => bool_decide (is_Some (files (fs w) !! p))
                 || bool_decide (is_Some (dirs (fs w) !! p))).

Definition statSync (p : string) : M World Z :=
  f <- gets (fun w => files (fs w) !! p) ;;
  match f with
  | Some size => ret size
  | None => throw "ENOENT: no such file or directory, stat"
  end.

(** The content of a file stands as its size. *)
Definition readFileSync (p : string) : M World Z :=
  f <- gets (fun w => files (fs w) !! p) ;;
  match f with
  | Some size => ret size
  | None => throw "ENOENT: no such file or directory, open"
  end.

(** Throws when [p] is not a regular file. *)
Definition unlinkSync (p : string) : M World unit :=
  f <- gets (fun w => files (fs w) !! p) ;;
  match f with
  | Some _ =>
      emit (EvUnlink p) ;;
      modify (set_fs (fun f => {| files := delete p (files f); dirs := dirs f |}))
  | None => throw "ENOENT: no such file or directory, unlink"
  end.

Definition path_join (a b : string) : string := a ++ "/" ++ b.

(** [fs.rmSync(p, { recursive: true, force: true })]: the directory and
    the files it lists go; nothing is thrown when [p] does not exist. *)
Definition rm_entries (p : string) (names : list string) (fm : gmap string Z) : gmap string Z :=
  fold_right (fun n acc => delete (path_join p n) acc) fm names.

Definition rmSync (p : string) : M World unit :=
  emit (EvRm p) ;;
  modify (set_fs (fun f =>
    {| files := delete p (rm_entries p (default [] (dirs f !! p)) (files f));
       dirs := delete p (dirs f) |})).

(** [fs.mkdirSync(p, { recursive: true })]. *)
Definition mkdirSync (p : string) : M World unit :=
  modify (set_fs (fun f =>
    {| files := files f;
       dirs := match dirs f !! p with
               | Some _ => dirs f
               | None => <[p := []]> (dirs f)
               end |})).

Definition readdirSync (p : string) : M World (list string) :=
  d <- gets (fun w => dirs (fs w) !! p) ;;
  match d with
  | Some names => ret names
  | None => throw "ENOENT: no such file or directory, scandir"
  end.

(** One file written into a directory. *)
Definition add_entry (name : string) (names : list string) : list string :=
  if bool_decide (name ∈ names) then names else (names ++ [name])%list.

Definition write_into (p : string) (entry : string * Z) (f : FS) : FS :=
  {| files := <[path_join p (fst entry) := snd entry]> (files f);
     dirs := <[p := add_entry (fst entry) (default [] (dirs f !! p))]> (dirs f) |}.

Fixpoint contains (c : ascii) (s : string) : bool :=
  match s with
  | EmptyString => false
  | String a s' => Ascii.eqb a c || contains c s'
  end.

Fixpoint after_last (sep : ascii) (s : string) : string :=
  match s with
  | EmptyString => EmptyString
  | String c s' =>
      if contains sep s' then after_last sep s'
      else if Ascii.eqb c sep then s' else s
  end.

Fixpoint before_last (sep : ascii) (s : string) : string :=
  match s with
  | EmptyString => EmptyString
  | String c s' =>
      if contains sep s' then String c (before_last sep s') else EmptyString
  end.

(** [path.parse(p).name] for a path that does not end in a separator:
    the last component without its extension (a leading dot starts no
    extension). *)
Definition path_parse_name (p : string) : string :=
  let base := after_last "/" p in
  if contains "." base then
    match before_last "." base with
    | EmptyString => base
    | n => n
    end
  else base.

(** ** The two servers *)

Inductive Variant : Type :=
| Minio   (* the server that streams from a MinIO bucket *)
| R2.     (* the server that redirects to signed Cloudflare R2 urls *)

(** [getMinioUrl] and [getR2Url] only format a key with values of
    [process.env]; a server carries its own. *)
Record Server : Type := mkServer {
  variant : Variant;
  resolve_url : string -> string
}.

(** What multer hands to the handler as [req.file]. *)
Record MulterFile : Type := mkMulterFile {
  mf_path : string;
  mf_filename : string;
  mf_size : Z
}.

(** A multipart POST: the size of the [video] part when there is one,
    and the text fields. *)
Record UploadForm : Type := mkUploadForm {
  form_video : option Z;
  form_title : option string;
  form_description : option string
}.

(** [limits.fileSize] of the multer instance. *)
Definition fileSize_limit (v : Variant) : Z :=
  match v with
  | Minio => 500 * 1024 * 1024
  | R2 => 5 * 1024 * 1024 * 1024
  end.

(** [upload.single('video')]: the part is written under [uploads/videos]
    before the handler runs; a part over the limit is dropped with an
    error and the handler does not run. *)
Definition multer_single (v : Variant) (env : Env) (form : UploadForm)
  : M World (option MulterFile) :=
  match form_video form with
  | None => ret None
  | Some size =>
      if fileSize_limit v <? size then throw "File too large"
      else
        let p := path_join "uploads/videos" (multer_filename env) in
        modify (set_fs (fun f => {| files := <[p := size]> (files f); dirs := dirs f |})) ;;
        ret (Some {| mf_path := p; mf_filename := multer_filename env; mf_size := size |})
  end.

Definition getVideoMetadata (env : Env) (videoPath : string)
  : M World (option QArith_base.Q) :=
  emit (EvProbe videoPath) ;;
  await (ffprobe env).

Definition generateThumbnails (env : Env) (videoPath outputDir : string) (count : Z)
  : M World unit :=
  e <- existsSync outputDir ;;
  (if negb e then mkdirSync outputDir else ret tt) ;;
  emit (EvScreenshots videoPath outputDir count) ;;
  modify (set_fs (fun f => fold_left (fun acc x => write_into outputDir x acc) (ffmpeg_files env) f)) ;;
  await (ffmpeg_end env).

Definition uploadToMinio (env : Env) (filePath objectName contentType : string)
  : M World unit :=
  size <- statSync filePath ;;
  emit (EvPut objectName contentType (MinioPutObject size)) ;;
  await (store_put env objectName).

Definition uploadToR2 (env : Env) (filePath key contentType : string)
  : M World unit :=
  fileSize <- statSync filePath ;;
  if fileSize <? 100 * 1024 * 1024 then
    fileContent <- readFileSync filePath ;;
    emit (EvPut key contentType (S3PutObject fileContent)) ;;
    await (store_put env key)
  else
    emit (EvPut key contentType (S3Upload (100 * 1024 * 1024) 4 true)) ;;
    await (store_put env key).

Definition uploadTo (v : Variant) : Env -> string -> string -> string -> M World unit :=
  match v with
  | Minio => uploadToMinio
  | R2 => uploadToR2
  end.

(** *** Mongoose *)

Definition Video_findOne (env : Env) (id : string) : M World (option Video) :=
  await (db_find env) ;;
  gets (fun w => db w !! id).

Definition Video_find (env : Env) : M World (list Video) :=
  await (db_find env) ;;
  gets (fun w => snd <$> map_to_list (db w)).

(** [new Video({...}).save()]: the schema requires a non-empty [videoId]
    and a numeric [duration] (the other required paths are never empty
    here), the collection has a unique index on [videoId]; [views]
    starts at 0 and [createdAt] at the current time. *)
Definition Video_create (env : Env) (id ttl descr fname : string)
    (dur : option QArith_base.Q) (count : Z) : M World Video :=
  emit (EvSave id) ;;
  match dur with
  | None => throw "Video validation failed: duration: Path `duration` is required."
  | Some d =>
      if negb (JS.truthy id)
      then throw "Video validation failed: videoId: Path `videoId` is required."
      else
        await (db_save env) ;;
        existing <- gets (fun w => db w !! id) ;;
        match existing with
        | Some _ => throw "E11000 duplicate key error"
        | None =>
            let video := {| videoId := id; title := ttl; description := descr;
                            filename := fname; duration := d; thumbnailCount := count;
                            views := 0; createdAt := now env |} in
            modify (set_db (fun m => <[id := video]> m)) ;;
            ret video
        end
  end.

(** [video.save()] on a document that was read from the collection. *)
Definition Video_save (env : Env) (video : Video) : M World unit :=
  emit (EvSave (videoId video)) ;;
  await (db_save env) ;;
  modify (set_db (fun m => <[videoId video := video]> m)).

Definition respond (r : Response) : M World unit := emit (EvRespond r).

Definition json (code : Z) (b : Body) : Response :=
  {| status := code; headers := [("Content-Type", "application/json")]; body := b |}.

(** *** POST /api/upload *)

(** The handler's two [let] variables live next to the world. *)
Record Frame : Type := mkFrame {
  world : World;
  tempVideoPath : option string;
  tempThumbnailDir : option string
}.

Definition liftW {A} (m : M World A) : M Frame A :=
  fun f =>
    let '(r, w) := m (world f) in
    (r, {| world := w; tempVideoPath := tempVideoPath f;
           tempThumbnailDir := tempThumbnailDir f |}).

(** A handler body run from the world, both variables starting null. *)
Definition with_locals {A} (m : M Frame A) : M World A :=
  fun w =>
    let '(r, f) := m {| world := w; tempVideoPath := None; tempThumbnailDir := None |} in
    (r, world f).

Definition set_tempVideoPath (p : string) : M Frame unit :=
  modify (fun f => {| world := world f; tempVideoPath := Some p;
                      tempThumbnailDir := tempThumbnailDir f |}).

Definition set_tempThumbnailDir (p : string) : M Frame unit :=
  modify (fun f => {| world := world f; tempVideoPath := tempVideoPath f;
                      tempThumbnailDir := Some p |}).

(** [if (p && fs.existsSync(p)) action(p)]. *)
Definition cleanup_if_exists (p : option string) (action : string -> M World unit)
  : M Frame unit :=
  match p with
  | Some p =>
      e <- liftW (existsSync p) ;;
      if e then liftW (action p) else ret tt
  | None => ret tt
  end.

(** [description || '']. *)
Definition or_empty (s : option string) : string :=
  match s with
  | Some d => if JS.truthy d then d else EmptyString
  | None => EmptyString
  end.

(** The steps after validation, up to the success response. *)
Definition ingest (v : Variant) (env : Env) (videoFile : MulterFile)
    (ttl : string) (descr : option string) : M World unit :=
  let tempVideoPath := mf_path videoFile in
  let videoId := path_parse_name (mf_filename videoFile) in
  let tempThumbnailDir := path_join "thumbnails" videoId in
  dur <- getVideoMetadata env tempVideoPath ;;
  generateThumbnails env tempVideoPath tempThumbnailDir 10 ;;
  uploadTo v env tempVideoPath ("videos/" ++ videoId ++ ".mp4") "video/mp4" ;;
  names <- readdirSync tempThumbnailDir ;;
  let thumbnailFiles := JS.sort (List.filter (fun f => JS.endsWith f ".jpg") names) in
  for_of thumbnailFiles (fun thumbFile =>
    let thumbPath := path_join tempThumbnailDir thumbFile in
    uploadTo v env thumbPath ("thumbnails/" ++ videoId ++ "/" ++ thumbFile) "image/jpeg") ;;
  video <- Video_create env videoId ttl
             (or_empty descr)
             (videoId ++ ".mp4") dur (Z.of_nat (length thumbnailFiles)) ;;
  unlinkSync tempVideoPath ;;
  rmSync tempThumbnailDir ;;
  respond (json 200 (BUploaded video)).

(** [!videoFile || !title]. *)
Definition invalid_upload (videoFile : option MulterFile) (ttl : option string) : bool :=
  negb (bool_decide (is_Some videoFile))
  || negb (match ttl with Some t => JS.truthy t | None => false end).

(** The body of the [try] block: the two variables are assigned once
    validation has passed and nothing assigns them afterwards. *)
Definition upload_try (v : Variant) (env : Env) (videoFile : option MulterFile)
    (ttl descr : option string) : M Frame unit :=
  if invalid_upload videoFile ttl then
    liftW (respond (json 400 (BError "Video and title required")))
  else
    match videoFile, ttl with
    | Some videoFile, Some ttl =>
        set_tempVideoPath (mf_path videoFile) ;;
        set_tempThumbnailDir
          (path_join "thumbnails" (path_parse_name (mf_filename videoFile))) ;;
        liftW (ingest v env videoFile ttl descr)
    | _, _ => ret tt
    end.

Definition upload_catch (message : string) : M Frame unit :=
  p <- gets tempVideoPath ;;
  cleanup_if_exists p unlinkSync ;;
  d <- gets tempThumbnailDir ;;
  cleanup_if_exists d rmSync ;;
  liftW (respond (json 500 (BUploadFailed message))).

Definition upload_handler (v : Variant) (env : Env) (videoFile : option MulterFile)
    (ttl descr : option string) : M Frame unit :=
  try_catch (upload_try v env videoFile ttl descr) upload_catch.

(** The route: multer, then the handler with both variables null.  An
    error of multer goes to the default error handler of Express; an
    exception that escapes the async handler is a rejected promise with
    nobody to answer it. *)
Definition post_upload (srv : Server) (env : Env) (form : UploadForm) : M World unit :=
  fun w =>
    match multer_single (variant srv) env form w with
    | (Ok videoFile, w1) =>
        with_locals (upload_handler (variant srv) env videoFile
                       (form_title form) (form_description form)) w1
    | (Throw message, w1) =>
        respond {| status := 500; headers := []; body := BError message |} w1
    end.

(** *** GET /api/videos and GET /api/videos/:videoId *)

(** [Array.from({ length: n }, (_, i) => url(`thumbnails/${id}/thumb_${i + 1}.jpg`))]. *)
Definition thumbnail_urls (srv : Server) (video : Video) : list string :=
  map (fun i => resolve_url srv
                  ("thumbnails/" ++ videoId video ++ "/thumb_"
                   ++ JS.Z_toString (Z.of_nat i + 1) ++ ".jpg"))
      (seq 0 (Z.to_nat (thumbnailCount video))).

(** The order of the list ([createdAt], newest first) is not modelled:
    the documents come as the map enumerates them. *)
Definition get_videos (srv : Server) (env : Env) : M World unit :=
  try_catch
    (videos <- Video_find env ;;
     respond (json 200 (BVideos (map (fun v => (v, thumbnail_urls srv v)) videos))))
    (fun _ => respond (json 500 (BError "Database error"))).

Definition get_video (srv : Server) (env : Env) (id : string) : M World unit :=
  try_catch
    (found <- Video_findOne env id ;;
     match found with
     | None => respond (json 404 (BError "Video not found"))
     | Some video =>
         let video := set_views video (views video + 1) in
         Video_save env video ;;
         let thumbnails := thumbnail_urls srv video in
         respond (json 200 (BVideo video thumbnails))
     end)
    (fun _ => respond (json 500 (BError "Database error"))).

(** The same handler with other requests served while it awaits the
    document: each [await] lets the event loop run other handlers, and
    the document in hand is the one [findOne] returned. *)
Definition get_video_during (srv : Server) (env : Env) (id : string)
    (others : M World unit) : M World unit :=
  try_catch
    (found <- Video_findOne env id ;;
     others ;;
     match found with
     | None => respond (json 404 (BError "Video not found"))
     | Some video =>
         let video := set_views video (views video + 1) in
         Video_save env video ;;
         let thumbnails := thumbnail_urls srv video in
         respond (json 200 (BVideo video thumbnails))
     end)
    (fun _ => respond (json 500 (BError "Database error"))).

(** *** GET /api/stream/:videoId *)

(** The state of the ['data'] listener: the counter [bytesRead], what
    [res.write] received so far, and whether the response was ended. *)
Record Pump : Type := mkPump {
  bytesRead : Z;
  written : list Byte.byte;
  ended : bool
}.

(** One ['data'] event. *)
Definition on_data (start end_ : JS.jsnum) (chunk : list Byte.byte) (p : Pump) : Pump :=
  let written' :=
    if JS.ge (JS.Num (bytesRead p)) start && JS.lt (JS.Num (bytesRead p)) end_
    then (written p ++ chunk)%list else written p in
  let bytesRead' := bytesRead p + Z.of_nat (length chunk) in
  {| bytesRead := bytesRead';
     written := written';
     ended := JS.ge (JS.Num bytesRead') end_ |}.

(** The events of the stream in order.  Once the listener has destroyed
    the stream and ended the response no further chunk reaches the
    client; a stream read to its end fires ['end'], which ends the
    response. *)
Fixpoint pump (start end_ : JS.jsnum) (chunks : list (list Byte.byte)) (p : Pump) : Pump :=
  match chunks with
  | [] => {| bytesRead := bytesRead p; written := written p; ended := true |}
  | chunk :: chunks' =>
      let p' := on_data start end_ chunk p in
      if ended p' then p' else pump start end_ chunks' p'
  end.

Definition statObject (env : Env) (objectName : string) : M World Z :=
  await (store_stat env).

(** The stream is taken whole, as the list of its chunks; an ['error']
    event in the middle of a transfer is not modelled. *)
Definition getObject (env : Env) (objectName : string) : M World (list (list Byte.byte)) :=
  await (store_get env).

(** [req.headers.range] is undefined or a string; an empty string is as
    good as none. *)
Definition range_given (range : option string) : option string :=
  match range with
  | Some r => if JS.truthy r then Some r else None
  | None => None
  end.

Definition range_start (range : string) : JS.jsnum :=
  let parts := JS.split "-" (JS.remove_first "bytes=" range) in
  JS.parseInt (nth 0 parts EmptyString).

Definition range_end (range : string) (fileSize : Z) : JS.jsnum :=
  let parts := JS.split "-" (JS.remove_first "bytes=" range) in
  match nth_error parts 1 with
  | Some p => if JS.truthy p then JS.parseInt p else JS.sub (JS.Num fileSize) (JS.Num 1)
  | None => JS.sub (JS.Num fileSize) (JS.Num 1)
  end.

Definition stream_minio (env : Env) (id : string) (range : option string) : M World unit :=
  try_catch
    (found <- Video_findOne env id ;;
     match found with
     | None => respond (json 404 (BError "Video not found"))
     | Some video =>
         let objectName := "videos/" ++ videoId video ++ ".mp4" in
         fileSize <- statObject env objectName ;;
         match range_given range with
         | Some range =>
             let start := range_start range in
             let end_ := range_end range fileSize in
             let chunksize := JS.add (JS.sub end_ start) (JS.Num 1) in
             dataStream <- getObject env objectName ;;
             respond
               {| status := 206;
                  headers :=
                    [("Content-Range",
                      "bytes " ++ JS.toString start ++ "-" ++ JS.toString end_
                      ++ "/" ++ JS.Z_toString fileSize);
                     ("Accept-Ranges", "bytes");
                     ("Content-Length", JS.toString chunksize);
                     ("Content-Type", "video/mp4")];
                  body := BBytes (written (pump start end_ dataStream
                                             {| bytesRead := 0; written := []; ended := false |})) |}
         | None =>
             dataStream <- getObject env objectName ;;
             respond
               {| status := 200;
                  headers := [("Content-Length", JS.Z_toString fileSize);
                              ("Content-Type", "video/mp4")];
                  body := BBytes (concat dataStream) |}
         end
     end)
    (fun _ => respond (json 500 (BError "Stream failed"))).

Definition getSignedR2Url (env : Env) (key : string) : M World string :=
  await (store_sign env key).

Definition redirect (url : string) : Response :=
  {| status := 302; headers := [("Location", url)]; body := BRedirect url |}.

Definition stream_r2 (env : Env) (id : string) : M World unit :=
  try_catch
    (found <- Video_findOne env id ;;
     match found with
     | None => respond (json 404 (BError "Video not found"))
     | Some video =>
         let key := "videos/" ++ videoId video ++ ".mp4" in
         signedUrl <- getSignedR2Url env key ;;
         respond (redirect signedUrl)
     end)
    (fun _ => respond (json 500 (BError "Stream failed"))).

Definition get_stream (srv : Server) (env : Env) (id : string) (range : option string)
  : M World unit :=
  match variant srv with
  | Minio => stream_minio env id range
  | R2 => stream_r2 env id
  end.

(** *** Percent-encoding *)

(** A string stands for the bytes of its UTF-8 encoding.  The lead byte
    of a sequence of two, three or four bytes, with the range each of
    the bytes after it must lie in: no overlong form, no surrogate,
    nothing past U+10FFFF. *)
Definition continuation (b : ascii) : option (list (N * N)) :=
  let n := N_of_ascii b in
  (if (194 <=? n) && (n <=? 223) then Some [(128, 191)]
   else if n =? 224 then Some [(160, 191); (128, 191)]
   else if (225 <=? n) && (n <=? 236) then Some [(128, 191); (128, 191)]
   else if n =? 237 then Some [(128, 159); (128, 191)]
   else if (238 <=? n) && (n <=? 239) then Some [(128, 191); (128, 191)]
   else if n =? 240 then Some [(144, 191); (128, 191); (128, 191)]
   else if (241 <=? n) && (n <=? 243) then Some [(128, 191); (128, 191); (128, 191)]
   else if n =? 244 then Some [(128, 143); (128, 191); (128, 191)]
   else None)%N.

Definition between (range : N * N) (b : ascii) : bool :=
  ((fst range <=? N_of_ascii b) && (N_of_ascii b <=? snd range))%N.

(** The bytes are well-formed UTF-8, as those of every JavaScript string
    without a lone surrogate are; [pending] holds the ranges of the
    bytes that the sequence under way still needs. *)
Fixpoint well_formed (pending : list (N * N)) (s : string) : bool :=
  match s with
  | EmptyString => match pending with [] => true | _ :: _ => false end
  | String b s' =>
      match pending with
      | range :: pending' => between range b && well_formed pending' s'
      | [] =>
          if (N_of_ascii b <? 128)%N then well_formed [] s'
          else match continuation b with
               | Some ranges => well_formed ranges s'
               | None => false
               end
      end
  end.

Definition utf8 (s : string) : bool := well_formed [] s.

(** [encodeURIComponent]: letters, digits and [- _ . ! ~ * ' ( )] are
    kept, every other byte of the UTF-8 encoding is written [%XX] in
    upper-case hexadecimal. *)
Definition is_unreserved (a : ascii) : bool :=
  let n := N_of_ascii a in
  ((65 <=? n) && (n <=? 90) || (97 <=? n) && (n <=? 122) || (48 <=? n) && (n <=? 57)
   || contains a "-_.!~*'()")%N.

Definition hex_digit (n : N) : ascii :=
  match String.get (N.to_nat n) "0123456789ABCDEF" with
  | Some c => c
  | None => "0"%char
  end.

Definition encode_byte (a : ascii) : string :=
  if is_unreserved a then String a EmptyString
  else String "%" (String (hex_digit (N_of_ascii a / 16))
                     (String (hex_digit (N_of_ascii a mod 16)) EmptyString)).

Fixpoint encodeURIComponent (s : string) : string :=
  match s with
  | EmptyString => EmptyString
  | String a s' => encode_byte a ++ encodeURIComponent s'
  end.

(** [decodeURIComponent].  First every [%XX] is read back as a byte, in
    either case of the hexadecimal digits, and marked as escaped; a [%]
    that two such digits do not follow throws. *)
Definition hex_value (c : ascii) : option N :=
  let n := N_of_ascii c in
  (if (48 <=? n) && (n <=? 57) then Some (n - 48)
   else if (65 <=? n) && (n <=? 70) then Some (n - 55)
   else if (97 <=? n) && (n <=? 102) then Some (n - 87)
   else None)%N.

Fixpoint unescape (s : string) : Result (list (bool * ascii)) :=
  match s with
  | EmptyString => Ok []
  | String c rest =>
      if Ascii.eqb c "%" then
        match rest with
        | String h (String l rest') =>
            match hex_value h, hex_value l with
            | Some x, Some y =>
                match unescape rest' with
                | Ok octets => Ok ((true, ascii_of_N (16 * x + y)) :: octets)
                | Throw e => Throw e
                end
            | _, _ => Throw "URI malformed"
            end
        | _ => Throw "URI malformed"
        end
      else
        match unescape rest with
        | Ok octets => Ok ((false, c) :: octets)
        | Throw e => Throw e
        end
  end.

(** Then the escaped bytes must spell characters: an escaped byte of
    128 or more must be the lead byte of a well-formed UTF-8 sequence
    whose other bytes are escaped as well, or the call throws.  Bytes
    that were not escaped are characters of the text and stay. *)
Fixpoint decode_octets (pending : list (N * N)) (octets : list (bool * ascii))
  : Result string :=
  let keep b rest :=
    match rest with
    | Ok t => Ok (String b t)
    | Throw e => Throw e
    end in
  match octets with
  | [] => match pending with [] => Ok EmptyString | _ :: _ => Throw "URI malformed" end
  | (escaped, b) :: octets' =>
      match pending with
      | range :: pending' =>
          if escaped && between range b then keep b (decode_octets pending' octets')
          else Throw "URI malformed"
      | [] =>
          if negb escaped || (N_of_ascii b <? 128)%N then keep b (decode_octets [] octets')
          else match continuation b with
               | Some ranges => keep b (decode_octets ranges octets')
               | None => Throw "URI malformed"
               end
      end
  end.

Definition decodeURIComponent (s : string) : Result string :=
  match unescape s with
  | Ok octets => decode_octets [] octets
  | Throw e => Throw e
  end.

(** GET /api/media/:key, on the R2 server only; [param] is
    [req.params.key].  [decodeURIComponent] is a call that returns or
    throws at once. *)
Definition get_media (env : Env) (param : string) : M World unit :=
  try_catch
    (key <- await (decodeURIComponent param) ;;
     signedUrl <- getSignedR2Url env key ;;
     respond (redirect signedUrl))
    (fun _ => respond (json 500 (BError "Failed to fetch media"))).

(** GET /health reads the state of the connections and changes nothing. *)
Definition get_health (healthy : bool) : M World unit :=
  respond (json (if healthy then 200 else 500) (BHealth healthy)).

(** *** The operations of a server *)

Inductive Request : Type :=
| PostUpload (form : UploadForm)
| GetVideos
| GetVideo (id : string)
| GetStream (id : string) (range : option string)
| GetMedia (key : string)
| GetHealth (healthy : bool).

Definition handle (srv : Server) (env : Env) (req : Request) : M World unit :=
  match req with
  | PostUpload form => post_upload srv env form
  | GetVideos => get_videos srv env
  | GetVideo id => get_video srv env id
  | GetStream id range => get_stream srv env id range
  | GetMedia key =>
      match variant srv with
      | R2 => get_media env key
      | Minio => respond {| status := 404; headers := []; body := BError "Not Found" |}
      end
  | GetHealth healthy => get_health healthy
  end.

(** The world after a request. *)
Definition after (srv : Server) (env : Env) (req : Request) (w : World) : World :=
  snd (handle srv env req w).

(** The response a request gets in a world. *)
Definition response_to (srv : Server) (env : Env) (req : Request) (w : World)
  : option Response :=
  last_response (skipn (length (log w)) (log (after srv env req w))).

(** ** Vocabulary of the properties *)

(** The value of a decimal numeral read most significant digit first,
    continuing from [acc]. *)
Fixpoint horner (d : Decimal.uint) (acc : Z) : Z :=
  match d with
  | Decimal.Nil => acc
  | Decimal.D0 l => horner l (10 * acc + 0)
  | Decimal.D1 l => horner l (10 * acc + 1)
  | Decimal.D2 l => horner l (10 * acc + 2)
  | Decimal.D3 l => horner l (10 * acc + 3)
  | Decimal.D4 l => horner l (10 * acc + 4)
  | Decimal.D5 l => horner l (10 * acc + 5)
  | Decimal.D6 l => horner l (10 * acc + 6)
  | Decimal.D7 l => horner l (10 * acc + 7)
  | Decimal.D8 l => horner l (10 * acc + 8)
  | Decimal.D9 l => horner l (10 * acc + 9)
  end.

(** A string at which a run of digits stops. *)
Definition stops (rest : string) : Prop :=
  match rest with
  | EmptyString => True
  | String c _ => JS.digit_of c = None
  end.

(** No offset lies at or after [start] and before [end_]. *)
Definition window_empty (start end_ : JS.jsnum) : Prop :=
  forall o, JS.ge (JS.Num o) start && JS.lt (JS.Num o) end_ = false.


(** The value of a [Range: bytes=start-end] header, [end] being optional. *)
Definition range_header (start : Z) (end_ : option Z) : string :=
  "bytes=" ++ JS.Z_toString start ++ "-"
  ++ match end_ with Some e => JS.Z_toString e | None => EmptyString end.

(** Bytes [start..end_] of an object, both ends included. *)
Definition slice (start end_ : Z) (data : list Byte.byte) : list Byte.byte :=
  firstn (Z.to_nat (end_ - start + 1)) (skipn (Z.to_nat start) data).

(** A stream that delivers the whole object, cut into chunks anyhow. *)
Definition delivers (chunks : list (list Byte.byte)) (data : list Byte.byte) : Prop :=
  concat chunks = data.

(** The parsed range is one the responder was not written for: a bound
    that is not a number, a start after the end, or a start at or past
    the end of the object. *)
Definition malformed (start end_ : JS.jsnum) (size : Z) : Prop :=
  match start, end_ with
  | JS.Num s, JS.Num e => e < s \/ size <= s
  | _, _ => True
  end.

(** A bound written as a range header should have it: one decimal digit
    or more, and nothing else. *)
Fixpoint all_digits (s : string) : bool :=
  match s with
  | EmptyString => true
  | String c s' =>
      match JS.digit_of c with
      | Some _ => all_digits s'
      | None => false
      end
  end.

Definition numeral (s : string) : bool := JS.truthy s && all_digits s.

(** Every number the handler computes from the range and the size is
    one the integer model has as JavaScript has it: the size, the two
    bounds, their difference and [chunksize]. *)
Definition exactly_modelled (start end_ : JS.jsnum) (size : Z) : Prop :=
  0 <= size <= JS.MAX_SAFE_INTEGER
  /\ JS.safe start
  /\ JS.safe end_
  /\ JS.safe (JS.sub end_ start)
  /\ JS.safe (JS.add (JS.sub end_ start) (JS.Num 1)).

Definition is_client_error (r : Response) : Prop := 400 <= status r < 500.

(** The headers of a partial-content response. *)
Definition partial_headers (start end_ : JS.jsnum) (fileSize : Z) : list (string * string) :=
  [("Content-Range",
    "bytes " ++ JS.toString start ++ "-" ++ JS.toString end_ ++ "/" ++ JS.Z_toString fileSize);
   ("Accept-Ranges", "bytes");
   ("Content-Length", JS.toString (JS.add (JS.sub end_ start) (JS.Num 1)));
   ("Content-Type", "video/mp4")].

(** What [res.write] received over a whole stream. *)
Definition streamed (start end_ : JS.jsnum) (chunks : list (list Byte.byte)) : list Byte.byte :=
  written (pump start end_ chunks {| bytesRead := 0; written := []; ended := false |}).

(** The keys of the objects sent to the store, in the order of the calls. *)
Fixpoint put_keys (l : list Event) : list string :=
  match l with
  | [] => []
  | EvPut key _ _ :: l' => key :: put_keys l'
  | _ :: l' => put_keys l'
  end.

(** The events a request added to the log. *)
Definition events_of (srv : Server) (env : Env) (req : Request) (w : World) : list Event :=
  skipn (length (log w)) (log (after srv env req w)).

(** ** Fixtures of the examples *)

Definition minio_server : Server :=
  {| variant := Minio; resolve_url := fun k => "http://localhost:9000/videotube/" ++ k |}.

Definition r2_server : Server :=
  {| variant := R2; resolve_url := fun k => "https://pub-0.r2.dev/" ++ k |}.

Definition demo_video : Video :=
  {| videoId := "abc"; title := "A"; description := EmptyString; filename := "abc.mp4";
     duration := QArith_base.Qmake 30 1; thumbnailCount := 10; views := 5;
     createdAt := 0 |}.

Definition empty_world : World :=
  {| fs := {| files := ∅; dirs := ∅ |}; db := ∅; log := [] |}.

(** A server that holds one record, [abc], seen five times. *)
Definition demo_world : World :=
  {| fs := {| files := ∅; dirs := ∅ |}; db := {[ "abc" := demo_video ]}; log := [] |}.

(** An object of 1000 bytes, byte [i] being [i mod 256]. *)
Definition demo_object : list Byte.byte :=
  map (fun i => default Byte.x00 (Byte.of_nat (i mod 256))) (seq 0 1000).

(** [thumb_1.jpg] to [thumb_n.jpg], as ffmpeg names them. *)
Definition demo_thumbs (n : nat) : list (string * Z) :=
  map (fun i => ("thumb_" ++ JS.Z_toString (Z.of_nat i + 1) ++ ".jpg", 2048)) (seq 0 n).

(** An environment in which the store holds [demo_object] and delivers
    it as one chunk, and ffmpeg writes ten thumbnails; the outcomes of
    the probe, of ffmpeg, of the uploads and of the database writes are
    given. *)
Definition env_with (probe : Result (option QArith_base.Q)) (ffmpeg : Result unit)
    (put : string -> Result unit) (save : Result unit) : Env :=
  {| multer_filename := "0123abcd";
     ffprobe := probe;
     ffmpeg_files := demo_thumbs 10;
     ffmpeg_end := ffmpeg;
     store_put := put;
     store_stat := Ok 1000;
     store_get := Ok [demo_object];
     store_sign := fun key => Ok ("https://signed.example/" ++ key);
     db_find := Ok tt;
     db_save := save;
     now := 1 |}.

(** Every external call succeeds. *)
Definition demo_env : Env :=
  env_with (Ok (Some (QArith_base.Qmake 30 1))) (Ok tt) (fun _ => Ok tt) (Ok tt).

(** The database refuses writes. *)
Definition env_db_down : Env :=
  env_with (Ok (Some (QArith_base.Qmake 30 1))) (Ok tt) (fun _ => Ok tt)
    (Throw "MongoNetworkError").

(** ffprobe cannot read the file. *)
Definition env_corrupt_file : Env :=
  env_with (Throw "ffprobe exited with code 1") (Ok tt) (fun _ => Ok tt) (Ok tt).

(** ffmpeg stops with an error after it wrote its files. *)
Definition env_ffmpeg_fails : Env :=
  env_with (Ok (Some (QArith_base.Qmake 30 1))) (Throw "ffmpeg exited with code 1")
    (fun _ => Ok tt) (Ok tt).

(** The store refuses the video object. *)
Definition env_video_put_fails : Env :=
  env_with (Ok (Some (QArith_base.Qmake 30 1))) (Ok tt)
    (fun key => if String.eqb key "videos/0123abcd.mp4"
                then Throw "S3Error: connection reset" else Ok tt)
    (Ok tt).

(** The store refuses the third thumbnail. *)
Definition env_thumbnail_put_fails : Env :=
  env_with (Ok (Some (QArith_base.Qmake 30 1))) (Ok tt)
    (fun key => if String.eqb key "thumbnails/0123abcd/thumb_3.jpg"
                then Throw "S3Error: connection reset" else Ok tt)
    (Ok tt).

Definition demo_form : UploadForm :=
  {| form_video := Some 1000; form_title := Some "A"; form_description := None |}.

Definition form_without_title : UploadForm :=
  {| form_video := Some 1000; form_title := None; form_description := None |}.

(** ** Relations between the world before and after a computation *)

(** Every run of [m] relates the state it starts in to the state it
    leaves, whether it returns or throws. *)
Definition respects {S A : Type} (R : S -> S -> Prop) (m : M S A) : Prop :=
  forall s r s', m s = (r, s') -> R s s'.

(** The log is only appended to. *)
Definition log_grows (w w' : World) : Prop :=
  exists evs, log w' = (log w ++ evs)%list.

(** A relation on worlds, read on the world of a frame. *)
Definition on_world (R : World -> World -> Prop) (f f' : Frame) : Prop :=
  R (world f) (world f').

(** What the store is asked for a file of a given size. *)
Definition put_call (v : Variant) (size : Z) : PutCall :=
  match v with
  | Minio => MinioPutObject size
  | R2 => if size <? 100 * 1024 * 1024
          then S3PutObject size
          else S3Upload (100 * 1024 * 1024) 4 true
  end.

(** Only the log changes. *)
Definition only_logs (w w' : World) : Prop :=
  fs w' = fs w /\ db w' = db w.

(** A regular file that is there stays there. *)
Definition file_kept (p : string) (w w' : World) : Prop :=
  is_Some (files (fs w) !! p) -> is_Some (files (fs w') !! p).

(** The disk is as it was. *)
Definition fs_kept (w w' : World) : Prop := fs w' = fs w.

(** Documents are filed under their [videoId]. *)
Definition db_wf (w : World) : Prop :=
  forall k v, db w !! k = Some v -> videoId v = k.

(** No document disappears and no view count goes down. *)
Definition views_kept (w w' : World) : Prop :=
  forall k v, db w !! k = Some v ->
    exists v', db w' !! k = Some v' /\ views v <= views v'.

Definition views_monotone (w w' : World) : Prop :=
  db_wf w -> db_wf w' /\ views_kept w w'.

(** ** The outcome of an ingestion *)

Definition is_ok {A} (r : Result A) : bool :=
  match r with
  | Ok _ => true
  | Throw _ => false
  end.

(** What [readdirSync] lists in a folder that ffmpeg filled from empty. *)
Definition ffmpeg_names (env : Env) : list string :=
  fold_left (fun acc x => add_entry (fst x) acc) (ffmpeg_files env) [].

(** [thumbnailFiles] of such a run. *)
Definition thumbnail_files (env : Env) : list string :=
  JS.sort (List.filter (fun f => JS.endsWith f ".jpg") (ffmpeg_names env)).

Definition video_key (id : string) : string := "videos/" ++ id ++ ".mp4".

Definition thumbnail_key (id thumbFile : string) : string :=
  "thumbnails/" ++ id ++ "/" ++ thumbFile.

(** Metadata extraction, thumbnail generation, the upload of the video
    and the upload of every thumbnail all succeeded. *)
Definition steps_ok (env : Env) (id : string) : bool :=
  is_ok (ffprobe env)
  && is_ok (ffmpeg_end env)
  && is_ok (store_put env (video_key id))
  && forallb (fun f => is_ok (store_put env (thumbnail_key id f))) (thumbnail_files env).

(** The save itself goes through: the probe gave the duration the schema
    requires, the [videoId] is not empty, the database takes the write,
    and the [videoId] is new. *)
Definition save_ok (env : Env) (w : World) (id : string) : bool :=
  match ffprobe env with
  | Ok (Some _) => JS.truthy id && is_ok (db_save env) && bool_decide (db w !! id = None)
  | _ => false
  end.

(** The document an ingestion commits. *)
Definition committed (env : Env) (id ttl : string) (descr : option string)
    (d : QArith_base.Q) : Video :=
  {| videoId := id; title := ttl;
     description := or_empty descr;
     filename := id ++ ".mp4"; duration := d;
     thumbnailCount := Z.of_nat (length (thumbnail_files env));
     views := 0; createdAt := now env |}.

(** The calls that sent objects to the store, in order. *)
Fixpoint put_calls (l : list Event) : list PutCall :=
  match l with
  | [] => []
  | EvPut _ _ call :: l' => call :: put_calls l'
  | _ :: l' => put_calls l'
  end.

(** The multipart upload of the claim: parts of 100 MB, four in flight,
    progress reported. *)
Definition multipart_100MB : PutCall := S3Upload (100 * 1024 * 1024) 4 true.

(** As [respects], for the runs that return. *)
Definition respects_ok {S A : Type} (R : S -> S -> Prop) (m : M S A) : Prop :=
  forall s a s', m s = (Ok a, s') -> R s s'.

(** The log grew and its last event is the response [r]. *)
Definition responded (r : Response) (w w' : World) : Prop :=
  exists evs, log w' = (log w ++ evs ++ [EvRespond r])%list.

Definition uploaded_200 (w w' : World) : Prop :=
  exists video, responded (json 200 (BUploaded video)) w w'.

(** A video of 200 MB, within the 500 MB the MinIO server accepts. *)
Definition big_form : UploadForm :=
  {| form_video := Some (200 * 1024 * 1024); form_title := Some "Big";
     form_description := None |}.

(** * More of the servers and of the pages *)

(** ** The bytes a range request is served *)

(** The chunks of a stream that begin at an offset at or after [start]
    and before [end_], the first chunk of the list beginning at
    [offset]. *)
Fixpoint chunks_in_window (start end_ offset : Z) (chunks : list (list Byte.byte))
  : list Byte.byte :=
  match chunks with
  | [] => []
  | chunk :: chunks' =>
      ((if (start <=? offset) && (offset <? end_) then chunk else [])
       ++ chunks_in_window start end_ (offset + Z.of_nat (length chunk)) chunks')%list
  end.


(** ** The files ffmpeg is asked for *)

(** [filename: 'thumb_%i.jpg']: the name of the screenshot of index [i],
    counted from 0 here and from 1 by ffmpeg. *)
Definition thumb_name (i : nat) : string :=
  "thumb_" ++ JS.Z_toString (Z.of_nat i + 1) ++ ".jpg".

(** ** The bucket of the MinIO server *)

(** A statement of a bucket policy, and the policy document that
    [setBucketPolicy] is given as JSON. *)
Record PolicyStatement : Type := mkPolicyStatement {
  Effect : string;
  Principal_AWS : list string;
  Action : list string;
  Resource : list string
}.

Record Policy : Type := mkPolicy {
  Version : string;
  Statement : list PolicyStatement
}.

(** Whether each call of [ensureBucket] reaches the store and is
    accepted. *)
Record BucketEnv : Type := mkBucketEnv {
  bucketExists_call : Result unit;
  makeBucket_call : Result unit;
  setBucketPolicy_call : Result unit
}.

Definition public_read_policy (BUCKET_NAME : string) : Policy :=
  {| Version := "2012-10-17";
     Statement :=
       [ {| Effect := "Allow";
            Principal_AWS := ["*"];
            Action := ["s3:GetObject"];
            Resource := ["arn:aws:s3:::" ++ BUCKET_NAME ++ "/*"] |} ] |}.

(** [ensureBucket], run once when the server starts, on the buckets of
    the store: each with the policy it was given, if any.  What is
    logged to the console is left out. *)
Definition ensureBucket (benv : BucketEnv) (BUCKET_NAME : string)
  : M (gmap string (option Policy)) unit :=
  try_catch
    (await (bucketExists_call benv) ;;
     exists_ <- gets (fun b : gmap string (option Policy) =>
                        bool_decide (is_Some (b !! BUCKET_NAME))) ;;
     if negb exists_ then
       await (makeBucket_call benv) ;;
       modify (fun b : gmap string (option Policy) => <[BUCKET_NAME := None]> b) ;;
       await (setBucketPolicy_call benv) ;;
       modify (fun b : gmap string (option Policy) =>
                 <[BUCKET_NAME := Some (public_read_policy BUCKET_NAME)]> b)
     else ret tt)
    (fun _ => ret tt).

(** The buckets after the server has started once for each element of
    [starts], in order. *)
Definition restarts (starts : list BucketEnv) (BUCKET_NAME : string)
    (b : gmap string (option Policy)) : gmap string (option Policy) :=
  fold_left (fun b benv => snd (ensureBucket benv BUCKET_NAME b)) starts b.

(** ** The urls of stored objects *)

(** The variables of [process.env] the two servers build urls from; a
    variable that is not set is [None]. *)
Record ProcessEnv : Type := mkProcessEnv {
  MINIO_ENDPOINT : option string;
  MINIO_PORT : option string;
  MINIO_USE_SSL : option string;
  MINIO_PUBLIC_URL : option string;
  MINIO_BUCKET : option string;
  R2_PUBLIC_URL : option string
}.

(** [process.env.X || d]: an empty value counts as not set. *)
Definition or_default (x : option string) (d : string) : string :=
  match x with
  | Some s => if JS.truthy s then s else d
  | None => d
  end.

(** [if (process.env.X)], and the text of [X] in a template. *)
Definition is_set (x : option string) : bool :=
  match x with
  | Some s => JS.truthy s
  | None => false
  end.

Definition text_of (x : option string) : string :=
  match x with
  | Some s => s
  | None => "undefined"
  end.

(** [getMinioUrl]. *)
Definition getMinioUrl (penv : ProcessEnv) (objectName : string) : string :=
  let BUCKET_NAME := or_default (MINIO_BUCKET penv) "videotube" in
  let endpoint := or_default (MINIO_ENDPOINT penv) "localhost" in
  let port := or_default (MINIO_PORT penv) "9000" in
  let useSSL := bool_decide (MINIO_USE_SSL penv = Some "true") in
  let protocol := if useSSL then "https" else "http" in
  if is_set (MINIO_PUBLIC_URL penv) then
    text_of (MINIO_PUBLIC_URL penv) ++ "/" ++ BUCKET_NAME ++ "/" ++ objectName
  else
    protocol ++ "://" ++ endpoint ++ ":" ++ port ++ "/" ++ BUCKET_NAME ++ "/" ++ objectName.

(** [getR2Url]. *)
Definition getR2Url (penv : ProcessEnv) (key : string) : string :=
  if is_set (R2_PUBLIC_URL penv) then
    text_of (R2_PUBLIC_URL penv) ++ "/" ++ key
  else
    "/api/media/" ++ encodeURIComponent key.

(** The two servers as configured by [process.env]. *)
Definition minio_at (penv : ProcessEnv) : Server :=
  {| variant := Minio; resolve_url := getMinioUrl penv |}.

Definition r2_at (penv : ProcessEnv) : Server :=
  {| variant := R2; resolve_url := getR2Url penv |}.

(** ** The pages *)

From Stdlib Require Qround.

(** [formatDuration], the same function on both pages.  A duration is a
    number of seconds with a fraction, taken as an exact rational. *)
Module Page.

(** [Math.trunc]. *)
Definition trunc (x : QArith_base.Q) : Z :=
  if QArith_base.Qle_bool (QArith_base.inject_Z 0) x
  then Qround.Qfloor x else Qround.Qceiling x.

(** [x / d] and [x % d] for a whole divisor; the remainder has the sign
    of [x]. *)
Definition div (x : QArith_base.Q) (d : Z) : QArith_base.Q :=
  QArith_base.Qdiv x (QArith_base.inject_Z d).

Definition rem (x : QArith_base.Q) (d : Z) : QArith_base.Q :=
  QArith_base.Qminus x (QArith_base.inject_Z (d * trunc (div x d))).

(** [s.padStart(targetLength, c)] for a pad string of one character. *)
Definition padStart (s : string) (targetLength : nat) (c : ascii) : string :=
  string_of_list_ascii (repeat c (targetLength - String.length s)) ++ s.

Definition formatDuration (seconds : QArith_base.Q) : string :=
  let h := Qround.Qfloor (div seconds 3600) in
  let m := Qround.Qfloor (div (rem seconds 3600) 60) in
  let s := Qround.Qfloor (rem seconds 60) in
  if 0 <? h then
    JS.Z_toString h ++ ":" ++ padStart (JS.Z_toString m) 2 "0"
      ++ ":" ++ padStart (JS.Z_toString s) 2 "0"
  else
    JS.Z_toString m ++ ":" ++ padStart (JS.Z_toString s) 2 "0".

End Page.

(** *** The index page (main.js) *)

Module Index.

(** [Math.floor(x / d)] for a whole [x] and [d > 0]. *)
Definition floor_div (x : JS.jsnum) (d : Z) : JS.jsnum :=
  match x with
  | JS.NaN => JS.NaN
  | JS.Num z => JS.Num (z / d)
  end.

(** [x === k]. *)
Definition strict_eq (x : JS.jsnum) (k : Z) : bool :=
  match x with
  | JS.NaN => false
  | JS.Num z => z =? k
  end.

(** [formatDate]: [now] is the time value of [new Date()], [date] that
    of [new Date(dateString)], NaN for a string that is no date. *)
Definition formatDate (now : Z) (date : JS.jsnum) : string :=
  let diff := JS.sub (JS.Num now) date in
  let days := floor_div diff (1000 * 60 * 60 * 24) in
  if strict_eq days 0 then "Today"
  else if strict_eq days 1 then "Yesterday"
  else if JS.lt days (JS.Num 7) then JS.toString days ++ " days ago"
  else if JS.lt days (JS.Num 30) then JS.toString (floor_div days 7) ++ " weeks ago"
  else if JS.lt days (JS.Num 365) then JS.toString (floor_div days 30) ++ " months ago"
  else JS.toString (floor_div days 365) ++ " years ago".

(** A running interval of [startThumbnailPreview]: the card it
    animates, its thumbnails and its [currentIndex]. *)
Record Interval : Type := mkInterval {
  card : string;
  thumbnails : list string;
  currentIndex : nat
}.

(** The page: [currentThumbnailIntervals], the intervals the window
    runs by their id, the id [setInterval] gives next, and the [src] of
    the image of each card. *)
Record Grid : Type := mkGrid {
  currentThumbnailIntervals : gmap string positive;
  running : gmap positive Interval;
  next_id : positive;
  src : gmap string string
}.

Definition startThumbnailPreview (videoId : string) (thumbs : list string) (g : Grid) : Grid :=
  match thumbs with
  | [] => g
  | _ :: _ =>
      {| currentThumbnailIntervals := <[videoId := next_id g]> (currentThumbnailIntervals g);
         running := <[next_id g := {| card := videoId; thumbnails := thumbs;
                                      currentIndex := 0 |}]> (running g);
         next_id := Pos.succ (next_id g);
         src := src g |}
  end.

(** The callback of the interval [id] fires. *)
Definition tick (id : positive) (g : Grid) : Grid :=
  match running g !! id with
  | None => g
  | Some i =>
      let currentIndex' := ((currentIndex i + 1) mod length (thumbnails i))%nat in
      {| currentThumbnailIntervals := currentThumbnailIntervals g;
         running := <[id := {| card := card i; thumbnails := thumbnails i;
                               currentIndex := currentIndex' |}]> (running g);
         next_id := next_id g;
         src := <[card i := nth currentIndex' (thumbnails i) EmptyString]> (src g) |}
  end.

Definition stopThumbnailPreview (videoId firstThumbnail : string) (g : Grid) : Grid :=
  let g1 :=
    match currentThumbnailIntervals g !! videoId with
    | Some id =>
        {| currentThumbnailIntervals := delete videoId (currentThumbnailIntervals g);
           running := delete id (running g);
           next_id := next_id g;
           src := src g |}
    | None => g
    end in
  if JS.truthy firstThumbnail then
    {| currentThumbnailIntervals := currentThumbnailIntervals g1;
       running := running g1;
       next_id := next_id g1;
       src := <[videoId := firstThumbnail]> (src g1) |}
  else g1.

End Index.

(** *** The watch page (watch.js) *)

(** A value of a field of the JSON of a record. *)
Inductive Json : Type :=
| JString (s : string)
| JNumber (q : QArith_base.Q)
| JInteger (z : Z)
| JDate (time : Z)                 (* a date, sent as its ISO string *)
| JStrings (l : list string).

(** [{ ...video.toObject(), thumbnails }], the [video] of the answer to
    GET /api/videos/:videoId: the paths of the schema under their names,
    [_id] and [__v], which mongoose adds, and [thumbnails]. *)
Definition video_json (oid : string) (version : Z) (video : Video) (thumbs : list string)
  : list (string * Json) :=
  [ ("_id", JString oid);
    ("videoId", JString (videoId video));
    ("title", JString (title video));
    ("description", JString (description video));
    ("filename", JString (filename video));
    ("duration", JNumber (duration video));
    ("thumbnailCount", JInteger (thumbnailCount video));
    ("views", JInteger (views video));
    ("createdAt", JDate (createdAt video));
    ("__v", JInteger version);
    ("thumbnails", JStrings thumbs) ].

(** [o.k] or [o[k]]: [None] is [undefined]. *)
Fixpoint field (o : list (string * Json)) (k : string) : option Json :=
  match o with
  | [] => None
  | (k', v) :: o' => if String.eqb k' k then Some v else field o' k
  end.

Module Watch.

Section Dates.

(** [Date.parse] of a string that is no ISO string of a date the server
    sent, and [toLocaleDateString('en-US', ...)] of a valid date: both
    are the browser's. *)
Variable Date_parse : string -> JS.jsnum.
Variable toLocaleDateString : Z -> string.

(** The time value of [new Date(x)]. *)
Definition new_Date (x : option Json) : JS.jsnum :=
  match x with
  | None => JS.NaN
  | Some (JDate time) => JS.Num time
  | Some (JInteger z) => JS.Num z
  | Some (JNumber q) => JS.Num (Page.trunc q)
  | Some (JString s) => Date_parse s
  | Some (JStrings l) => Date_parse (String.concat "," l)
  end.

Definition formatDate (dateString : option Json) : string :=
  match new_Date dateString with
  | JS.NaN => "Invalid Date"
  | JS.Num time => toLocaleDateString time
  end.

(** The date [loadVideo] writes under the title. *)
Definition shown_date (video : list (string * Json)) : string :=
  formatDate (field video "created_at").

End Dates.

End Watch.
(** * Properties *)

(** ** The JavaScript primitives on examples *)

Example parseInt_ex1 : JS.parseInt "100" = JS.Num 100.
Proof. reflexivity. Qed.
Example parseInt_ex2 : JS.parseInt "abc" = JS.NaN.
Proof. reflexivity. Qed.
Example parseInt_ex3 : JS.parseInt "  12px" = JS.Num 12.
Proof. reflexivity. Qed.
Example split_ex1 : JS.split "-" (JS.remove_first "bytes=" "bytes=100-199") = ["100"; "199"].
Proof. reflexivity. Qed.
Example split_ex2 : JS.split "-" (JS.remove_first "bytes=" "bytes=100-") = ["100"; EmptyString].
Proof. reflexivity. Qed.
Example toString_ex : JS.toString (JS.Num 1000) = "1000" /\ JS.toString (JS.Num (-5)) = "-5".
Proof. split; reflexivity. Qed.
Example sort_ex : JS.sort ["thumb_2.jpg"; "thumb_10.jpg"; "thumb_1.jpg"] = ["thumb_1.jpg"; "thumb_10.jpg"; "thumb_2.jpg"].
Proof. reflexivity. Qed.
Example endsWith_ex : JS.endsWith "thumb_1.jpg" ".jpg" = true /\ JS.endsWith "jpg" ".jpg" = false.
Proof. split; reflexivity. Qed.

(** ** Decimal numerals and [parseInt] *)

Section Numerals.

Import Decimal.

Lemma horner_pos d : forall a, horner d (Zpos a) = Zpos (Pos.of_uint_acc d a).
Proof.
  induction d; intros a; simpl; try reflexivity;
    rewrite <- IHd; f_equal; lia.
Qed.

Lemma horner_zero d : horner d 0 = Z.of_N (Pos.of_uint d).
Proof.
  induction d; simpl; try reflexivity; try assumption;
    match goal with
    | |- horner _ ?k = _ => change k with (Zpos (Z.to_pos k)); apply horner_pos
    end.
Qed.

Lemma horner_to_uint p : horner (Pos.to_uint p) 0 = Zpos p.
Proof. rewrite horner_zero, DecimalPos.Unsigned.of_to. reflexivity. Qed.

Lemma digits_acc_stops rest acc : stops rest -> JS.digits_acc rest acc = acc.
Proof. destruct rest; simpl; [reflexivity | intros ->; reflexivity]. Qed.

Lemma digits_acc_numeral d : forall a rest,
  JS.digits_acc (NilEmpty.string_of_uint d ++ rest) (Some a)
  = JS.digits_acc rest (Some (horner d a)).
Proof.
  induction d; intros a rest; simpl; try reflexivity; apply IHd.
Qed.

Lemma parseInt_numeral d rest :
  d <> Nil -> stops rest ->
  JS.parseInt (NilEmpty.string_of_uint d ++ rest) = JS.Num (horner d 0).
Proof.
  intros Hd Hrest.
  destruct d; try congruence; unfold JS.parseInt; simpl;
    rewrite digits_acc_numeral, (digits_acc_stops _ _ Hrest), Z.mul_1_l;
    reflexivity.
Qed.

Lemma parseInt_toString n rest :
  0 <= n -> stops rest -> JS.parseInt (JS.Z_toString n ++ rest) = JS.Num n.
Proof.
  intros Hn Hrest. destruct n as [|p|p]; [| | lia].
  - unfold JS.parseInt. simpl. rewrite (digits_acc_stops _ _ Hrest). reflexivity.
  - unfold JS.Z_toString, NilZero.string_of_uint.
    pose proof (DecimalPos.Unsigned.to_uint_nonnil p) as Hnil.
    destruct (Pos.to_uint p) eqn:E; try congruence;
      rewrite <- E in *; rewrite parseInt_numeral by assumption;
      rewrite horner_to_uint; reflexivity.
Qed.

Lemma numeral_no_dash d : contains "-" (NilEmpty.string_of_uint d) = false.
Proof. induction d; simpl; auto. Qed.

Lemma toString_no_dash n : 0 <= n -> contains "-" (JS.Z_toString n) = false.
Proof.
  intros Hn. destruct n as [|p|p]; [reflexivity | | lia].
  unfold JS.Z_toString, NilZero.string_of_uint.
  destruct (Pos.to_uint p) eqn:E; try reflexivity; rewrite <- E; apply numeral_no_dash.
Qed.

Lemma toString_truthy n : JS.truthy (JS.Z_toString n) = true.
Proof.
  destruct n as [|p|p]; try reflexivity.
  unfold JS.Z_toString, NilZero.string_of_uint.
  destruct (Pos.to_uint p); reflexivity.
Qed.

End Numerals.

(** ** Splitting a range header *)

Lemma append_empty_r (s : string) : s ++ EmptyString = s.
Proof. induction s as [|c s IH]; [reflexivity |]. rewrite <- IH at 2. reflexivity. Qed.

Lemma split_nonempty sep s : JS.split sep s <> [].
Proof.
  induction s as [|c s IH]; simpl; [discriminate |].
  destruct (Ascii.eqb c sep); [discriminate |].
  destruct (JS.split sep s); [contradiction | discriminate].
Qed.

Lemma split_at_first sep s t :
  contains sep s = false ->
  JS.split sep (s ++ String sep t) = s :: JS.split sep t.
Proof.
  induction s as [|c s IH]; simpl; intros H.
  - rewrite Ascii.eqb_refl. reflexivity.
  - apply orb_false_iff in H as [Hc Hs]. rewrite Hc, (IH Hs). reflexivity.
Qed.

Lemma range_header_parts start end_ :
  0 <= start ->
  JS.split "-" (JS.remove_first "bytes=" (range_header start end_))
  = JS.Z_toString start
    :: JS.split "-" (match end_ with Some e => JS.Z_toString e | None => EmptyString end).
Proof.
  intros Hs. unfold range_header.
  change (JS.remove_first "bytes=" ("bytes=" ++ ?x)) with x.
  apply (split_at_first "-"), toString_no_dash, Hs.
Qed.

Lemma range_start_header start end_ :
  0 <= start -> range_start (range_header start end_) = JS.Num start.
Proof.
  intros Hs. unfold range_start. rewrite range_header_parts by assumption. simpl.
  rewrite <- (append_empty_r (JS.Z_toString start)).
  apply parseInt_toString; simpl; auto.
Qed.

Lemma range_end_header start end_ fileSize :
  0 <= start -> 0 <= end_ ->
  range_end (range_header start (Some end_)) fileSize = JS.Num end_.
Proof.
  intros Hs He. unfold range_end. rewrite range_header_parts by assumption.
  assert (Hsplit : JS.split "-" (JS.Z_toString end_) = [JS.Z_toString end_]).
  { pose proof (toString_no_dash end_ He) as Hd.
    induction (JS.Z_toString end_) as [|c s IH]; simpl in *; [reflexivity |].
    apply orb_false_iff in Hd as [Hc Hd]. rewrite Hc, (IH Hd). reflexivity. }
  rewrite Hsplit. simpl. rewrite toString_truthy.
  rewrite <- (append_empty_r (JS.Z_toString end_)).
  apply parseInt_toString; simpl; auto.
Qed.

Lemma range_end_omitted start fileSize :
  0 <= start ->
  range_end (range_header start None) fileSize = JS.Num (fileSize - 1).
Proof.
  intros Hs. unfold range_end. rewrite range_header_parts by assumption. reflexivity.
Qed.

Lemma range_header_truthy start end_ : JS.truthy (range_header start end_) = true.
Proof. reflexivity. Qed.

(** ** The ['data'] listener *)

Lemma window_empty_nan_start end_ : window_empty JS.NaN end_.
Proof. intros o. reflexivity. Qed.

Lemma window_empty_nan_end start : window_empty start JS.NaN.
Proof. intros o. destruct start; simpl; [reflexivity | apply andb_false_r]. Qed.

Lemma window_empty_le s e : e <= s -> window_empty (JS.Num s) (JS.Num e).
Proof.
  intros H o. simpl.
  destruct (Z.leb_spec s o), (Z.ltb_spec o e); simpl; auto; lia.
Qed.

(** With an empty window nothing is ever written. *)
Lemma pump_window_empty start end_ chunks :
  window_empty start end_ ->
  forall p, written (pump start end_ chunks p) = written p.
Proof.
  intros Hw. induction chunks as [|c cs IH]; intros p; [reflexivity |].
  cbn [pump].
  assert (Hstep : written (on_data start end_ c p) = written p).
  { unfold on_data; cbn [written]. rewrite Hw. reflexivity. }
  destruct (ended (on_data start end_ c p)); [exact Hstep |].
  rewrite IH. exact Hstep.
Qed.

(** A start at or past the last byte the stream delivers: nothing is
    written either (a chunk at such an offset is empty). *)
Lemma pump_start_past_data s end_ chunks :
  forall p,
  bytesRead p + Z.of_nat (length (concat chunks)) <= s ->
  written (pump (JS.Num s) end_ chunks p) = written p.
Proof.
  induction chunks as [|c cs IH]; intros p Hp; [reflexivity |].
  cbn [pump]. simpl in Hp. rewrite length_app in Hp.
  assert (Hw : written (on_data (JS.Num s) end_ c p) = written p).
  { unfold on_data; simpl.
    destruct (Z.leb_spec s (bytesRead p)); simpl; [| reflexivity].
    destruct c; [| simpl in Hp; lia].
    rewrite app_nil_r. destruct end_ as [|e]; [| destruct (bytesRead p <? e)]; reflexivity. }
  destruct (ended (on_data (JS.Num s) end_ c p)); [exact Hw |].
  rewrite IH; [exact Hw |]. simpl. lia.
Qed.

Lemma streamed_malformed start end_ chunks size :
  malformed start end_ size ->
  Z.of_nat (length (concat chunks)) = size ->
  streamed start end_ chunks = [].
Proof.
  intros Hm Hlen. unfold streamed.
  destruct start as [|s]; [apply pump_window_empty, window_empty_nan_start |].
  destruct end_ as [|e]; [apply pump_window_empty, window_empty_nan_end |].
  destruct Hm as [H | H].
  - apply pump_window_empty, window_empty_le. lia.
  - apply pump_start_past_data. simpl. lia.
Qed.

(** ** Running the stream handler *)

Lemma response_logged w r :
  last_response (skipn (length (log w)) (log (logged (EvRespond r) w))) = Some r.
Proof. simpl. rewrite drop_app_length. reflexivity. Qed.

(** With the record found and the object in the store, a request with a
    range header is answered 206 with the parsed bounds, whatever they
    are. *)
Lemma stream_minio_range env id range w video size chunks :
  db_find env = Ok tt ->
  db w !! id = Some video ->
  store_stat env = Ok size ->
  store_get env = Ok chunks ->
  JS.truthy range = true ->
  stream_minio env id (Some range) w
  = (Ok tt,
     logged (EvRespond
       {| status := 206;
          headers := partial_headers (range_start range) (range_end range size) size;
          body := BBytes (streamed (range_start range) (range_end range size) chunks) |}) w).
Proof.
  intros Hfind Hrec Hstat Hget Htruthy.
  cbv beta iota delta [stream_minio try_catch bind Video_findOne statObject getObject
    await gets respond emit modify range_given].
  rewrite Hfind; cbv beta iota. rewrite Hrec; cbv beta iota.
  rewrite Hstat; cbv beta iota. rewrite Htruthy; cbv beta iota.
  rewrite Hget; cbv beta iota. reflexivity.
Qed.

Lemma stream_minio_range_response srv env id range w video size chunks :
  variant srv = Minio ->
  db_find env = Ok tt ->
  db w !! id = Some video ->
  store_stat env = Ok size ->
  store_get env = Ok chunks ->
  JS.truthy range = true ->
  response_to srv env (GetStream id (Some range)) w
  = Some {| status := 206;
            headers := partial_headers (range_start range) (range_end range size) size;
            body := BBytes (streamed (range_start range) (range_end range size) chunks) |}.
Proof.
  intros Hv Hfind Hrec Hstat Hget Htruthy.
  unfold response_to, after, handle, get_stream. rewrite Hv.
  rewrite (stream_minio_range env id range w video size chunks) by assumption.
  apply response_logged.
Qed.

(** ** Claims on the range responder *)

(** C1, on the failing input of the claim.  The second scenario of the
    specification: an object of 1000 bytes, which the store delivers as
    one chunk, requested with [Range: bytes=100-199].  The status and the
    headers are those of the claim, but the chunk starts at offset 0,
    before [start], so the listener writes nothing: the body is empty
    where the claim has the 100 bytes of the slice. *)
Theorem stream_range_100_199_writes_nothing :
  response_to minio_server demo_env
    (GetStream "abc" (Some (range_header 100 (Some 199)))) demo_world
  = Some {| status := 206;
            headers := [("Content-Range", "bytes 100-199/1000");
                        ("Accept-Ranges", "bytes");
                        ("Content-Length", "100");
                        ("Content-Type", "video/mp4")];
            body := BBytes [] |}
  /\ length (slice 100 199 demo_object) = 100%nat
  /\ delivers [demo_object] demo_object.
Proof. vm_compute. auto. Qed.

(** The window of the listener excludes [end_]: a range of one byte is
    answered with no byte, however the store cuts the object. *)
Lemma streamed_one_byte_range n chunks : streamed (JS.Num n) (JS.Num n) chunks = [].
Proof. apply pump_window_empty, window_empty_le. lia. Qed.

(** An object that arrives as one chunk is written whole when the range
    starts at 0 and not at all otherwise. *)
Lemma streamed_single_chunk s e chunk :
  streamed (JS.Num s) (JS.Num e) [chunk] = if (s <=? 0) && (0 <? e) then chunk else [].
Proof.
  unfold streamed, pump, on_data. simpl.
  destruct (e <=? _); simpl; destruct ((s <=? 0) && (0 <? e)); reflexivity.
Qed.

(** Even a store that delivers byte by byte loses the last byte of
    the range. *)
Example streamed_bytewise_drops_last :
  streamed (JS.Num 1) (JS.Num 3) [[Byte.x00]; [Byte.x01]; [Byte.x02]; [Byte.x03]; [Byte.x04]]
  = [Byte.x01; Byte.x02].
Proof. reflexivity. Qed.

(** When a chunk happens to start at [start] and to end at [end_], the
    body is the slice. *)
Example streamed_aligned_chunk :
  streamed (JS.Num 1) (JS.Num 3) [[Byte.x00]; [Byte.x01; Byte.x02; Byte.x03]; [Byte.x04]]
  = [Byte.x01; Byte.x02; Byte.x03].
Proof. reflexivity. Qed.

(** C7, on the failing input of the claim.  The same object and delivery
    with [Range: bytes=100-]: the end defaults to [size - 1 = 999], as
    the headers show, but no byte is served where the claim has bytes
    100 to 999. *)
Theorem stream_open_range_writes_nothing :
  range_end (range_header 100 None) 1000 = JS.Num 999
  /\ response_to minio_server demo_env
       (GetStream "abc" (Some (range_header 100 None))) demo_world
     = Some {| status := 206;
               headers := [("Content-Range", "bytes 100-999/1000");
                           ("Accept-Ranges", "bytes");
                           ("Content-Length", "900");
                           ("Content-Type", "video/mp4")];
               body := BBytes [] |}
  /\ length (slice 100 999 demo_object) = 900%nat.
Proof. vm_compute. auto. Qed.

(** C6 as stated fails, twice.  [Range: bytes=abc-def] is answered 206,
    which is no client error, with [NaN] in the headers.  And
    [Range: bytes=0abc-999], whose start is no numeral either, is not
    even left without a body: [parseInt] reads the [0] and ignores the
    rest, and the whole object of 1000 bytes is written. *)
Lemma malformed_range_not_rejected :
  (exists r,
     response_to minio_server demo_env (GetStream "abc" (Some "bytes=abc-def")) demo_world
     = Some r
     /\ numeral "abc" = false
     /\ malformed (range_start "bytes=abc-def") (range_end "bytes=abc-def" 1000) 1000
     /\ status r = 206
     /\ ~ is_client_error r
     /\ headers r = [("Content-Range", "bytes NaN-NaN/1000");
                     ("Accept-Ranges", "bytes");
                     ("Content-Length", "NaN");
                     ("Content-Type", "video/mp4")])
  /\ (exists r,
        response_to minio_server demo_env (GetStream "abc" (Some "bytes=0abc-999")) demo_world
        = Some r
        /\ numeral "0abc" = false
        /\ status r = 206
        /\ ~ is_client_error r
        /\ body r = BBytes demo_object
        /\ length demo_object = 1000%nat).
Proof.
  split.
  - eexists. split; [vm_compute; reflexivity |].
    split; [reflexivity |]. split; [exact I |]. split; [reflexivity |].
    split; [unfold is_client_error; simpl; lia | reflexivity].
  - eexists. split; [vm_compute; reflexivity |].
    split; [reflexivity |]. split; [reflexivity |].
    split; [unfold is_client_error; simpl; lia |].
    split; [reflexivity | vm_compute; reflexivity].
Qed.

(** C6, amended.  The endpoint validates nothing.  For every range
    header, whatever its text, on a record that exists and an object the
    store delivers whole, the answer is 206, never a client error, with
    the headers built from the bounds as [parseInt] reads them (the
    leading digits of each, NaN when there is none) and with the chunks
    the listener lets through as body.  No body byte is written when the
    parsed bounds are malformed: a bound that is NaN, a start after the
    end, a start at or past the size.  The numbers are integers
    JavaScript represents exactly. *)
Theorem malformed_range_answered_206_without_body
    srv env id range w video size chunks :
  variant srv = Minio ->
  db_find env = Ok tt ->
  db w !! id = Some video ->
  store_stat env = Ok size ->
  store_get env = Ok chunks ->
  Z.of_nat (length (concat chunks)) = size ->
  JS.truthy range = true ->
  exactly_modelled (range_start range) (range_end range size) size ->
  exists r,
    response_to srv env (GetStream id (Some range)) w = Some r
    /\ status r = 206
    /\ ~ is_client_error r
    /\ headers r = partial_headers (range_start range) (range_end range size) size
    /\ body r = BBytes (streamed (range_start range) (range_end range size) chunks)
    /\ (malformed (range_start range) (range_end range size) size -> body r = BBytes []).
Proof.
  intros Hv Hfind Hrec Hstat Hget Hlen Htruthy _.
  eexists. split.
  - apply (stream_minio_range_response srv env id range w video size chunks); assumption.
  - simpl. split; [reflexivity |]. split; [unfold is_client_error; simpl; lia |].
    split; [reflexivity |]. split; [reflexivity |].
    intros Hmal. rewrite (streamed_malformed _ _ _ size Hmal Hlen). reflexivity.
Qed.

Lemma malformed_range_answered_206_without_body_witness :
  exists r,
    response_to minio_server demo_env (GetStream "abc" (Some "bytes=500-20")) demo_world
    = Some r
    /\ status r = 206
    /\ ~ is_client_error r
    /\ headers r = partial_headers (range_start "bytes=500-20")
                     (range_end "bytes=500-20" 1000) 1000
    /\ body r = BBytes (streamed (range_start "bytes=500-20")
                          (range_end "bytes=500-20" 1000) [demo_object])
    /\ (malformed (range_start "bytes=500-20") (range_end "bytes=500-20" 1000) 1000 ->
        body r = BBytes []).
Proof.
  apply (malformed_range_answered_206_without_body
           minio_server demo_env "abc" "bytes=500-20" demo_world demo_video 1000
           [demo_object]).
  - reflexivity.
  - reflexivity.
  - vm_compute; reflexivity.
  - reflexivity.
  - reflexivity.
  - vm_compute; reflexivity.
  - reflexivity.
  - unfold exactly_modelled, JS.MAX_SAFE_INTEGER.
    change (range_start "bytes=500-20") with (JS.Num 500).
    change (range_end "bytes=500-20" 1000) with (JS.Num 20).
    unfold JS.safe, JS.sub, JS.add, JS.MAX_SAFE_INTEGER. lia.
Defined.

(** C10.  A numeric range whose start is inside the object and whose end
    is at or past its size is answered 206 with the end as the client
    sent it: [Content-Range: bytes start-end/size] and
    [Content-Length: end - start + 1], more than the [size - start] bytes
    the object has from [start] on.  The bounds are integers JavaScript
    represents exactly. *)
Theorem range_end_is_not_clamped srv env id w video size chunks start end_ :
  variant srv = Minio ->
  db_find env = Ok tt ->
  db w !! id = Some video ->
  store_stat env = Ok size ->
  store_get env = Ok chunks ->
  0 <= start < size ->
  size <= end_ <= JS.MAX_SAFE_INTEGER ->
  exists bytes,
    response_to srv env (GetStream id (Some (range_header start (Some end_)))) w
    = Some {| status := 206;
              headers :=
                [("Content-Range",
                  "bytes " ++ JS.Z_toString start ++ "-" ++ JS.Z_toString end_
                  ++ "/" ++ JS.Z_toString size);
                 ("Accept-Ranges", "bytes");
                 ("Content-Length", JS.Z_toString (end_ - start + 1));
                 ("Content-Type", "video/mp4")];
              body := BBytes bytes |}
    /\ size - start < end_ - start + 1.
Proof.
  intros Hv Hfind Hrec Hstat Hget Hs He.
  eexists. split; [| lia].
  rewrite (stream_minio_range_response srv env id _ w video size chunks)
    by (assumption || apply range_header_truthy).
  unfold partial_headers.
  rewrite range_start_header, range_end_header by lia.
  reflexivity.
Qed.

Lemma range_end_is_not_clamped_witness :
  exists bytes,
    response_to minio_server demo_env
      (GetStream "abc" (Some (range_header 900 (Some 5000)))) demo_world
    = Some {| status := 206;
              headers :=
                [("Content-Range",
                  "bytes " ++ JS.Z_toString 900 ++ "-" ++ JS.Z_toString 5000
                  ++ "/" ++ JS.Z_toString 1000);
                 ("Accept-Ranges", "bytes");
                 ("Content-Length", JS.Z_toString (5000 - 900 + 1));
                 ("Content-Type", "video/mp4")];
              body := BBytes bytes |}
    /\ 1000 - 900 < 5000 - 900 + 1.
Proof.
  apply (range_end_is_not_clamped minio_server demo_env "abc" demo_world demo_video
           1000 [demo_object] 900 5000).
  - reflexivity.
  - reflexivity.
  - vm_compute; reflexivity.
  - reflexivity.
  - reflexivity.
  - lia.
  - unfold JS.MAX_SAFE_INTEGER. lia.
Defined.

(** ** Combinators and relations *)

Lemma bind_ok_inv {S A B} (m : M S A) (k : A -> M S B) s b s' :
  bind m k s = (Ok b, s') ->
  exists a s1, m s = (Ok a, s1) /\ k a s1 = (Ok b, s').
Proof.
  unfold bind. destruct (m s) as [[a | e] s1]; intros H; [eauto | discriminate].
Qed.

Lemma bind_throw_inv {S A B} (m : M S A) (k : A -> M S B) s e s' :
  bind m k s = (Throw e, s') ->
  m s = (Throw e, s') \/ exists a s1, m s = (Ok a, s1) /\ k a s1 = (Throw e, s').
Proof.
  unfold bind. destruct (m s) as [[a | e1] s1]; intros H; [eauto |].
  left. congruence.
Qed.

Section Respects.

Context {S : Type} (R : S -> S -> Prop).
Hypothesis R_refl : forall s, R s s.
Hypothesis R_trans : forall s1 s2 s3, R s1 s2 -> R s2 s3 -> R s1 s3.

Lemma respects_ret {A} (a : A) : respects R (ret a).
Proof. intros s r s' [= _ <-]. apply R_refl. Qed.

Lemma respects_throw {A} e : respects R (throw (A := A) e).
Proof. intros s r s' [= _ <-]. apply R_refl. Qed.

Lemma respects_await {A} (x : Result A) : respects R (await x).
Proof. intros s r s' [= _ <-]. apply R_refl. Qed.

Lemma respects_gets {A} (f : S -> A) : respects R (gets f).
Proof. intros s r s' [= _ <-]. apply R_refl. Qed.

Lemma respects_modify (f : S -> S) : (forall s, R s (f s)) -> respects R (modify f).
Proof. intros Hf s r s' [= _ <-]. apply Hf. Qed.

Lemma respects_bind {A B} (m : M S A) (k : A -> M S B) :
  respects R m -> (forall a, respects R (k a)) -> respects R (bind m k).
Proof.
  intros Hm Hk s r s' H. unfold bind in H.
  destruct (m s) as [[a | e] s1] eqn:E.
  - eapply R_trans; [eapply Hm, E | eapply Hk, H].
  - injection H as _ <-. eapply Hm, E.
Qed.

Lemma respects_try_catch {A} (m : M S A) (h : string -> M S A) :
  respects R m -> (forall e, respects R (h e)) -> respects R (try_catch m h).
Proof.
  intros Hm Hh s r s' H. unfold try_catch in H.
  destruct (m s) as [[a | e] s1] eqn:E.
  - injection H as _ <-. eapply Hm, E.
  - eapply R_trans; [eapply Hm, E | eapply Hh, H].
Qed.

Lemma respects_for_of {A} (l : list A) (body : A -> M S unit) :
  (forall x, respects R (body x)) -> respects R (for_of l body).
Proof.
  intros Hb. induction l as [|x l IH]; simpl.
  - apply respects_ret.
  - apply respects_bind; auto.
Qed.

End Respects.

Create HintDb respects discriminated.

(** *** The log only grows *)

Lemma log_grows_refl w : log_grows w w.
Proof. exists []. symmetry. apply app_nil_r. Qed.

Lemma log_grows_trans w1 w2 w3 : log_grows w1 w2 -> log_grows w2 w3 -> log_grows w1 w3.
Proof.
  intros [e1 H1] [e2 H2]. exists (e1 ++ e2)%list. rewrite H2, H1. symmetry. apply app_assoc.
Qed.

Lemma log_grows_set_fs f w : log_grows w (set_fs f w).
Proof. exists []. symmetry. apply app_nil_r. Qed.

Lemma log_grows_set_db f w : log_grows w (set_db f w).
Proof. exists []. symmetry. apply app_nil_r. Qed.

Lemma log_grows_logged e w : log_grows w (logged e w).
Proof. exists [e]. reflexivity. Qed.

#[local] Hint Resolve log_grows_refl log_grows_set_fs log_grows_set_db
  log_grows_logged : respects.

(** One step through a computation, for a relation with the given
    proofs of reflexivity and transitivity. *)
Ltac respects_step refl trans :=
  first
    [ apply (respects_bind _ trans); [| intros ?]
    | apply (respects_try_catch _ trans); [| intros ?]
    | apply (respects_for_of _ refl trans); intros ?
    | apply respects_modify; intros ?
    | apply (respects_ret _ refl)
    | apply (respects_throw _ refl)
    | apply (respects_await _ refl)
    | apply (respects_gets _ refl)
    | match goal with
      | |- respects _ (match ?o with _ => _ end) => destruct o
      end ];
  eauto with respects.

Ltac grows := repeat respects_step log_grows_refl log_grows_trans.

Lemma emit_grows e : respects log_grows (emit e).
Proof. unfold emit. grows. Qed.

Lemma existsSync_grows p : respects log_grows (existsSync p).
Proof. unfold existsSync. grows. Qed.

Lemma statSync_grows p : respects log_grows (statSync p).
Proof. unfold statSync. grows. Qed.

Lemma unlinkSync_grows p : respects log_grows (unlinkSync p).
Proof. unfold unlinkSync, emit. grows. Qed.

Lemma rmSync_grows p : respects log_grows (rmSync p).
Proof. unfold rmSync, emit. grows. Qed.

Lemma uploadTo_grows v env p key ct : respects log_grows (uploadTo v env p key ct).
Proof.
  destruct v; unfold uploadTo, uploadToMinio, uploadToR2, statSync, readFileSync, emit;
    grows.
Qed.

Lemma ingest_grows v env file ttl descr : respects log_grows (ingest v env file ttl descr).
Proof.
  unfold ingest, getVideoMetadata, generateThumbnails, readdirSync, Video_create,
    existsSync, mkdirSync, unlinkSync, rmSync, respond, emit.
  grows; try apply uploadTo_grows.
Qed.

(** *** Files that stay *)

Lemma file_kept_refl p w : file_kept p w w.
Proof. intros H. exact H. Qed.

Lemma file_kept_trans p w1 w2 w3 :
  file_kept p w1 w2 -> file_kept p w2 w3 -> file_kept p w1 w3.
Proof. unfold file_kept. auto. Qed.

Lemma file_kept_logged p e w : file_kept p w (logged e w).
Proof. intros H. exact H. Qed.

Lemma file_kept_set_db p f w : file_kept p w (set_db f w).
Proof. intros H. exact H. Qed.

Lemma file_kept_same_files p f w :
  (forall x, files (f x) = files x) -> file_kept p w (set_fs f w).
Proof. intros Hf H. simpl. rewrite Hf. exact H. Qed.

Lemma is_Some_insert_keeps (m : gmap string Z) p q x :
  is_Some (m !! p) -> is_Some (<[q := x]> m !! p).
Proof.
  intros H. destruct (decide (q = p)) as [-> | Hne].
  - rewrite lookup_insert_eq. eauto.
  - rewrite lookup_insert_ne by assumption. exact H.
Qed.

Lemma write_all_keeps d l : forall f p,
  is_Some (files f !! p) ->
  is_Some (files (fold_left (fun acc x => write_into d x acc) l f) !! p).
Proof.
  induction l as [|x l IH]; intros f p H; simpl; [exact H |].
  apply IH. simpl. apply is_Some_insert_keeps, H.
Qed.

Lemma file_kept_write_all p d l w :
  file_kept p w (set_fs (fun f => fold_left (fun acc x => write_into d x acc) l f) w).
Proof. intros H. simpl. apply write_all_keeps, H. Qed.

#[local] Hint Resolve file_kept_refl file_kept_logged file_kept_set_db
  file_kept_write_all : respects.

Ltac keeps p := repeat respects_step (file_kept_refl p) (file_kept_trans p).

Lemma getVideoMetadata_keeps q env p : respects (file_kept q) (getVideoMetadata env p).
Proof. unfold getVideoMetadata, emit. keeps q. Qed.

Lemma generateThumbnails_keeps q env p d c :
  respects (file_kept q) (generateThumbnails env p d c).
Proof.
  unfold generateThumbnails, existsSync, mkdirSync, emit. keeps q.
  apply file_kept_same_files. reflexivity.
Qed.

Lemma uploadTo_keeps q v env p key ct : respects (file_kept q) (uploadTo v env p key ct).
Proof.
  destruct v; unfold uploadTo, uploadToMinio, uploadToR2, statSync, readFileSync, emit;
    keeps q.
Qed.

Lemma readdirSync_keeps q d : respects (file_kept q) (readdirSync d).
Proof. unfold readdirSync. keeps q. Qed.

Lemma Video_create_keeps q env id ttl descr fname dur count :
  respects (file_kept q) (Video_create env id ttl descr fname dur count).
Proof. unfold Video_create, emit. keeps q. Qed.

(** *** The end of a successful ingestion *)

(** Once the document is saved, nothing throws as long as the temp file
    is still there. *)
Lemma ingest_tail_returns p d r w :
  is_Some (files (fs w) !! p) ->
  exists w', (unlinkSync p ;; rmSync d ;; respond r) w = (Ok tt, w').
Proof.
  intros [size Hp].
  cbv beta iota delta [bind unlinkSync rmSync respond emit modify gets].
  rewrite Hp. eauto.
Qed.

(** An ingestion that throws leaves the temp video file on disk, for the
    [catch] block to remove. *)
Lemma ingest_throw_keeps_file v env file ttl descr w e w' :
  is_Some (files (fs w) !! mf_path file) ->
  ingest v env file ttl descr w = (Throw e, w') ->
  is_Some (files (fs w') !! mf_path file).
Proof.
  intros Hp H. unfold ingest in H.
  apply bind_throw_inv in H as [H | (dur & w1 & H1 & H)];
    [exact (getVideoMetadata_keeps _ _ _ _ _ _ H Hp) |].
  apply (getVideoMetadata_keeps (mf_path file)) in H1. specialize (H1 Hp). clear Hp.
  apply bind_throw_inv in H as [H | (? & w2 & H2 & H)];
    [exact (generateThumbnails_keeps _ _ _ _ _ _ _ _ H H1) |].
  apply (generateThumbnails_keeps (mf_path file)) in H2. specialize (H2 H1). clear H1.
  apply bind_throw_inv in H as [H | (? & w3 & H3 & H)];
    [exact (uploadTo_keeps _ _ _ _ _ _ _ _ _ H H2) |].
  apply (uploadTo_keeps (mf_path file)) in H3. specialize (H3 H2). clear H2.
  apply bind_throw_inv in H as [H | (names & w4 & H4 & H)];
    [exact (readdirSync_keeps _ _ _ _ _ H H3) |].
  apply (readdirSync_keeps (mf_path file)) in H4. specialize (H4 H3). clear H3.
  assert (Hloop : forall l, respects (file_kept (mf_path file))
            (for_of l (fun thumbFile =>
               uploadTo v env
                 (path_join (path_join "thumbnails" (path_parse_name (mf_filename file))) thumbFile)
                 ("thumbnails/" ++ path_parse_name (mf_filename file) ++ "/" ++ thumbFile)
                 "image/jpeg"))).
  { intros l. apply (respects_for_of _ (file_kept_refl _) (file_kept_trans _)).
    intros thumb. apply uploadTo_keeps. }
  apply bind_throw_inv in H as [H | (? & w5 & H5 & H)];
    [exact (Hloop _ _ _ _ H H4) |].
  apply Hloop in H5. specialize (H5 H4). clear H4.
  apply bind_throw_inv in H as [H | (video & w6 & H6 & H)];
    [exact (Video_create_keeps _ _ _ _ _ _ _ _ _ _ _ H H5) |].
  apply (Video_create_keeps (mf_path file)) in H6. specialize (H6 H5).
  destruct (ingest_tail_returns (mf_path file)
              (path_join "thumbnails" (path_parse_name (mf_filename file)))
              (json 200 (BUploaded video)) w6 H6) as [w7 Hw7].
  rewrite Hw7 in H. discriminate.
Qed.

Lemma respects_ok_bind {S A B} (L R : S -> S -> Prop) (m : M S A) (k : A -> M S B) :
  (forall s1 s2 s3, L s1 s2 -> R s2 s3 -> R s1 s3) ->
  respects L m -> (forall a, respects_ok R (k a)) -> respects_ok R (bind m k).
Proof.
  intros Hc Hm Hk s b s' H.
  apply bind_ok_inv in H as (a & s1 & H1 & H2).
  eapply Hc; [eapply Hm, H1 | eapply Hk, H2].
Qed.

Lemma log_grows_responded r w1 w2 w3 :
  log_grows w1 w2 -> responded r w2 w3 -> responded r w1 w3.
Proof.
  intros [e1 H1] [e2 H2]. exists (e1 ++ e2)%list.
  rewrite H2, H1, <- !app_assoc. reflexivity.
Qed.

Lemma log_grows_uploaded_200 w1 w2 w3 :
  log_grows w1 w2 -> uploaded_200 w2 w3 -> uploaded_200 w1 w3.
Proof. intros H1 [video H2]. exists video. eapply log_grows_responded; eauto. Qed.

Lemma last_response_app l r : last_response (l ++ [EvRespond r]) = Some r.
Proof. induction l as [|e l IH]; simpl; [reflexivity |]. rewrite IH. reflexivity. Qed.

Lemma responded_response r w w' :
  responded r w w' -> last_response (skipn (length (log w)) (log w')) = Some r.
Proof.
  intros [evs H]. rewrite H, drop_app_length. apply last_response_app.
Qed.

Lemma responded_last r w w' : responded r w w' -> last (log w') = Some (EvRespond r).
Proof.
  intros [evs H]. rewrite H, app_assoc. apply last_snoc.
Qed.

(** An ingestion that returns has answered 200 last. *)
Lemma ingest_ok_responds v env file ttl descr :
  respects_ok uploaded_200 (ingest v env file ttl descr).
Proof.
  unfold ingest.
  repeat (apply (respects_ok_bind log_grows uploaded_200 _ _ log_grows_uploaded_200);
          [| intros ?]).
  all: try (intros w [] w' [= <-]; eexists; exists []; reflexivity).
  all: unfold getVideoMetadata, generateThumbnails, readdirSync, Video_create,
         existsSync, mkdirSync, unlinkSync, rmSync, respond, emit;
       grows; try apply uploadTo_grows.
Qed.

(** *** The [catch] block *)

Lemma rm_entries_None d names (m : gmap string Z) p :
  m !! p = None -> rm_entries d names m !! p = None.
Proof.
  intros H. induction names as [|n names IH]; simpl; [exact H |].
  apply lookup_delete_None. auto.
Qed.

Lemma upload_catch_cleans e w p d :
  is_Some (files (fs w) !! p) ->
  exists w',
    upload_catch e {| world := w; tempVideoPath := Some p; tempThumbnailDir := Some d |}
    = (Ok tt, {| world := w'; tempVideoPath := Some p; tempThumbnailDir := Some d |})
    /\ files (fs w') !! p = None
    /\ dirs (fs w') !! d = None
    /\ db w' = db w
    /\ responded (json 500 (BUploadFailed e)) w w'.
Proof.
  intros [size Hp].
  unfold upload_catch, cleanup_if_exists, existsSync, unlinkSync, rmSync, respond,
    emit, liftW, modify, gets, bind.
  simpl. rewrite Hp. rewrite (bool_decide_true (is_Some (Some size))) by eauto.
  simpl. rewrite Hp. simpl.
  match goal with
  | |- context [bool_decide ?P || bool_decide ?Q] =>
      destruct (bool_decide P || bool_decide Q) eqn:Hd
  end.
  - eexists. split; [reflexivity |]. simpl. repeat split.
    + apply lookup_delete_None. right. apply rm_entries_None, lookup_delete_eq.
    + apply lookup_delete_eq.
    + exists [EvUnlink p; EvRm d]. simpl. rewrite <- !app_assoc. reflexivity.
  - eexists. split; [reflexivity |]. simpl. repeat split.
    + apply lookup_delete_eq.
    + apply orb_false_iff in Hd as [_ Hd]. apply bool_decide_eq_false in Hd.
      destruct (dirs (fs w) !! d); [exfalso; eauto | reflexivity].
    + exists [EvUnlink p]. simpl. rewrite <- !app_assoc. reflexivity.
Qed.

(** *** POST /api/upload with a file and a title *)

(** The route on a form that passes multer and the validation: the
    ingestion runs on the world in which the temp file exists, and the
    [catch] block sees both variables set. *)
Lemma post_upload_runs srv env size ttl descr w :
  size <= fileSize_limit (variant srv) ->
  JS.truthy ttl = true ->
  let p := path_join "uploads/videos" (multer_filename env) in
  let d := path_join "thumbnails" (path_parse_name (multer_filename env)) in
  let file := {| mf_path := p; mf_filename := multer_filename env; mf_size := size |} in
  let w1 := set_fs (fun f => {| files := <[p := size]> (files f); dirs := dirs f |}) w in
  post_upload srv env
    {| form_video := Some size; form_title := Some ttl; form_description := descr |} w
  = match ingest (variant srv) env file ttl descr w1 with
    | (Ok a, w2) => (Ok a, w2)
    | (Throw e, w2) =>
        match upload_catch e
                {| world := w2; tempVideoPath := Some p; tempThumbnailDir := Some d |} with
        | (r, f) => (r, world f)
        end
    end.
Proof.
  intros Hsize Httl p d file w1.
  unfold post_upload, multer_single, upload_handler, upload_try, invalid_upload,
    with_locals,
    set_tempVideoPath, set_tempThumbnailDir, liftW, try_catch, modify, ret, bind.
  simpl. apply Z.ltb_ge in Hsize. rewrite Hsize, Httl. simpl.
  fold p. fold d. fold file. fold w1.
  destruct (ingest (variant srv) env file ttl descr w1) as [[a | e] w2]; [reflexivity |].
  simpl. fold p. fold d.
  destruct (upload_catch e _) as [r f]; reflexivity.
Qed.

(** Runs that fail at each of the five steps in turn: the answer is 500
    and the disk is empty again. *)
Example every_failing_step_is_cleaned_up :
  Forall
    (fun env =>
       let w' := after minio_server env (PostUpload demo_form) empty_world in
       option_map status (response_to minio_server env (PostUpload demo_form) empty_world)
       = Some 500
       /\ fs w' = fs empty_world
       /\ db w' = db empty_world)
    [env_corrupt_file; env_ffmpeg_fails; env_video_put_fails; env_thumbnail_put_fails;
     env_db_down].
Proof. repeat constructor; vm_compute; reflexivity. Qed.

(** A failed upload does not undo the objects already in the store: with
    the third thumbnail refused, the video and two thumbnails were sent. *)
Example failed_upload_is_not_rolled_back :
  put_keys (events_of minio_server env_thumbnail_put_fails (PostUpload demo_form) empty_world)
  = ["videos/0123abcd.mp4"; "thumbnails/0123abcd/thumb_1.jpg";
     "thumbnails/0123abcd/thumb_10.jpg"; "thumbnails/0123abcd/thumb_2.jpg";
     "thumbnails/0123abcd/thumb_3.jpg"].
Proof. vm_compute. reflexivity. Qed.

(** *** Forward runs of the steps *)

Lemma sort_insert_perm x l : Permutation (JS.sort_insert x l) (x :: l).
Proof.
  induction l as [|y l IH]; simpl; [reflexivity |].
  destruct (String.leb x y); [reflexivity |].
  rewrite IH. apply perm_swap.
Qed.

Lemma sort_perm l : Permutation (JS.sort l) l.
Proof.
  induction l as [|x l IH]; simpl; [reflexivity |].
  rewrite sort_insert_perm, IH. reflexivity.
Qed.

Lemma thumbnail_files_listed env n : In n (thumbnail_files env) -> In n (ffmpeg_names env).
Proof.
  unfold thumbnail_files. intros H.
  apply (Permutation_in _ (sort_perm _)) in H.
  apply filter_In in H. tauto.
Qed.

Lemma uploadTo_runs v env p key ct w size :
  files (fs w) !! p = Some size ->
  uploadTo v env p key ct w = (store_put env key, logged (EvPut key ct (put_call v size)) w).
Proof.
  intros Hp.
  destruct v; unfold uploadTo, uploadToMinio, uploadToR2, statSync, readFileSync, emit,
    await, modify, gets, ret, bind, put_call; rewrite Hp; [reflexivity |].
  destruct (size <? 100 * 1024 * 1024); [| reflexivity].
  simpl. rewrite Hp. reflexivity.
Qed.

Lemma put_keys_app l1 l2 : put_keys (l1 ++ l2) = (put_keys l1 ++ put_keys l2)%list.
Proof.
  induction l1 as [|e l1 IH]; simpl; [reflexivity |].
  destruct e; simpl; rewrite IH; reflexivity.
Qed.

Lemma for_of_uploads v env d id names : forall w,
  (forall n, In n names -> is_Some (files (fs w) !! path_join d n)) ->
  exists r w',
    for_of names
      (fun thumbFile =>
         uploadTo v env (path_join d thumbFile) (thumbnail_key id thumbFile) "image/jpeg") w
    = (r, w')
    /\ only_logs w w'
    /\ is_ok r = forallb (fun f => is_ok (store_put env (thumbnail_key id f))) names
    /\ (is_ok r = true ->
        put_keys (log w') = (put_keys (log w) ++ map (thumbnail_key id) names)%list).
Proof.
  induction names as [|n names IH]; intros w Hfiles; simpl.
  - exists (Ok tt), w. repeat split. intros _. symmetry. apply app_nil_r.
  - destruct (Hfiles n (or_introl eq_refl)) as [size Hn].
    unfold bind. rewrite (uploadTo_runs _ _ _ _ _ _ _ Hn).
    destruct (store_put env (thumbnail_key id n)) as [[] | e]; simpl.
    + destruct (IH (logged (EvPut (thumbnail_key id n) "image/jpeg" (put_call v size)) w))
        as (r & w' & Hrun & [Hfs Hdb] & Hr & Hkeys).
      { intros m Hm. apply Hfiles. right. exact Hm. }
      exists r, w'. rewrite Hrun. repeat split; try assumption.
      intros Hok. rewrite (Hkeys Hok). simpl. rewrite put_keys_app, <- app_assoc. reflexivity.
    + eexists _, _. repeat split. discriminate.
Qed.

(** The folder after ffmpeg wrote into it. *)
Lemma write_all_listing d l : forall f names0,
  dirs f !! d = Some names0 ->
  (forall n, In n names0 -> is_Some (files f !! path_join d n)) ->
  let f' := fold_left (fun acc x => write_into d x acc) l f in
  dirs f' !! d = Some (fold_left (fun acc x => add_entry (fst x) acc) l names0)
  /\ forall n, In n (fold_left (fun acc x => add_entry (fst x) acc) l names0) ->
       is_Some (files f' !! path_join d n).
Proof.
  induction l as [|x l IH]; intros f names0 Hd Hfiles; simpl; [auto |].
  apply IH.
  - simpl. rewrite Hd. apply lookup_insert_eq.
  - intros n Hn. simpl. unfold add_entry in Hn.
    destruct (decide (path_join d (fst x) = path_join d n)) as [-> | Hne].
    + rewrite lookup_insert_eq. eauto.
    + rewrite lookup_insert_ne by assumption.
      apply Hfiles. case_bool_decide; [exact Hn |].
      apply in_app_or in Hn as [Hn | [<- | []]]; [exact Hn | contradiction].
Qed.

Lemma generateThumbnails_fresh env p d c w :
  files (fs w) !! d = None ->
  dirs (fs w) !! d = None ->
  exists w',
    generateThumbnails env p d c w = (ffmpeg_end env, w')
    /\ db w' = db w
    /\ log w' = (log w ++ [EvScreenshots p d c])%list
    /\ file_kept p w w'
    /\ dirs (fs w') !! d = Some (ffmpeg_names env)
    /\ forall n, In n (ffmpeg_names env) -> is_Some (files (fs w') !! path_join d n).
Proof.
  intros Hf Hd.
  unfold generateThumbnails, existsSync, mkdirSync, emit, await, modify, gets, ret, bind.
  rewrite Hf, Hd. simpl.
  eexists. split; [reflexivity |]. simpl. rewrite Hd.
  destruct (write_all_listing d (ffmpeg_files env)
              {| files := files (fs w); dirs := <[d := []]> (dirs (fs w)) |} [])
    as [Hlist Hfiles].
  { simpl. apply lookup_insert_eq. }
  { intros n []. }
  repeat split.
  - intros Hp. apply write_all_keeps. exact Hp.
  - exact Hlist.
  - exact Hfiles.
Qed.

Lemma bind_returns {S A B} (m : M S A) (k : A -> M S B) s a s1 :
  m s = (Ok a, s1) -> bind m k s = k a s1.
Proof. unfold bind. intros ->. reflexivity. Qed.

Lemma bind_throws {S A B} (m : M S A) (k : A -> M S B) s e s1 :
  m s = (Throw e, s1) -> bind m k s = (Throw e, s1).
Proof. unfold bind. intros ->. reflexivity. Qed.

Lemma Video_create_runs env id ttl descr fname dur count w :
  exists r w',
    Video_create env id ttl descr fname dur count w = (r, w')
    /\ match dur, JS.truthy id, db_save env, db w !! id with
       | Some d, true, Ok _, None =>
           r = Ok {| videoId := id; title := ttl; description := descr; filename := fname;
                     duration := d; thumbnailCount := count; views := 0;
                     createdAt := now env |}
           /\ db w' = <[id := {| videoId := id; title := ttl; description := descr;
                                 filename := fname; duration := d; thumbnailCount := count;
                                 views := 0; createdAt := now env |}]> (db w)
           /\ fs w' = fs w
           /\ log w' = (log w ++ [EvSave id])%list
       | _, _, _, _ => db w' = db w /\ exists e, r = Throw e
       end.
Proof.
  unfold Video_create, emit, await, modify, gets, ret, throw, bind.
  destruct dur as [d |]; simpl; [| eauto 6].
  destruct (JS.truthy id); simpl; [| eauto 6].
  destruct (db_save env) as [[] | e]; simpl; [| eauto 6].
  destruct (db w !! id) as [v |]; simpl; eauto 8.
Qed.

(** Closes the case of a step that threw, given what the collection is
    at that point. *)
Ltac thrown Hdb :=
  eexists _, _; split; [reflexivity |]; simpl;
  split; [exact Hdb | eexists; reflexivity].

(** The ingestion of a file into a thumbnail folder that does not exist
    yet: the document is committed exactly when every step and the save
    go through, and otherwise the run throws with the collection as it
    was. *)
Lemma ingest_fresh v env file ttl descr w size :
  let p := mf_path file in
  let id := path_parse_name (mf_filename file) in
  let d := path_join "thumbnails" id in
  files (fs w) !! p = Some size ->
  files (fs w) !! d = None ->
  dirs (fs w) !! d = None ->
  exists r w',
    ingest v env file ttl descr w = (r, w')
    /\ if steps_ok env id && save_ok env w id
       then exists dur,
              ffprobe env = Ok (Some dur)
              /\ db w' = <[id := committed env id ttl descr dur]> (db w)
              /\ r = Ok tt
              /\ put_keys (log w')
                 = (put_keys (log w)
                    ++ video_key id :: map (thumbnail_key id) (thumbnail_files env))%list
       else db w' = db w /\ exists e, r = Throw e.
Proof.
  intros p id d Hp Hfd Hdd. unfold ingest. fold p. fold id. fold d.
  unfold steps_ok, save_ok.
  (* ffprobe *)
  assert (H1 : getVideoMetadata env p w = (ffprobe env, logged (EvProbe p) w)) by reflexivity.
  destruct (ffprobe env) as [dur | e] eqn:Hprobe;
    [rewrite (bind_returns _ _ _ _ _ H1) | rewrite (bind_throws _ _ _ _ _ H1); thrown (eq_refl (db w))].
  clear H1. set (w1 := logged (EvProbe p) w).
  (* ffmpeg *)
  destruct (generateThumbnails_fresh env p d 10 w1 Hfd Hdd)
    as (w2 & H2 & Hdb2 & Hlog2 & Hkept2 & Hlist & Hfiles).
  change (db w1) with (db w) in Hdb2.
  destruct (ffmpeg_end env) as [[] | e];
    [rewrite (bind_returns _ _ _ _ _ H2) | rewrite (bind_throws _ _ _ _ _ H2); thrown Hdb2].
  clear H2. destruct (Hkept2 (ex_intro _ size Hp)) as [size2 Hp2].
  (* the video object *)
  pose proof (uploadTo_runs v env p (video_key id) "video/mp4" w2 size2 Hp2) as H3.
  change ("videos/" ++ id ++ ".mp4") with (video_key id).
  set (w3 := logged _ w2) in H3.
  destruct (store_put env (video_key id)) as [[] | e];
    [rewrite (bind_returns _ _ _ _ _ H3) | rewrite (bind_throws _ _ _ _ _ H3); thrown Hdb2].
  clear H3.
  (* the listing of the folder *)
  assert (H4 : readdirSync d w3 = (Ok (ffmpeg_names env), w3)).
  { unfold readdirSync, gets, ret, bind. simpl. rewrite Hlist. reflexivity. }
  rewrite (bind_returns _ _ _ _ _ H4). clear H4.
  fold (thumbnail_files env).
  (* the thumbnails *)
  destruct (for_of_uploads v env d id (thumbnail_files env) w3)
    as (r5 & w5 & H5 & [Hfs5 Hdb5] & Hr5 & Hkeys5).
  { intros n Hn. apply Hfiles, thumbnail_files_listed, Hn. }
  change (db w3) with (db w2) in Hdb5. rewrite Hdb2 in Hdb5.
  change (fun thumbFile : string =>
            uploadTo v env (path_join d thumbFile)
              ("thumbnails/" ++ id ++ "/" ++ thumbFile) "image/jpeg")
    with (fun thumbFile : string =>
            uploadTo v env (path_join d thumbFile) (thumbnail_key id thumbFile) "image/jpeg").
  rewrite <- Hr5.
  destruct r5 as [[] | e];
    [rewrite (bind_returns _ _ _ _ _ H5) | rewrite (bind_throws _ _ _ _ _ H5); thrown Hdb5].
  clear H5. simpl.
  (* the save *)
  destruct (Video_create_runs env id ttl
              (or_empty descr)
              (id ++ ".mp4") dur (Z.of_nat (length (thumbnail_files env))) w5)
    as (r6 & w6 & H6 & Hsave).
  rewrite Hdb5 in Hsave.
  destruct dur as [dur |];
    [| destruct Hsave as (Hdb6 & e & ->); rewrite (bind_throws _ _ _ _ _ H6); thrown Hdb6].
  destruct (JS.truthy id); simpl;
    [| destruct Hsave as (Hdb6 & e' & ->); rewrite (bind_throws _ _ _ _ _ H6); thrown Hdb6].
  destruct (db_save env) as [[] | e]; simpl;
    [| destruct Hsave as (Hdb6 & e' & ->); rewrite (bind_throws _ _ _ _ _ H6); thrown Hdb6].
  destruct (db w !! id) as [existing |] eqn:Hid; simpl;
    [destruct Hsave as (Hdb6 & e' & ->); rewrite (bind_throws _ _ _ _ _ H6); thrown Hdb6 |].
  destruct Hsave as (-> & Hdb6 & Hfs6 & Hlog6).
  rewrite (bind_returns _ _ _ _ _ H6).
  (* the cleanup and the answer *)
  assert (Hp6 : files (fs w6) !! p = Some size2).
  { rewrite Hfs6, Hfs5. exact Hp2. }
  unfold unlinkSync, rmSync, respond, emit, modify, gets, bind. rewrite Hp6. simpl.
  eexists _, _. split; [reflexivity |].
  exists dur. repeat split; simpl; [exact Hdb6 |].
  rewrite !put_keys_app, Hlog6, put_keys_app, (Hkeys5 eq_refl).
  subst w3 w1. simpl. rewrite put_keys_app, Hlog2, !put_keys_app. simpl.
  rewrite !put_keys_app. simpl. rewrite !app_nil_r, <- app_assoc. reflexivity.
Qed.

Lemma temp_paths_differ a b : path_join "uploads/videos" a <> path_join "thumbnails" b.
Proof. unfold path_join. intros H. discriminate H. Qed.

(** C3 as stated fails: every step of the ingestion succeeds and yet no
    record is persisted, because the save is refused. *)
Lemma all_steps_succeed_without_record :
  steps_ok env_db_down "0123abcd" = true
  /\ db (after minio_server env_db_down (PostUpload demo_form) empty_world) = db empty_world
  /\ response_to minio_server env_db_down (PostUpload demo_form) empty_world
     = Some (json 500 (BUploadFailed "MongoNetworkError")).
Proof. vm_compute. auto. Qed.

(** C3, amended.  For every ingestion run (a form that passed multer and
    the validation, into a thumbnail folder that does not exist yet), a
    record is persisted if and only if metadata extraction, thumbnail
    generation, the upload of the video and the upload of every
    thumbnail succeeded and the save itself succeeded.  The record then
    is the complete one; in every other case the collection is left as
    it was. *)
Theorem record_persisted_iff_steps_and_save_succeed srv env w size ttl descr :
  size <= fileSize_limit (variant srv) ->
  JS.truthy ttl = true ->
  files (fs w) !! path_join "thumbnails" (path_parse_name (multer_filename env)) = None ->
  dirs (fs w) !! path_join "thumbnails" (path_parse_name (multer_filename env)) = None ->
  let id := path_parse_name (multer_filename env) in
  let w' := after srv env
              (PostUpload {| form_video := Some size; form_title := Some ttl;
                             form_description := descr |}) w in
  (steps_ok env id = true /\ save_ok env w id = true ->
     db w !! id = None
     /\ exists dur,
          ffprobe env = Ok (Some dur)
          /\ db w' = <[id := committed env id ttl descr dur]> (db w))
  /\ (steps_ok env id = false \/ save_ok env w id = false -> db w' = db w)
  /\ (db w' <> db w <-> steps_ok env id = true /\ save_ok env w id = true).
Proof.
  intros Hsize Httl Hfd Hdd id w'. subst w'. unfold after, handle.
  rewrite (post_upload_runs srv env size ttl descr w Hsize Httl).
  set (p := path_join "uploads/videos" (multer_filename env)).
  set (d := path_join "thumbnails" (path_parse_name (multer_filename env))) in *.
  set (file := {| mf_path := p; mf_filename := multer_filename env; mf_size := size |}).
  set (w1 := set_fs _ w).
  assert (Hp1 : files (fs w1) !! mf_path file = Some size) by apply lookup_insert_eq.
  destruct (ingest_fresh (variant srv) env file ttl descr w1 size Hp1)
    as (r & w2 & Hrun & Hout).
  { simpl. rewrite lookup_insert_ne by apply temp_paths_differ. exact Hfd. }
  { exact Hdd. }
  simpl in Hout. fold id in Hout. change (save_ok env w1 id) with (save_ok env w id) in Hout.
  assert (Hnew : save_ok env w id = true -> db w !! id = None).
  { unfold save_ok. destruct (ffprobe env) as [[dur |] | e]; try discriminate.
    intros H. apply andb_true_iff in H as [_ H]. apply bool_decide_eq_true in H. exact H. }
  rewrite Hrun.
  destruct (steps_ok env id && save_ok env w id) eqn:Hok.
  - apply andb_true_iff in Hok as [Hsteps Hsave].
    destruct Hout as (dur & Hprobe & Hdb & -> & _). simpl.
    assert (Hchanged : db w2 <> db w).
    { rewrite Hdb. intros Heq.
      assert (Hl : <[id := committed env id ttl descr dur]> (db w) !! id = db w !! id)
        by (rewrite Heq; reflexivity).
      rewrite lookup_insert_eq, (Hnew Hsave) in Hl. discriminate. }
    split; [intros _; split; [auto | eauto] |].
    split; [intros [H | H]; congruence |].
    split; [auto | intros _; exact Hchanged].
  - destruct Hout as (Hdb & e & ->).
    assert (Hkeep : is_Some (files (fs w2) !! mf_path file)).
    { eapply ingest_throw_keeps_file; [| exact Hrun]. rewrite Hp1. eauto. }
    destruct (upload_catch_cleans e w2 p d Hkeep) as (w3 & Hc & _ & _ & Hdb3 & _).
    rewrite Hc. simpl.
    assert (Hsame : db w3 = db w) by (rewrite Hdb3; exact Hdb).
    apply andb_false_iff in Hok.
    split; [intros [H1 H2]; destruct Hok; congruence |].
    split; [intros _; exact Hsame |].
    split; [intros H; contradiction | intros [H1 H2]; destruct Hok; congruence].
Qed.

Lemma record_persisted_iff_steps_and_save_succeed_witness :
  (steps_ok demo_env "0123abcd" = true /\ save_ok demo_env empty_world "0123abcd" = true ->
     db empty_world !! "0123abcd" = None
     /\ exists dur,
          ffprobe demo_env = Ok (Some dur)
          /\ db (after minio_server demo_env (PostUpload demo_form) empty_world)
             = <["0123abcd" := committed demo_env "0123abcd" "A" None dur]> (db empty_world))
  /\ (steps_ok demo_env "0123abcd" = false \/ save_ok demo_env empty_world "0123abcd" = false ->
      db (after minio_server demo_env (PostUpload demo_form) empty_world) = db empty_world)
  /\ (db (after minio_server demo_env (PostUpload demo_form) empty_world) <> db empty_world
      <-> steps_ok demo_env "0123abcd" = true /\ save_ok demo_env empty_world "0123abcd" = true).
Proof.
  apply (record_persisted_iff_steps_and_save_succeed minio_server demo_env empty_world
           1000 "A" None).
  - vm_compute. discriminate.
  - reflexivity.
  - reflexivity.
  - reflexivity.
Defined.

(** ** The cleanup of a failed ingestion *)

Lemma fs_kept_refl w : fs_kept w w.
Proof. reflexivity. Qed.

Lemma fs_kept_trans w1 w2 w3 : fs_kept w1 w2 -> fs_kept w2 w3 -> fs_kept w1 w3.
Proof. unfold fs_kept. congruence. Qed.

Lemma fs_kept_logged e w : fs_kept w (logged e w).
Proof. reflexivity. Qed.

Lemma fs_kept_set_db f w : fs_kept w (set_db f w).
Proof. reflexivity. Qed.

#[local] Hint Resolve fs_kept_refl fs_kept_logged fs_kept_set_db : respects.

Ltac keeps_fs := repeat respects_step fs_kept_refl fs_kept_trans.

Lemma uploadTo_keeps_fs v env p key ct : respects fs_kept (uploadTo v env p key ct).
Proof.
  destruct v; unfold uploadTo, uploadToMinio, uploadToR2, statSync, readFileSync, emit;
    keeps_fs.
Qed.

Lemma respects_fs_of {A} (m : M World A) :
  respects fs_kept m -> forall w r w', m w = (r, w') -> fs w' = fs w.
Proof. intros H w r w' E. exact (H w r w' E). Qed.

(** The steps between the thumbnails and the cleanup write nothing to
    the disk, and once the document is saved nothing throws: a run that
    throws after the thumbnails leaves the disk as ffmpeg left it. *)
Lemma ingest_rest_throw_keeps_fs v env p d id ttl descr fname dur e w w' :
  is_Some (files (fs w) !! p) ->
  (names <- readdirSync d ;;
   for_of (JS.sort (List.filter (fun f => JS.endsWith f ".jpg") names))
     (fun thumbFile =>
        uploadTo v env (path_join d thumbFile)
          ("thumbnails/" ++ id ++ "/" ++ thumbFile) "image/jpeg") ;;
   video <- Video_create env id ttl descr fname dur
              (Z.of_nat (length (JS.sort (List.filter
                                             (fun f => JS.endsWith f ".jpg") names)))) ;;
   unlinkSync p ;; rmSync d ;; respond (json 200 (BUploaded video))) w
  = (Throw e, w') ->
  fs w' = fs w.
Proof.
  intros Hp H.
  apply bind_throw_inv in H as [H | (names & w1 & H1 & H)].
  { revert H. apply (respects_fs_of (readdirSync d)). unfold readdirSync. keeps_fs. }
  assert (K1 : fs w1 = fs w).
  { revert H1. apply (respects_fs_of (readdirSync d)). unfold readdirSync. keeps_fs. }
  apply bind_throw_inv in H as [H | (? & w2 & H2 & H)].
  { rewrite <- K1. revert H. apply respects_fs_of. keeps_fs. apply uploadTo_keeps_fs. }
  assert (K2 : fs w2 = fs w1).
  { revert H2. apply respects_fs_of. keeps_fs. apply uploadTo_keeps_fs. }
  apply bind_throw_inv in H as [H | (video & w3 & H3 & H)].
  { rewrite <- K1, <- K2. revert H. apply respects_fs_of.
    unfold Video_create, emit. keeps_fs. }
  assert (K3 : fs w3 = fs w2).
  { revert H3. apply respects_fs_of. unfold Video_create, emit. keeps_fs. }
  exfalso.
  assert (Hp3 : is_Some (files (fs w3) !! p)) by (rewrite K3, K2, K1; exact Hp).
  destruct (ingest_tail_returns p d (json 200 (BUploaded video)) w3 Hp3) as [w4 Hret].
  rewrite Hret in H. discriminate.
Qed.

(** When ffprobe succeeds on a fresh thumbnail folder and the ingestion
    throws later on, the folder lists what ffmpeg wrote when the [catch]
    block takes over. *)
Lemma ingest_throw_listing v env file ttl descr w e w' :
  let p := mf_path file in
  let id := path_parse_name (mf_filename file) in
  let d := path_join "thumbnails" id in
  is_Some (files (fs w) !! p) ->
  files (fs w) !! d = None ->
  dirs (fs w) !! d = None ->
  is_ok (ffprobe env) = true ->
  ingest v env file ttl descr w = (Throw e, w') ->
  dirs (fs w') !! d = Some (ffmpeg_names env).
Proof.
  intros p id d Hp Hfd Hdd Hprobe. unfold ingest. fold p. fold id. fold d.
  assert (H1 : getVideoMetadata env p w = (ffprobe env, logged (EvProbe p) w)) by reflexivity.
  destruct (ffprobe env) as [dur | e0]; [| discriminate].
  rewrite (bind_returns _ _ _ _ _ H1). clear H1. set (w1 := logged (EvProbe p) w).
  destruct (generateThumbnails_fresh env p d 10 w1 Hfd Hdd)
    as (w2 & H2 & _ & _ & Hkept2 & Hlist & _).
  destruct (ffmpeg_end env) as [[] | e0].
  2: { rewrite (bind_throws _ _ _ _ _ H2). intros [= _ <-]. exact Hlist. }
  rewrite (bind_returns _ _ _ _ _ H2). clear H2.
  destruct (Hkept2 Hp) as [size2 Hp2].
  pose proof (uploadTo_runs v env p (video_key id) "video/mp4" w2 size2 Hp2) as H3.
  change ("videos/" ++ id ++ ".mp4") with (video_key id).
  set (w3 := logged _ w2) in H3.
  destruct (store_put env (video_key id)) as [[] | e0].
  2: { rewrite (bind_throws _ _ _ _ _ H3). intros [= _ <-]. exact Hlist. }
  rewrite (bind_returns _ _ _ _ _ H3). cbv beta. intros Hrest.
  apply ingest_rest_throw_keeps_fs in Hrest; [| exists size2; exact Hp2].
  rewrite Hrest. exact Hlist.
Qed.

Lemma rm_entries_listed d names (m : gmap string Z) n :
  In n names -> rm_entries d names m !! path_join d n = None.
Proof.
  induction names as [| n0 names IH]; simpl; [contradiction |].
  intros [-> | Hin]; apply lookup_delete_None; [left; reflexivity | right; auto].
Qed.

(** The [catch] block, entered with the temp file on disk: the file, the
    folder and the files the folder lists are gone when the response is
    written, and the response is 500 with the message of the error. *)
Lemma upload_catch_cleans_before_responding e w p d :
  is_Some (files (fs w) !! p) ->
  exists w3,
    upload_catch e {| world := w; tempVideoPath := Some p; tempThumbnailDir := Some d |}
    = (Ok tt, {| world := logged (EvRespond (json 500 (BUploadFailed e))) w3;
                 tempVideoPath := Some p; tempThumbnailDir := Some d |})
    /\ files (fs w3) !! p = None
    /\ dirs (fs w3) !! d = None
    /\ (forall n, In n (default [] (dirs (fs w) !! d)) ->
          files (fs w3) !! path_join d n = None)
    /\ db w3 = db w
    /\ log_grows w w3.
Proof.
  intros [size Hp].
  unfold upload_catch, cleanup_if_exists, existsSync, unlinkSync, rmSync, respond,
    emit, liftW, modify, gets, bind.
  simpl. rewrite Hp. rewrite (bool_decide_true (is_Some (Some size))) by eauto.
  simpl. rewrite Hp. simpl.
  match goal with
  | |- context [bool_decide ?P || bool_decide ?Q] =>
      destruct (bool_decide P || bool_decide Q) eqn:Hd
  end.
  - eexists (set_fs _ (logged (EvRm d) (set_fs _ (logged (EvUnlink p) w)))).
    split; [reflexivity |]. simpl. repeat split.
    + apply lookup_delete_None. right. apply rm_entries_None, lookup_delete_eq.
    + apply lookup_delete_eq.
    + intros n Hn. apply lookup_delete_None. right. apply rm_entries_listed. exact Hn.
    + exists [EvUnlink p; EvRm d]. simpl. rewrite <- !app_assoc. reflexivity.
  - apply orb_false_iff in Hd as [_ Hd]. apply bool_decide_eq_false in Hd.
    assert (Hnone : dirs (fs w) !! d = None)
      by (destruct (dirs (fs w) !! d); [exfalso; eauto | reflexivity]).
    eexists (set_fs _ (logged (EvUnlink p) w)).
    split; [reflexivity |]. simpl. repeat split.
    + apply lookup_delete_eq.
    + exact Hnone.
    + rewrite Hnone. simpl. contradiction.
    + exists [EvUnlink p]. reflexivity.
Qed.

(** C4.  An upload that passed multer and the validation, into a
    thumbnail folder that does not exist yet, and of which a step fails:
    the probe, the thumbnails, the upload of the video or of a
    thumbnail, or the save of the record.  Whichever step it is, the
    answer is 500 with the message of the error, and the world [w3] in
    which that response is written has neither the temp video file nor
    the temp thumbnail directory, nor, when ffmpeg ran, any of the files
    it wrote there; no record was created. *)
Theorem failed_ingestion_leaves_no_temp_files srv env w size ttl descr :
  let id := path_parse_name (multer_filename env) in
  let p := path_join "uploads/videos" (multer_filename env) in
  let d := path_join "thumbnails" id in
  let upload := PostUpload {| form_video := Some size; form_title := Some ttl;
                              form_description := descr |} in
  size <= fileSize_limit (variant srv) ->
  JS.truthy ttl = true ->
  files (fs w) !! d = None ->
  dirs (fs w) !! d = None ->
  steps_ok env id && save_ok env w id = false ->
  exists e w3,
    after srv env upload w = logged (EvRespond (json 500 (BUploadFailed e))) w3
    /\ response_to srv env upload w = Some (json 500 (BUploadFailed e))
    /\ files (fs w3) !! p = None
    /\ dirs (fs w3) !! d = None
    /\ (is_ok (ffprobe env) = true ->
        forall n, In n (ffmpeg_names env) -> files (fs w3) !! path_join d n = None)
    /\ db w3 = db w.
Proof.
  intros id p d upload Hsize Httl Hfd Hdd Hfail.
  unfold response_to, after, upload, handle.
  rewrite (post_upload_runs srv env size ttl descr w Hsize Httl).
  fold p. fold id. fold d.
  set (file := {| mf_path := p; mf_filename := multer_filename env; mf_size := size |}).
  set (w1 := set_fs _ w).
  assert (Hp1 : files (fs w1) !! mf_path file = Some size) by apply lookup_insert_eq.
  assert (Hfd1 : files (fs w1) !! d = None).
  { simpl. rewrite lookup_insert_ne by apply temp_paths_differ. exact Hfd. }
  destruct (ingest_fresh (variant srv) env file ttl descr w1 size Hp1 Hfd1 Hdd)
    as (r & w2 & Hrun & Hout).
  simpl in Hout. fold id in Hout. change (save_ok env w1 id) with (save_ok env w id) in Hout.
  rewrite Hfail in Hout. destruct Hout as (Hdb & e & ->). rewrite Hrun.
  pose proof (ingest_grows _ _ _ _ _ _ _ _ Hrun) as Hgrow.
  pose proof (ingest_throw_keeps_file _ _ _ _ _ _ _ _ (ex_intro _ size Hp1) Hrun) as Hp2.
  destruct (upload_catch_cleans_before_responding e w2 p d Hp2)
    as (w3 & Hc & Hfile & Hdir & Hlisted & Hdb3 & Hgrow3).
  rewrite Hc. cbn [snd world]. exists e, w3.
  split; [reflexivity |]. split.
  - apply responded_response. destruct Hgrow as [e1 H1], Hgrow3 as [e2 H2].
    exists (e1 ++ e2)%list. simpl. change (log w1) with (log w) in H1.
    rewrite H2, H1, <- !app_assoc. reflexivity.
  - split; [exact Hfile |]. split; [exact Hdir |]. split; [| rewrite Hdb3; exact Hdb].
    intros Hprobe n Hn. apply Hlisted.
    pose proof (ingest_throw_listing (variant srv) env file ttl descr w1 e w2
                  (ex_intro _ size Hp1) Hfd1 Hdd Hprobe Hrun) as Hl.
    change (dirs (fs w2) !! d = Some (ffmpeg_names env)) in Hl.
    rewrite Hl. exact Hn.
Qed.

(** The store refuses the third thumbnail: ffmpeg has written ten files
    into the folder, which the [catch] block removes with it. *)
Lemma failed_ingestion_leaves_no_temp_files_witness :
  exists e w3,
    after minio_server env_thumbnail_put_fails (PostUpload demo_form) empty_world
    = logged (EvRespond (json 500 (BUploadFailed e))) w3
    /\ response_to minio_server env_thumbnail_put_fails (PostUpload demo_form) empty_world
       = Some (json 500 (BUploadFailed e))
    /\ files (fs w3) !! path_join "uploads/videos" (multer_filename env_thumbnail_put_fails)
       = None
    /\ dirs (fs w3)
         !! path_join "thumbnails"
              (path_parse_name (multer_filename env_thumbnail_put_fails)) = None
    /\ (is_ok (ffprobe env_thumbnail_put_fails) = true ->
        forall n, In n (ffmpeg_names env_thumbnail_put_fails) ->
          files (fs w3)
            !! path_join (path_join "thumbnails"
                            (path_parse_name (multer_filename env_thumbnail_put_fails))) n
          = None)
    /\ db w3 = db empty_world.
Proof.
  apply (failed_ingestion_leaves_no_temp_files minio_server env_thumbnail_put_fails
           empty_world 1000 "A" None).
  - vm_compute. discriminate.
  - reflexivity.
  - vm_compute. reflexivity.
  - vm_compute. reflexivity.
  - vm_compute. reflexivity.
Defined.

(** ** View counts *)

Lemma views_monotone_refl w : views_monotone w w.
Proof. intros Hwf. split; [exact Hwf |]. intros k v H. exists v. split; [exact H | lia]. Qed.

Lemma views_monotone_trans w1 w2 w3 :
  views_monotone w1 w2 -> views_monotone w2 w3 -> views_monotone w1 w3.
Proof.
  intros H12 H23 Hwf. destruct (H12 Hwf) as [Hwf2 K12]. destruct (H23 Hwf2) as [Hwf3 K23].
  split; [exact Hwf3 |]. intros k v Hk.
  destruct (K12 k v Hk) as (v2 & Hk2 & Hle2). destruct (K23 k v2 Hk2) as (v3 & Hk3 & Hle3).
  exists v3. split; [exact Hk3 | lia].
Qed.

Lemma views_monotone_same_db w w' : db w' = db w -> views_monotone w w'.
Proof.
  intros Hdb Hwf. unfold db_wf, views_kept. rewrite Hdb.
  split; [exact Hwf |]. intros k v H. exists v. split; [exact H | lia].
Qed.

Lemma views_monotone_logged e w : views_monotone w (logged e w).
Proof. apply views_monotone_same_db. reflexivity. Qed.

Lemma views_monotone_set_fs f w : views_monotone w (set_fs f w).
Proof. apply views_monotone_same_db. reflexivity. Qed.

#[local] Hint Resolve views_monotone_refl views_monotone_logged views_monotone_set_fs
  : respects.

Ltac monotone := repeat respects_step views_monotone_refl views_monotone_trans.

(** A new document under a new [videoId] touches no other. *)
Lemma views_monotone_insert_new id video w :
  db w !! id = None -> videoId video = id ->
  views_monotone w (set_db (fun m => <[id := video]> m) w).
Proof.
  intros Hnew Hid Hwf. split.
  - intros k v. simpl. destruct (decide (id = k)) as [<- | Hne].
    + rewrite lookup_insert_eq. intros [= <-]. exact Hid.
    + rewrite lookup_insert_ne by assumption. apply Hwf.
  - intros k v Hk. exists v. simpl.
    rewrite lookup_insert_ne by congruence. split; [exact Hk | lia].
Qed.

Lemma Video_create_monotone env id ttl descr fname dur count :
  respects views_monotone (Video_create env id ttl descr fname dur count).
Proof.
  intros w r w' H.
  unfold Video_create, emit, await, modify, gets, ret, throw, bind in H.
  destruct dur as [d |]; simpl in H;
    [| injection H as _ <-; apply views_monotone_logged].
  destruct (JS.truthy id); simpl in H;
    [| injection H as _ <-; apply views_monotone_logged].
  destruct (db_save env) as [[] | e]; simpl in H;
    [| injection H as _ <-; apply views_monotone_logged].
  destruct (db w !! id) eqn:Hid; simpl in H; injection H as _ <-.
  - apply views_monotone_logged.
  - apply (views_monotone_trans _ (logged (EvSave id) w)); [apply views_monotone_logged |].
    apply views_monotone_insert_new; [exact Hid | reflexivity].
Qed.

Lemma uploadTo_monotone v env p key ct : respects views_monotone (uploadTo v env p key ct).
Proof.
  destruct v; unfold uploadTo, uploadToMinio, uploadToR2, statSync, readFileSync, emit;
    monotone.
Qed.

Lemma ingest_monotone v env file ttl descr :
  respects views_monotone (ingest v env file ttl descr).
Proof.
  unfold ingest, getVideoMetadata, generateThumbnails, readdirSync,
    existsSync, mkdirSync, unlinkSync, rmSync, respond, emit.
  repeat first [ apply Video_create_monotone | apply uploadTo_monotone
               | respects_step views_monotone_refl views_monotone_trans ].
Qed.

(** *** Frames *)

Lemma respects_liftW {A} (R : World -> World -> Prop) (m : M World A) :
  respects R m -> respects (on_world R) (liftW m).
Proof.
  intros Hm f r f' H. unfold liftW in H.
  destruct (m (world f)) as [r1 w1] eqn:E. injection H as _ <-.
  unfold on_world. simpl. eapply Hm, E.
Qed.

Lemma respects_with_locals {A} (R : World -> World -> Prop) (m : M Frame A) :
  respects (on_world R) m -> respects R (with_locals m).
Proof.
  intros Hm w r w' H. unfold with_locals in H.
  destruct (m _) as [r1 f1] eqn:E. injection H as _ <-.
  apply Hm in E. exact E.
Qed.

Lemma on_world_refl (R : World -> World -> Prop) :
  (forall w, R w w) -> forall f, on_world R f f.
Proof. intros H f. apply H. Qed.

Lemma on_world_trans (R : World -> World -> Prop) :
  (forall w1 w2 w3, R w1 w2 -> R w2 w3 -> R w1 w3) ->
  forall f1 f2 f3, on_world R f1 f2 -> on_world R f2 f3 -> on_world R f1 f3.
Proof. intros H f1 f2 f3. apply H. Qed.

Ltac monotone_frame :=
  repeat
    (first [ apply respects_liftW
           | respects_step (on_world_refl _ views_monotone_refl)
                           (on_world_trans _ views_monotone_trans) ]).

Lemma upload_handler_monotone v env videoFile ttl descr :
  respects (on_world views_monotone) (upload_handler v env videoFile ttl descr).
Proof.
  unfold upload_handler, upload_try, upload_catch, cleanup_if_exists,
    set_tempVideoPath, set_tempThumbnailDir.
  monotone_frame;
    try apply ingest_monotone;
    try (unfold existsSync, unlinkSync, rmSync, respond, emit; monotone);
    try (apply views_monotone_same_db; reflexivity);
    try (unfold on_world; simpl; apply views_monotone_refl).
Qed.

Lemma multer_single_monotone v env form :
  respects views_monotone (multer_single v env form).
Proof. unfold multer_single. monotone. Qed.

Lemma post_upload_monotone srv env form : respects views_monotone (post_upload srv env form).
Proof.
  intros w r w' H. unfold post_upload in H.
  destruct (multer_single (variant srv) env form w) as [[videoFile | e] w1] eqn:E;
    apply multer_single_monotone in E;
    apply (views_monotone_trans _ w1); try exact E.
  - exact (respects_with_locals _ _ (upload_handler_monotone _ _ _ _ _) _ _ _ H).
  - injection H as _ <-. apply views_monotone_logged.
Qed.

(** *** GET /api/videos/:videoId *)

(** The two ways the handler ends on a record that exists. *)
Lemma get_video_runs srv env id w v :
  db w !! id = Some v ->
  let v' := set_views v (views v + 1) in
  match db_find env, db_save env with
  | Ok _, Ok _ =>
      get_video srv env id w
      = (Ok tt,
         logged (EvRespond (json 200 (BVideo v' (thumbnail_urls srv v'))))
           (set_db (fun m => <[videoId v := v']> m) (logged (EvSave (videoId v)) w)))
  | Ok _, Throw _ =>
      get_video srv env id w
      = (Ok tt,
         logged (EvRespond (json 500 (BError "Database error")))
           (logged (EvSave (videoId v)) w))
  | Throw _, _ =>
      get_video srv env id w
      = (Ok tt, logged (EvRespond (json 500 (BError "Database error"))) w)
  end.
Proof.
  intros Hrec v'.
  unfold get_video, try_catch, Video_findOne, Video_save, respond, emit, await, modify,
    gets, bind.
  destruct (db_find env) as [[] | e]; [| reflexivity].
  rewrite Hrec. simpl.
  destruct (db_save env) as [[] | e]; reflexivity.
Qed.

Lemma get_video_monotone srv env id : respects views_monotone (get_video srv env id).
Proof.
  intros w r w' H Hwf.
  destruct (db w !! id) as [v |] eqn:Hrec.
  - pose proof (get_video_runs srv env id w v Hrec) as Hrun. simpl in Hrun.
    destruct (db_find env) as [[] | e1]; [destruct (db_save env) as [[] | e2] |];
      rewrite Hrun in H; injection H as _ <-;
      try (apply views_monotone_same_db; [reflexivity | exact Hwf]).
    pose proof (Hwf id v Hrec) as Hid. rewrite Hid. split.
    + intros k x. simpl. destruct (decide (id = k)) as [<- | Hne].
      * rewrite lookup_insert_eq. intros [= <-]. exact Hid.
      * rewrite lookup_insert_ne by assumption. apply Hwf.
    + intros k x Hk. simpl. destruct (decide (id = k)) as [<- | Hne].
      * rewrite lookup_insert_eq. eexists. split; [reflexivity |].
        rewrite Hrec in Hk. injection Hk as <-. simpl. lia.
      * rewrite lookup_insert_ne by assumption. exists x. split; [exact Hk | lia].
  - revert H. unfold get_video, try_catch, Video_findOne, respond, emit, await, modify,
      gets, bind.
    destruct (db_find env) as [[] | e]; simpl; [rewrite Hrec |];
      intros [= _ <-]; apply views_monotone_same_db; [reflexivity | exact Hwf | reflexivity | exact Hwf].
Qed.

(** No operation of a server lowers a view count or loses a record. *)
Lemma handle_monotone srv env req : respects views_monotone (handle srv env req).
Proof.
  destruct req; simpl.
  - apply post_upload_monotone.
  - unfold get_videos, Video_find, respond, emit. monotone.
  - apply get_video_monotone.
  - unfold get_stream, stream_minio, stream_r2, Video_findOne, statObject, getObject,
      getSignedR2Url, respond, emit. monotone.
  - unfold get_media, getSignedR2Url, respond, emit. monotone.
  - unfold get_health, respond, emit. monotone.
Qed.

(** ** Claims on the view count *)

Lemma demo_world_wf : db_wf demo_world.
Proof.
  intros k v H. unfold demo_world in H. simpl in H.
  apply lookup_singleton_Some in H as [<- <-]. reflexivity.
Qed.

(** C8 as stated fails: a GET on an existing record whose save the
    database refuses is answered 500 and the count stays at 5. *)
Lemma view_not_counted_when_save_fails :
  db demo_world !! "abc" = Some demo_video
  /\ views demo_video = 5
  /\ db (after minio_server env_db_down (GetVideo "abc") demo_world) !! "abc"
     = Some demo_video
  /\ response_to minio_server env_db_down (GetVideo "abc") demo_world
     = Some (json 500 (BError "Database error")).
Proof. vm_compute. auto. Qed.

(** C8, amended.  Requests being served one after the other: a GET
    /api/videos/:videoId on an existing record is answered 200 when the
    database takes the read and the write, and the record's view count is
    then higher by exactly 1, nothing else changing in the collection;
    otherwise it is answered 500 and the collection is as it was.  And no
    operation of either server lowers the view count of a record or
    loses a record. *)
Theorem view_counted_once_per_answered_get srv env id w v :
  db_wf w ->
  db w !! id = Some v ->
  let w' := after srv env (GetVideo id) w in
  (exists r,
     response_to srv env (GetVideo id) w = Some r
     /\ ((is_ok (db_find env) && is_ok (db_save env) = true
          /\ status r = 200
          /\ db w' = <[id := set_views v (views v + 1)]> (db w))
         \/ (is_ok (db_find env) && is_ok (db_save env) = false
             /\ status r = 500
             /\ db w' = db w)))
  /\ (forall srv0 env0 req w0, views_monotone w0 (after srv0 env0 req w0)).
Proof.
  intros Hwf Hrec w'. subst w'. split.
  - unfold response_to, after, handle.
    pose proof (get_video_runs srv env id w v Hrec) as Hrun. simpl in Hrun.
    rewrite (Hwf id v Hrec) in Hrun.
    destruct (db_find env) as [[] | e1]; [destruct (db_save env) as [[] | e2] |];
      rewrite Hrun; simpl; rewrite <- ?app_assoc, drop_app_length;
      eexists; (split; [reflexivity |]); simpl; auto.
  - intros srv0 env0 req w0. unfold after.
    destruct (handle srv0 env0 req w0) as [r w1] eqn:E.
    exact (handle_monotone srv0 env0 req w0 r w1 E).
Qed.

Lemma view_counted_once_per_answered_get_witness :
  (exists r,
     response_to minio_server demo_env (GetVideo "abc") demo_world = Some r
     /\ ((is_ok (db_find demo_env) && is_ok (db_save demo_env) = true
          /\ status r = 200
          /\ db (after minio_server demo_env (GetVideo "abc") demo_world)
             = <["abc" := set_views demo_video (views demo_video + 1)]> (db demo_world))
         \/ (is_ok (db_find demo_env) && is_ok (db_save demo_env) = false
             /\ status r = 500
             /\ db (after minio_server demo_env (GetVideo "abc") demo_world)
                = db demo_world)))
  /\ (forall srv0 env0 req w0, views_monotone w0 (after srv0 env0 req w0)).
Proof.
  apply (view_counted_once_per_answered_get minio_server demo_env "abc" demo_world
           demo_video).
  - exact demo_world_wf.
  - vm_compute. reflexivity.
Defined.

(** Served alone, the handler is [get_video]. *)
Lemma get_video_during_alone srv env id w :
  get_video_during srv env id (ret tt) w = get_video srv env id w.
Proof.
  unfold get_video_during, get_video, try_catch, bind, ret.
  destruct (Video_findOne env id w) as [[found | e] w1]; reflexivity.
Qed.

(** What the theorem leaves out: requests that overlap.  A request that
    read the record when its count was 5 and saves after two other
    requests were served writes 6 over their 7. *)
Example overlapping_gets_lose_views :
  let others := get_video minio_server demo_env "abc" ;;
                get_video minio_server demo_env "abc" in
  (views <$> db (snd (others demo_world)) !! "abc") = Some 7
  /\ (views <$> db (snd (get_video_during minio_server demo_env "abc" others demo_world))
                  !! "abc") = Some 6.
Proof. vm_compute. auto. Qed.

(** ** Claims on the validation of an upload *)

(** Without a file nothing happens at all but the answer. *)
Lemma upload_without_file srv env w ttl descr :
  post_upload srv env
    {| form_video := None; form_title := ttl; form_description := descr |} w
  = (Ok tt, logged (EvRespond (json 400 (BError "Video and title required"))) w).
Proof. reflexivity. Qed.

(** C2, on the failing inputs of the claim: a file but no title, or an
    empty one.  The answer is the 400 of the claim and nothing is probed,
    generated, uploaded or saved, since the response is the only event;
    but multer wrote the temp file before the handler ran, and the early
    return leaves it on disk. *)
Theorem upload_without_title_keeps_temp_file srv env w size ttl descr :
  size <= fileSize_limit (variant srv) ->
  match ttl with Some t => JS.truthy t | None => false end = false ->
  let form := {| form_video := Some size; form_title := ttl;
                 form_description := descr |} in
  let w' := after srv env (PostUpload form) w in
  events_of srv env (PostUpload form) w
  = [EvRespond (json 400 (BError "Video and title required"))]
  /\ db w' = db w
  /\ files (fs w') !! path_join "uploads/videos" (multer_filename env) = Some size.
Proof.
  intros Hsize Httl form w'. subst form w'.
  unfold events_of, after, handle, post_upload, multer_single, with_locals,
    upload_handler, upload_try, invalid_upload, liftW, respond, emit, try_catch,
    modify, ret, bind.
  simpl. apply Z.ltb_ge in Hsize. rewrite Hsize, Httl. simpl.
  rewrite drop_app_length. repeat split. apply lookup_insert_eq.
Qed.

Lemma upload_without_title_keeps_temp_file_witness :
  events_of minio_server demo_env (PostUpload form_without_title) empty_world
  = [EvRespond (json 400 (BError "Video and title required"))]
  /\ db (after minio_server demo_env (PostUpload form_without_title) empty_world)
     = db empty_world
  /\ files (fs (after minio_server demo_env (PostUpload form_without_title) empty_world))
       !! path_join "uploads/videos" (multer_filename demo_env) = Some 1000.
Proof.
  apply (upload_without_title_keeps_temp_file minio_server demo_env empty_world 1000
           None None).
  - vm_compute. discriminate.
  - reflexivity.
Defined.

(** ** Claims on the order and the strategy of the uploads *)

(** [sort()] leaves the names in ascending order as strings. *)
Lemma sort_insert_sorted x l :
  Sorted String.le l -> Sorted String.le (JS.sort_insert x l).
Proof.
  induction l as [|y l IH]; simpl; intros Hl.
  - repeat constructor.
  - destruct (String.leb x y) eqn:Hxy.
    + constructor; [exact Hl |]. constructor. unfold String.le. rewrite Hxy. exact I.
    + inversion Hl as [| ? ? Hl' Hhd]; subst.
      constructor; [apply IH, Hl' |].
      assert (Hyx : String.le y x).
      { unfold String.le. destruct (String.leb_total x y) as [H | H]; [congruence |].
        rewrite H. exact I. }
      destruct l as [|z l]; simpl.
      * constructor. exact Hyx.
      * destruct (String.leb x z); constructor; [exact Hyx |].
        inversion Hhd; assumption.
Qed.

Lemma sort_sorted l : Sorted String.le (JS.sort l).
Proof.
  induction l as [|x l IH]; simpl; [constructor | apply sort_insert_sorted, IH].
Qed.

(** In every ingestion that commits its record the objects are sent in
    this order: the video, then the thumbnails by ascending file name,
    the names compared as strings. *)
Lemma uploads_follow_string_order srv env w size ttl descr :
  size <= fileSize_limit (variant srv) ->
  JS.truthy ttl = true ->
  files (fs w) !! path_join "thumbnails" (path_parse_name (multer_filename env)) = None ->
  dirs (fs w) !! path_join "thumbnails" (path_parse_name (multer_filename env)) = None ->
  let id := path_parse_name (multer_filename env) in
  steps_ok env id && save_ok env w id = true ->
  put_keys (events_of srv env
              (PostUpload {| form_video := Some size; form_title := Some ttl;
                             form_description := descr |}) w)
  = video_key id :: map (thumbnail_key id) (thumbnail_files env)
  /\ Sorted String.le (thumbnail_files env).
Proof.
  intros Hsize Httl Hfd Hdd id Hok. split; [| apply sort_sorted].
  unfold events_of, after, handle.
  rewrite (post_upload_runs srv env size ttl descr w Hsize Httl).
  set (p := path_join "uploads/videos" (multer_filename env)).
  set (d := path_join "thumbnails" (path_parse_name (multer_filename env))) in *.
  set (file := {| mf_path := p; mf_filename := multer_filename env; mf_size := size |}).
  set (w1 := set_fs _ w).
  assert (Hp1 : files (fs w1) !! mf_path file = Some size) by apply lookup_insert_eq.
  destruct (ingest_fresh (variant srv) env file ttl descr w1 size Hp1)
    as (r & w2 & Hrun & Hout).
  { simpl. rewrite lookup_insert_ne by apply temp_paths_differ. exact Hfd. }
  { exact Hdd. }
  simpl in Hout. fold id in Hout. change (save_ok env w1 id) with (save_ok env w id) in Hout.
  rewrite Hok in Hout. destruct Hout as (dur & _ & _ & -> & Hkeys).
  pose proof (ingest_grows _ _ _ _ _ _ _ _ Hrun) as [evs Hevs].
  rewrite Hrun. simpl. change (log w1) with (log w) in *.
  rewrite Hevs, put_keys_app in Hkeys. apply app_inv_head in Hkeys.
  rewrite Hevs, drop_app_length. exact Hkeys.
Qed.

(** C5, on the failing input of the claim: the ten thumbnails of every
    run.  [sort()] compares file names as strings, so [thumb_10.jpg] is
    sent right after [thumb_1.jpg] and before [thumb_2.jpg]. *)
Theorem ten_thumbnails_are_uploaded_in_string_order :
  put_keys (events_of minio_server demo_env (PostUpload demo_form) empty_world)
  = ["videos/0123abcd.mp4";
     "thumbnails/0123abcd/thumb_1.jpg";
     "thumbnails/0123abcd/thumb_10.jpg";
     "thumbnails/0123abcd/thumb_2.jpg";
     "thumbnails/0123abcd/thumb_3.jpg";
     "thumbnails/0123abcd/thumb_4.jpg";
     "thumbnails/0123abcd/thumb_5.jpg";
     "thumbnails/0123abcd/thumb_6.jpg";
     "thumbnails/0123abcd/thumb_7.jpg";
     "thumbnails/0123abcd/thumb_8.jpg";
     "thumbnails/0123abcd/thumb_9.jpg"]
  /\ put_keys (events_of r2_server demo_env (PostUpload demo_form) empty_world)
     = put_keys (events_of minio_server demo_env (PostUpload demo_form) empty_world)
  /\ (exists r, response_to minio_server demo_env (PostUpload demo_form) empty_world = Some r
                /\ status r = 200).
Proof.
  repeat split; try (vm_compute; reflexivity).
  eexists. split; [vm_compute; reflexivity | reflexivity].
Qed.

(** C9 as stated fails: the MinIO server hands a file of 200 MB to one
    [putObject] call; it has no threshold, part size or queue of its
    own. *)
Lemma minio_upload_has_no_threshold :
  put_calls (events_of minio_server demo_env (PostUpload big_form) empty_world)
  = MinioPutObject (200 * 1024 * 1024) :: repeat (MinioPutObject 2048) 10
  /\ 100 * 1024 * 1024 <= 200 * 1024 * 1024
  /\ ~ In multipart_100MB
         (put_calls (events_of minio_server demo_env (PostUpload big_form) empty_world)).
Proof.
  assert (H : put_calls (events_of minio_server demo_env (PostUpload big_form) empty_world)
              = MinioPutObject (200 * 1024 * 1024) :: repeat (MinioPutObject 2048) 10)
    by (vm_compute; reflexivity).
  rewrite H. split; [reflexivity |]. split; [lia |].
  simpl. intros Hin. repeat destruct Hin as [Hin | Hin]; try discriminate Hin. exact Hin.
Qed.

(** C9, amended.  On the R2 server a file below 100 MB is sent whole in
    one [PutObject], and a file of 100 MB or more goes through a
    multipart upload with parts of 100 MB, four in flight and progress
    reported.  On the MinIO server every file, whatever its size, is
    handed to one [putObject] call with its size.  In both cases the
    outcome of the upload is the store's. *)
Theorem put_strategy_of_each_server v env p key ct w size :
  files (fs w) !! p = Some size ->
  uploadTo v env p key ct w
  = (store_put env key, logged (EvPut key ct (put_call v size)) w)
  /\ (v = R2 -> size < 100 * 1024 * 1024 -> put_call v size = S3PutObject size)
  /\ (v = R2 -> 100 * 1024 * 1024 <= size -> put_call v size = multipart_100MB)
  /\ (v = Minio -> put_call v size = MinioPutObject size).
Proof.
  intros Hp. split; [apply uploadTo_runs, Hp |].
  repeat split; intros ->; simpl; try reflexivity; intros Hs.
  - apply Z.ltb_lt in Hs. rewrite Hs. reflexivity.
  - apply Z.ltb_ge in Hs. rewrite Hs. reflexivity.
Qed.

Lemma put_strategy_of_each_server_witness :
  uploadTo R2 demo_env "uploads/videos/0123abcd" "videos/0123abcd.mp4" "video/mp4"
    (snd (multer_single R2 demo_env big_form empty_world))
  = (store_put demo_env "videos/0123abcd.mp4",
     logged (EvPut "videos/0123abcd.mp4" "video/mp4" (put_call R2 (200 * 1024 * 1024)))
       (snd (multer_single R2 demo_env big_form empty_world)))
  /\ (R2 = R2 -> 200 * 1024 * 1024 < 100 * 1024 * 1024 ->
      put_call R2 (200 * 1024 * 1024) = S3PutObject (200 * 1024 * 1024))
  /\ (R2 = R2 -> 100 * 1024 * 1024 <= 200 * 1024 * 1024 ->
      put_call R2 (200 * 1024 * 1024) = multipart_100MB)
  /\ (R2 = Minio -> put_call R2 (200 * 1024 * 1024) = MinioPutObject (200 * 1024 * 1024)).
Proof.
  apply (put_strategy_of_each_server R2 demo_env "uploads/videos/0123abcd"
           "videos/0123abcd.mp4" "video/mp4"
           (snd (multer_single R2 demo_env big_form empty_world)) (200 * 1024 * 1024)).
  vm_compute. reflexivity.
Defined.

(** * Further properties *)

(** ** The stream endpoint *)

Lemma chunks_in_window_past_end s e chunks : forall o,
  e <= o -> chunks_in_window s e o chunks = [].
Proof.
  induction chunks as [|c cs IH]; intros o Ho; simpl; [reflexivity |].
  rewrite IH by lia.
  destruct (Z.ltb_spec o e); [lia |]. rewrite andb_false_r. reflexivity.
Qed.

Lemma pump_chunks_in_window s e chunks : forall p,
  written (pump (JS.Num s) (JS.Num e) chunks p)
  = (written p ++ chunks_in_window s e (bytesRead p) chunks)%list.
Proof.
  induction chunks as [|c cs IH]; intros p; [simpl; symmetry; apply app_nil_r |].
  cbn [pump chunks_in_window].
  assert (Hw : written (on_data (JS.Num s) (JS.Num e) c p)
               = (written p ++ (if (s <=? bytesRead p) && (bytesRead p <? e) then c else []))%list).
  { unfold on_data; simpl. destruct ((s <=? bytesRead p) && (bytesRead p <? e));
      [reflexivity | symmetry; apply app_nil_r]. }
  destruct (ended (on_data (JS.Num s) (JS.Num e) c p)) eqn:E.
  - rewrite Hw. unfold on_data in E; simpl in E. apply Z.leb_le in E.
    rewrite chunks_in_window_past_end by exact E. rewrite app_nil_r. reflexivity.
  - rewrite IH, Hw, <- app_assoc. reflexivity.
Qed.

(** X1.  Whatever the chunks, the listener writes exactly the chunks that
    begin at an offset in [start, end): whole chunks, never a part of
    one, and destroying the stream early loses none of them. *)
Theorem streamed_chunks_in_window s e chunks :
  streamed (JS.Num s) (JS.Num e) chunks = chunks_in_window s e 0 chunks.
Proof. unfold streamed. rewrite pump_chunks_in_window. reflexivity. Qed.

Lemma chunks_in_window_before_start s e pre rest : forall o,
  o + Z.of_nat (length (concat pre)) <= s ->
  chunks_in_window s e o (pre ++ rest)
  = chunks_in_window s e (o + Z.of_nat (length (concat pre))) rest.
Proof.
  induction pre as [|c pre IH]; intros o Ho; simpl in *.
  - rewrite Z.add_0_r. reflexivity.
  - rewrite length_app in Ho. rewrite IH by lia.
    rewrite length_app, Nat2Z.inj_add, Z.add_assoc.
    destruct (Z.leb_spec s o); simpl; [| reflexivity].
    destruct c; [| simpl in Ho; lia].
    destruct (o <? e); reflexivity.
Qed.

Lemma chunks_in_window_inside s e mid rest : forall o,
  s <= o ->
  o + Z.of_nat (length (concat mid)) < e ->
  chunks_in_window s e o (mid ++ rest)
  = (concat mid
     ++ chunks_in_window s e (o + Z.of_nat (length (concat mid))) rest)%list.
Proof.
  induction mid as [|c mid IH]; intros o Hs He; simpl in *.
  - rewrite Z.add_0_r. reflexivity.
  - rewrite length_app in He. rewrite IH by lia.
    rewrite length_app, Nat2Z.inj_add, Z.add_assoc, <- app_assoc.
    destruct (Z.leb_spec s o); [| lia].
    destruct (Z.ltb_spec o e); [reflexivity | lia].
Qed.

(** X2.  When the chunks fall on the range, the body is the slice: a
    chunk begins at [start] and the chunk that holds byte [end_] begins
    before it and ends with it. *)
Theorem aligned_range_serves_slice s e pre mid last post :
  0 <= s ->
  Z.of_nat (length (concat pre)) = s ->
  s + Z.of_nat (length (concat mid)) < e ->
  s + Z.of_nat (length (concat mid)) + Z.of_nat (length last) = e + 1 ->
  streamed (JS.Num s) (JS.Num e) (pre ++ mid ++ last :: post)
  = slice s e (concat (pre ++ mid ++ last :: post)).
Proof.
  intros Hs Hpre Hmid Hlast.
  rewrite streamed_chunks_in_window.
  rewrite chunks_in_window_before_start by lia. rewrite Z.add_0_l, Hpre.
  rewrite chunks_in_window_inside by lia.
  cbn [chunks_in_window].
  destruct (Z.leb_spec s (s + Z.of_nat (length (concat mid)))); [| lia].
  destruct (Z.ltb_spec (s + Z.of_nat (length (concat mid))) e); [| lia].
  rewrite chunks_in_window_past_end by lia. simpl. rewrite app_nil_r.
  unfold slice. rewrite !concat_app. simpl.
  replace (Z.to_nat s) with (length (concat pre)) by lia.
  rewrite drop_app_length.
  replace (Z.to_nat (e - s + 1)) with (length (concat mid ++ last))
    by (rewrite length_app; lia).
  rewrite app_assoc, take_app_length. reflexivity.
Qed.

Lemma aligned_range_serves_slice_witness :
  streamed (JS.Num 1) (JS.Num 4)
    ([[Byte.x00]] ++ [[Byte.x01]; [Byte.x02]] ++ [Byte.x03; Byte.x04] :: [[Byte.x05]])
  = slice 1 4 (concat ([[Byte.x00]] ++ [[Byte.x01]; [Byte.x02]]
                       ++ [Byte.x03; Byte.x04] :: [[Byte.x05]])).
Proof.
  apply (aligned_range_serves_slice 1 4 [[Byte.x00]] [[Byte.x01]; [Byte.x02]]
           [Byte.x03; Byte.x04] [[Byte.x05]]).
  - lia.
  - reflexivity.
  - simpl. lia.
  - simpl. lia.
Defined.

(** X3.  The request a player opens a video with, [Range: bytes=0-], is
    served the whole object, with [Content-Range: bytes 0-(size-1)/size]
    and [Content-Length: size], as soon as the last chunk of the stream
    has two bytes or more. *)
Theorem open_range_from_zero_serves_whole_object
    srv env id w video size init last data :
  variant srv = Minio ->
  db_find env = Ok tt ->
  db w !! id = Some video ->
  store_stat env = Ok size ->
  store_get env = Ok (init ++ [last])%list ->
  delivers (init ++ [last])%list data ->
  Z.of_nat (length data) = size ->
  (2 <= length last)%nat ->
  response_to srv env (GetStream id (Some (range_header 0 None))) w
  = Some {| status := 206;
            headers := [("Content-Range",
                         "bytes 0-" ++ JS.Z_toString (size - 1) ++ "/" ++ JS.Z_toString size);
                        ("Accept-Ranges", "bytes");
                        ("Content-Length", JS.Z_toString size);
                        ("Content-Type", "video/mp4")];
            body := BBytes data |}.
Proof.
  intros Hv Hfind Hrec Hstat Hget Hdata Hsize Hlast.
  rewrite (stream_minio_range_response srv env id _ w video size (init ++ [last])%list)
    by (assumption || apply range_header_truthy).
  unfold partial_headers.
  rewrite range_start_header, range_end_omitted by lia.
  unfold delivers in Hdata. subst data size.
  rewrite concat_app, length_app in *. simpl in *. rewrite app_nil_r in *.
  pose proof (aligned_range_serves_slice 0
                (Z.of_nat (length (concat init) + length last) - 1) [] init last []) as H.
  simpl in H. rewrite H by lia.
  unfold slice. rewrite !concat_app. simpl. rewrite app_nil_r.
  replace (Z.to_nat _) with (length (concat init ++ last)) by (rewrite length_app; lia).
  rewrite firstn_all. simpl.
  replace (Z.of_nat (length (concat init) + length last) - 1 - 0 + 1)
    with (Z.of_nat (length (concat init) + length last)) by lia.
  reflexivity.
Qed.

Lemma open_range_from_zero_serves_whole_object_witness :
  response_to minio_server demo_env (GetStream "abc" (Some (range_header 0 None))) demo_world
  = Some {| status := 206;
            headers := [("Content-Range",
                         "bytes 0-" ++ JS.Z_toString (1000 - 1) ++ "/" ++ JS.Z_toString 1000);
                        ("Accept-Ranges", "bytes");
                        ("Content-Length", JS.Z_toString 1000);
                        ("Content-Type", "video/mp4")];
            body := BBytes demo_object |}.
Proof.
  apply (open_range_from_zero_serves_whole_object minio_server demo_env "abc" demo_world
           demo_video 1000 [] demo_object demo_object).
  - reflexivity.
  - reflexivity.
  - vm_compute; reflexivity.
  - reflexivity.
  - reflexivity.
  - vm_compute; reflexivity.
  - vm_compute; reflexivity.
  - unfold demo_object. rewrite length_map, length_seq. lia.
Defined.

(** X4.  Without a [Range] header, or with an empty one, the answer is
    200 with [Content-Length] the size of the object and the whole object
    as body, however the store cuts it into chunks. *)
Theorem stream_without_range_serves_whole_object
    srv env id range w video size chunks data :
  variant srv = Minio ->
  db_find env = Ok tt ->
  db w !! id = Some video ->
  store_stat env = Ok size ->
  store_get env = Ok chunks ->
  delivers chunks data ->
  range = None \/ range = Some EmptyString ->
  response_to srv env (GetStream id range) w
  = Some {| status := 200;
            headers := [("Content-Length", JS.Z_toString size);
                        ("Content-Type", "video/mp4")];
            body := BBytes data |}.
Proof.
  intros Hv Hfind Hrec Hstat Hget Hdata Hrange.
  assert (Hgiven : range_given range = None) by (destruct Hrange; subst; reflexivity).
  unfold response_to, after, handle, get_stream. rewrite Hv.
  cbv beta iota delta [stream_minio try_catch bind Video_findOne statObject getObject
    await gets respond emit modify].
  rewrite Hfind; cbv beta iota. rewrite Hrec; cbv beta iota.
  rewrite Hstat; cbv beta iota. rewrite Hgiven; cbv beta iota.
  rewrite Hget; cbv beta iota. rewrite Hdata. apply response_logged.
Qed.

Lemma stream_without_range_serves_whole_object_witness :
  response_to minio_server demo_env (GetStream "abc" None) demo_world
  = Some {| status := 200;
            headers := [("Content-Length", JS.Z_toString 1000);
                        ("Content-Type", "video/mp4")];
            body := BBytes demo_object |}.
Proof.
  apply (stream_without_range_serves_whole_object minio_server demo_env "abc" None
           demo_world demo_video 1000 [demo_object] demo_object).
  - reflexivity.
  - reflexivity.
  - vm_compute; reflexivity.
  - reflexivity.
  - reflexivity.
  - vm_compute; reflexivity.
  - left. reflexivity.
Defined.

(** X5.  A stream request for a [videoId] no record has is answered 404
    by both servers, whatever its [Range] header and whatever the state
    of the object store, and changes nothing. *)
Theorem stream_of_unknown_video_is_404 srv env id range w :
  db_find env = Ok tt ->
  db w !! id = None ->
  handle srv env (GetStream id range) w
  = (Ok tt, logged (EvRespond (json 404 (BError "Video not found"))) w).
Proof.
  intros Hfind Hrec. simpl. unfold get_stream.
  destruct (variant srv);
    cbv beta iota delta [stream_minio stream_r2 try_catch bind Video_findOne await gets
      respond emit modify];
    rewrite Hfind; cbv beta iota; rewrite Hrec; reflexivity.
Qed.

Lemma stream_of_unknown_video_is_404_witness :
  handle r2_server demo_env (GetStream "nobody" (Some "bytes=0-")) demo_world
  = (Ok tt, logged (EvRespond (json 404 (BError "Video not found"))) demo_world).
Proof.
  apply (stream_of_unknown_video_is_404 r2_server demo_env "nobody" (Some "bytes=0-")
           demo_world).
  - reflexivity.
  - vm_compute; reflexivity.
Defined.

(** X6.  A record whose object the store cannot stat or deliver is
    answered 500 [{error: 'Stream failed'}] by the MinIO server, with or
    without a [Range] header: neither 404 nor a partial response. *)
Theorem stream_of_missing_object_is_500 srv env id range w video :
  variant srv = Minio ->
  db_find env = Ok tt ->
  db w !! id = Some video ->
  is_ok (store_stat env) && is_ok (store_get env) = false ->
  handle srv env (GetStream id range) w
  = (Ok tt, logged (EvRespond (json 500 (BError "Stream failed"))) w).
Proof.
  intros Hv Hfind Hrec Hstore. simpl. unfold get_stream. rewrite Hv.
  cbv beta iota delta [stream_minio try_catch bind Video_findOne statObject getObject
    await gets respond emit modify].
  rewrite Hfind; cbv beta iota. rewrite Hrec; cbv beta iota.
  destruct (store_stat env) as [size | e]; [| reflexivity]. cbv beta iota.
  destruct (store_get env) as [chunks | e]; [discriminate |].
  destruct (range_given range); reflexivity.
Qed.

(** The store has lost the object of the record. *)
Lemma stream_of_missing_object_is_500_witness :
  handle minio_server
    {| multer_filename := "0123abcd"; ffprobe := Throw "unused"; ffmpeg_files := [];
       ffmpeg_end := Ok tt; store_put := fun _ => Ok tt;
       store_stat := Throw "NotFound"; store_get := Throw "NoSuchKey";
       store_sign := fun _ => Throw "unused"; db_find := Ok tt; db_save := Ok tt;
       now := 1 |}
    (GetStream "abc" (Some "bytes=0-")) demo_world
  = (Ok tt, logged (EvRespond (json 500 (BError "Stream failed"))) demo_world).
Proof.
  apply (stream_of_missing_object_is_500 minio_server _ "abc" (Some "bytes=0-")
           demo_world demo_video).
  - reflexivity.
  - reflexivity.
  - vm_compute; reflexivity.
  - reflexivity.
Defined.

(** ** Records and their thumbnails *)

(** The name of the thumbnail the server lists at position [i], counted
    from 0. *)
Lemma thumbnail_urls_lookup srv video i :
  (i < Z.to_nat (thumbnailCount video))%nat ->
  nth_error (thumbnail_urls srv video) i
  = Some (resolve_url srv
            (thumbnail_key (videoId video)
               ("thumb_" ++ JS.Z_toString (Z.of_nat i + 1) ++ ".jpg"))).
Proof.
  intros Hi. unfold thumbnail_urls.
  rewrite nth_error_map, nth_error_seq.
  destruct (Nat.ltb_spec i (Z.to_nat (thumbnailCount video))); [reflexivity | lia].
Qed.

(** Different positions give different urls when the url of a key
    determines the key. *)
Lemma thumbnail_urls_NoDup srv video :
  (forall k1 k2, resolve_url srv k1 = resolve_url srv k2 -> k1 = k2) ->
  NoDup (thumbnail_urls srv video).
Proof.
  intros Hinj. unfold thumbnail_urls.
  apply NoDup_fmap_2_strong; [| apply NoDup_seq].
  intros i j _ _ H. apply Hinj in H.
  do 3 apply String.app_inj in H.
  apply (f_equal JS.parseInt) in H.
  rewrite !parseInt_toString in H by (try lia; reflexivity).
  injection H. lia.
Qed.

(** X7.  The thumbnails of a record in an answer are exactly
    [thumbnailCount] urls (none when the count is not positive), the one
    at position [i] being that of [thumb_(i+1).jpg] under the record's
    prefix; they are pairwise distinct when the server's url of a key
    determines the key. *)
Theorem thumbnail_urls_are_numbered_from_one srv video :
  length (thumbnail_urls srv video) = Z.to_nat (thumbnailCount video)
  /\ (forall i, (i < Z.to_nat (thumbnailCount video))%nat ->
        nth_error (thumbnail_urls srv video) i
        = Some (resolve_url srv
                  (thumbnail_key (videoId video)
                     ("thumb_" ++ JS.Z_toString (Z.of_nat i + 1) ++ ".jpg"))))
  /\ ((forall k1 k2, resolve_url srv k1 = resolve_url srv k2 -> k1 = k2) ->
      NoDup (thumbnail_urls srv video)).
Proof.
  split; [unfold thumbnail_urls; rewrite length_map, length_seq; reflexivity |].
  split; [intros i; apply thumbnail_urls_lookup |].
  apply thumbnail_urls_NoDup.
Qed.

(** X8.  GET /api/videos/:videoId for a [videoId] no record has is
    answered 404: nothing is saved and no record comes to exist. *)
Theorem get_of_unknown_video_is_404 srv env id w :
  db_find env = Ok tt ->
  db w !! id = None ->
  handle srv env (GetVideo id) w
  = (Ok tt, logged (EvRespond (json 404 (BError "Video not found"))) w).
Proof.
  intros Hfind Hrec. simpl.
  cbv beta iota delta [get_video try_catch bind Video_findOne await gets respond emit modify].
  rewrite Hfind; cbv beta iota. rewrite Hrec. reflexivity.
Qed.

Lemma get_of_unknown_video_is_404_witness :
  handle minio_server demo_env (GetVideo "nobody") demo_world
  = (Ok tt, logged (EvRespond (json 404 (BError "Video not found"))) demo_world).
Proof.
  apply (get_of_unknown_video_is_404 minio_server demo_env "nobody" demo_world).
  - reflexivity.
  - vm_compute; reflexivity.
Defined.

(** X9.  [n] requests GET /api/videos/:videoId served one after the
    other, the database taking every read and write, raise the view
    count of the record by [n] and leave every other record as it was. *)
Theorem n_gets_count_n_views srv env id w v n :
  db_find env = Ok tt ->
  db_save env = Ok tt ->
  db w !! id = Some v ->
  videoId v = id ->
  db (Nat.iter n (after srv env (GetVideo id)) w)
  = <[id := set_views v (views v + Z.of_nat n)]> (db w).
Proof.
  intros Hfind Hsave Hrec Hid. induction n as [|n IH].
  - simpl. rewrite Z.add_0_r. symmetry. apply insert_id. rewrite Hrec.
    destruct v; reflexivity.
  - change (Nat.iter (S n) (after srv env (GetVideo id)) w)
      with (after srv env (GetVideo id) (Nat.iter n (after srv env (GetVideo id)) w)).
    set (wn := Nat.iter n (after srv env (GetVideo id)) w) in *.
    assert (Hn : db wn !! id = Some (set_views v (views v + Z.of_nat n)))
      by (rewrite IH; apply lookup_insert_eq).
    pose proof (get_video_runs srv env id wn _ Hn) as Hrun.
    rewrite Hfind, Hsave in Hrun. cbv beta iota zeta in Hrun.
    change (after srv env (GetVideo id) wn) with (snd (get_video srv env id wn)).
    rewrite Hrun.
    cbv beta iota delta [snd db logged set_db].
    change (videoId (set_views v (views v + Z.of_nat n))) with (videoId v).
    rewrite Hid. fold (db wn). rewrite IH, insert_insert_eq.
    change (views (set_views v (views v + Z.of_nat n))) with (views v + Z.of_nat n).
    change (set_views (set_views v (views v + Z.of_nat n)) (views v + Z.of_nat n + 1))
      with (set_views v (views v + Z.of_nat n + 1)).
    replace (views v + Z.of_nat n + 1) with (views v + Z.of_nat (S n)) by lia.
    reflexivity.
Qed.

Lemma n_gets_count_n_views_witness :
  db (Nat.iter 3 (after minio_server demo_env (GetVideo "abc")) demo_world)
  = <["abc" := set_views demo_video (views demo_video + Z.of_nat 3)]> (db demo_world).
Proof.
  apply (n_gets_count_n_views minio_server demo_env "abc" demo_world demo_video 3).
  - reflexivity.
  - reflexivity.
  - vm_compute; reflexivity.
  - reflexivity.
Defined.

(** X10.  GET /api/videos, the database answering: the answer is 200
    and lists exactly the records of the collection, each with the
    thumbnail urls of its own count; no record is changed, so listing
    counts no view. *)
Theorem listing_has_every_record_and_counts_no_view srv env w :
  db_find env = Ok tt ->
  db (after srv env GetVideos w) = db w
  /\ exists entries,
       response_to srv env GetVideos w = Some (json 200 (BVideos entries))
       /\ forall video urls,
            In (video, urls) entries
            <-> (exists k, db w !! k = Some video) /\ urls = thumbnail_urls srv video.
Proof.
  intros Hfind. unfold response_to, after, handle.
  cbv beta iota delta [get_videos try_catch bind Video_find await gets respond emit modify].
  rewrite Hfind. cbv beta iota. split; [reflexivity |].
  eexists. split.
  - cbn [snd log logged]. rewrite drop_app_length. reflexivity.
  - intros video urls. rewrite in_map_iff. split.
    + intros (v & [= <- <-] & Hin). split; [| reflexivity].
      apply list_elem_of_In, list_elem_of_fmap in Hin as ([k v'] & -> & Hin).
      exists k. apply elem_of_map_to_list in Hin. exact Hin.
    + intros [[k Hk] ->]. exists video. split; [reflexivity |].
      apply list_elem_of_In, list_elem_of_fmap. exists (k, video).
      split; [reflexivity | apply elem_of_map_to_list; exact Hk].
Qed.

Lemma listing_has_every_record_and_counts_no_view_witness :
  db (after minio_server demo_env GetVideos demo_world) = db demo_world
  /\ exists entries,
       response_to minio_server demo_env GetVideos demo_world
       = Some (json 200 (BVideos entries))
       /\ forall video urls,
            In (video, urls) entries
            <-> (exists k, db demo_world !! k = Some video)
                /\ urls = thumbnail_urls minio_server video.
Proof.
  apply (listing_has_every_record_and_counts_no_view minio_server demo_env demo_world).
  reflexivity.
Defined.

(** ** Uploads *)

(** X11.  A [video] part over the size limit of the server (500 MB on
    the MinIO server, 5 GB on the R2 server) never reaches the handler:
    the answer is 500 and nothing is probed, stored or left on disk. *)
Theorem oversized_upload_is_refused srv env size ttl descr w :
  fileSize_limit (variant srv) < size ->
  handle srv env
    (PostUpload {| form_video := Some size; form_title := ttl;
                   form_description := descr |}) w
  = (Ok tt,
     logged (EvRespond {| status := 500; headers := []; body := BError "File too large" |}) w).
Proof.
  intros Hsize. simpl. unfold post_upload, multer_single. simpl.
  apply Z.ltb_lt in Hsize. rewrite Hsize. reflexivity.
Qed.

Lemma oversized_upload_is_refused_witness :
  handle minio_server demo_env
    (PostUpload {| form_video := Some (600 * 1024 * 1024); form_title := Some "A";
                   form_description := None |}) empty_world
  = (Ok tt,
     logged (EvRespond {| status := 500; headers := []; body := BError "File too large" |})
       empty_world).
Proof.
  apply (oversized_upload_is_refused minio_server demo_env (600 * 1024 * 1024)
           (Some "A") None empty_world).
  vm_compute. reflexivity.
Defined.

(** An ingestion that returns has removed the temp file and the temp
    directory. *)
Lemma ingest_ok_cleans v env file ttl descr w w' :
  ingest v env file ttl descr w = (Ok tt, w') ->
  files (fs w') !! mf_path file = None
  /\ dirs (fs w') !! path_join "thumbnails" (path_parse_name (mf_filename file)) = None.
Proof.
  intros H. unfold ingest in H.
  do 6 (apply bind_ok_inv in H as (? & ? & _ & H)).
  revert H. unfold unlinkSync, rmSync, respond, emit, modify, gets, bind.
  destruct (files (fs _) !! mf_path file); [| discriminate].
  intros [= <-]. simpl. split.
  - apply lookup_delete_None. right. apply rm_entries_None, lookup_delete_eq.
  - apply lookup_delete_eq.
Qed.

(** X12.  An upload answered 200 leaves neither its temp video file nor
    its temp thumbnail directory on disk. *)
Theorem successful_upload_leaves_no_temp_files srv env w size ttl descr r :
  size <= fileSize_limit (variant srv) ->
  JS.truthy ttl = true ->
  response_to srv env
    (PostUpload {| form_video := Some size; form_title := Some ttl;
                   form_description := descr |}) w = Some r ->
  status r = 200 ->
  files (fs (after srv env
               (PostUpload {| form_video := Some size; form_title := Some ttl;
                              form_description := descr |}) w))
    !! path_join "uploads/videos" (multer_filename env) = None
  /\ dirs (fs (after srv env
                 (PostUpload {| form_video := Some size; form_title := Some ttl;
                                form_description := descr |}) w))
       !! path_join "thumbnails" (path_parse_name (multer_filename env)) = None.
Proof.
  intros Hsize Httl Hresp Hstatus. unfold response_to, after, handle in *.
  rewrite (post_upload_runs srv env size ttl descr w Hsize Httl) in *.
  set (p := path_join "uploads/videos" (multer_filename env)) in *.
  set (d := path_join "thumbnails" (path_parse_name (multer_filename env))) in *.
  set (file := {| mf_path := p; mf_filename := multer_filename env; mf_size := size |}) in *.
  set (w1 := set_fs _ w) in *.
  destruct (ingest (variant srv) env file ttl descr w1) as [[[] | e] w2] eqn:Hrun.
  - exact (ingest_ok_cleans _ _ _ _ _ _ _ Hrun).
  - exfalso.
    assert (Hp : is_Some (files (fs w1) !! mf_path file)).
    { simpl. rewrite lookup_insert_eq. eauto. }
    pose proof (ingest_grows _ _ _ _ _ _ _ _ Hrun) as Hgrow.
    apply (ingest_throw_keeps_file _ _ _ _ _ _ _ _ Hp) in Hrun.
    destruct (upload_catch_cleans e w2 p d Hrun) as (w3 & Hc & _ & _ & _ & Hr).
    rewrite Hc in Hresp. simpl in Hresp.
    rewrite (responded_response _ w w3 (log_grows_responded _ w1 w2 w3 Hgrow Hr)) in Hresp.
    injection Hresp as <-. discriminate.
Qed.

Lemma successful_upload_leaves_no_temp_files_witness :
  files (fs (after minio_server demo_env
               (PostUpload {| form_video := Some 1000; form_title := Some "A";
                              form_description := None |}) empty_world))
    !! path_join "uploads/videos" (multer_filename demo_env) = None
  /\ dirs (fs (after minio_server demo_env
                 (PostUpload {| form_video := Some 1000; form_title := Some "A";
                                form_description := None |}) empty_world))
       !! path_join "thumbnails" (path_parse_name (multer_filename demo_env)) = None.
Proof.
  apply (successful_upload_leaves_no_temp_files minio_server demo_env empty_world 1000
           "A" None
           (json 200 (BUploaded (committed demo_env "0123abcd" "A" None
                                   (QArith_base.Qmake 30 1))))).
  - vm_compute. discriminate.
  - reflexivity.
  - vm_compute. reflexivity.
  - reflexivity.
Defined.

(** A validated upload into a fresh thumbnail folder, every step and the
    save going through: the document committed and the objects sent. *)
Lemma committed_upload_runs srv env w size ttl descr :
  size <= fileSize_limit (variant srv) ->
  JS.truthy ttl = true ->
  files (fs w) !! path_join "thumbnails" (path_parse_name (multer_filename env)) = None ->
  dirs (fs w) !! path_join "thumbnails" (path_parse_name (multer_filename env)) = None ->
  let id := path_parse_name (multer_filename env) in
  let upload := PostUpload {| form_video := Some size; form_title := Some ttl;
                              form_description := descr |} in
  steps_ok env id && save_ok env w id = true ->
  exists dur,
    db (after srv env upload w) = <[id := committed env id ttl descr dur]> (db w)
    /\ put_keys (events_of srv env upload w)
       = video_key id :: map (thumbnail_key id) (thumbnail_files env).
Proof.
  intros Hsize Httl Hfd Hdd id upload Hok.
  unfold events_of, after, upload, handle.
  rewrite (post_upload_runs srv env size ttl descr w Hsize Httl).
  set (p := path_join "uploads/videos" (multer_filename env)).
  set (d := path_join "thumbnails" (path_parse_name (multer_filename env))) in *.
  set (file := {| mf_path := p; mf_filename := multer_filename env; mf_size := size |}).
  set (w1 := set_fs _ w).
  assert (Hp1 : files (fs w1) !! mf_path file = Some size) by apply lookup_insert_eq.
  destruct (ingest_fresh (variant srv) env file ttl descr w1 size Hp1)
    as (r & w2 & Hrun & Hout).
  { simpl. rewrite lookup_insert_ne by apply temp_paths_differ. exact Hfd. }
  { exact Hdd. }
  simpl in Hout. fold id in Hout. change (save_ok env w1 id) with (save_ok env w id) in Hout.
  rewrite Hok in Hout. destruct Hout as (dur & _ & Hdb & -> & Hkeys).
  pose proof (ingest_grows _ _ _ _ _ _ _ _ Hrun) as [evs Hevs].
  rewrite Hrun. simpl. change (log w1) with (log w) in *. change (db w1) with (db w) in Hdb.
  exists dur. split; [exact Hdb |].
  rewrite Hevs, put_keys_app in Hkeys. apply app_inv_head in Hkeys.
  rewrite Hevs, drop_app_length. exact Hkeys.
Qed.

(** X13.  Upload, then watch.  When ffmpeg wrote the files [thumb_1.jpg]
    to [thumb_n.jpg] and the upload committed its record, the first
    GET /api/videos/:videoId of the new video is answered 200 with a view
    count of 1 and with one thumbnail URL for each thumbnail object the
    upload sent, and for no other key. *)
Theorem uploaded_video_is_served_with_its_thumbnails
    srv env env' w size ttl descr n :
  let id := path_parse_name (multer_filename env) in
  let upload := PostUpload {| form_video := Some size; form_title := Some ttl;
                              form_description := descr |} in
  size <= fileSize_limit (variant srv) ->
  JS.truthy ttl = true ->
  files (fs w) !! path_join "thumbnails" id = None ->
  dirs (fs w) !! path_join "thumbnails" id = None ->
  steps_ok env id && save_ok env w id = true ->
  Permutation (thumbnail_files env) (map thumb_name (seq 0 n)) ->
  db_find env' = Ok tt ->
  db_save env' = Ok tt ->
  exists video keys,
    response_to srv env' (GetVideo id) (after srv env upload w)
    = Some (json 200 (BVideo video (map (resolve_url srv) keys)))
    /\ videoId video = id
    /\ views video = 1
    /\ Permutation (video_key id :: keys) (put_keys (events_of srv env upload w)).
Proof.
  intros id upload Hsize Httl Hfd Hdd Hok Hnames Hfind Hsave.
  destruct (committed_upload_runs srv env w size ttl descr Hsize Httl Hfd Hdd Hok)
    as (dur & Hdb & Hkeys).
  fold id in Hdb, Hkeys. fold upload in Hdb, Hkeys.
  set (w1 := after srv env upload w) in *.
  assert (Hrec : db w1 !! id = Some (committed env id ttl descr dur))
    by (rewrite Hdb; apply lookup_insert_eq).
  pose proof (get_video_runs srv env' id w1 _ Hrec) as Hrun.
  rewrite Hfind, Hsave in Hrun. cbv beta iota zeta in Hrun.
  set (video := set_views (committed env id ttl descr dur) _) in Hrun.
  exists video, (map (thumbnail_key id) (map thumb_name (seq 0 n))).
  assert (Hn : length (thumbnail_files env) = n)
    by (rewrite (Permutation_length Hnames), length_map, length_seq; reflexivity).
  repeat split.
  - unfold response_to, after at 1, handle. rewrite Hrun.
    cbv beta iota delta [snd log logged set_db]. fold (log w1).
    rewrite <- app_assoc, drop_app_length. simpl.
    unfold thumbnail_urls. simpl. rewrite Hn, Nat2Z.id, !map_map. reflexivity.
  - rewrite Hkeys. apply perm_skip, Permutation_map. symmetry. exact Hnames.
Qed.

Lemma uploaded_video_is_served_with_its_thumbnails_witness :
  exists video keys,
    response_to minio_server demo_env (GetVideo "0123abcd")
      (after minio_server demo_env (PostUpload demo_form) empty_world)
    = Some (json 200 (BVideo video (map (resolve_url minio_server) keys)))
    /\ videoId video = "0123abcd"
    /\ views video = 1
    /\ Permutation (video_key "0123abcd" :: keys)
         (put_keys (events_of minio_server demo_env (PostUpload demo_form) empty_world)).
Proof.
  apply (uploaded_video_is_served_with_its_thumbnails minio_server demo_env demo_env
           empty_world 1000 "A" None 10).
  - vm_compute. discriminate.
  - reflexivity.
  - vm_compute. reflexivity.
  - vm_compute. reflexivity.
  - vm_compute. reflexivity.
  - vm_compute.
    apply (Permutation_trans (l' :=
             ["thumb_10.jpg"; "thumb_1.jpg"; "thumb_2.jpg"; "thumb_3.jpg"; "thumb_4.jpg";
              "thumb_5.jpg"; "thumb_6.jpg"; "thumb_7.jpg"; "thumb_8.jpg"; "thumb_9.jpg"])).
    + apply perm_swap.
    + change (Permutation ("thumb_10.jpg" ::
               ["thumb_1.jpg"; "thumb_2.jpg"; "thumb_3.jpg"; "thumb_4.jpg"; "thumb_5.jpg";
                "thumb_6.jpg"; "thumb_7.jpg"; "thumb_8.jpg"; "thumb_9.jpg"])
              (["thumb_1.jpg"; "thumb_2.jpg"; "thumb_3.jpg"; "thumb_4.jpg"; "thumb_5.jpg";
                "thumb_6.jpg"; "thumb_7.jpg"; "thumb_8.jpg"; "thumb_9.jpg"]
               ++ ["thumb_10.jpg"])%list).
      apply Permutation_cons_append.
  - reflexivity.
  - reflexivity.
Defined.

(** Once ffprobe and ffmpeg have succeeded on a fresh thumbnail folder,
    the video object is sent to the store, whatever happens next. *)
Lemma ingest_sends_video v env file ttl descr w r w' :
  let p := mf_path file in
  let id := path_parse_name (mf_filename file) in
  let d := path_join "thumbnails" id in
  is_Some (files (fs w) !! p) ->
  files (fs w) !! d = None ->
  dirs (fs w) !! d = None ->
  is_ok (ffprobe env) = true ->
  is_ok (ffmpeg_end env) = true ->
  ingest v env file ttl descr w = (r, w') ->
  exists evs, put_keys (log w') = (put_keys (log w) ++ video_key id :: evs)%list.
Proof.
  intros p id d Hp Hfd Hdd Hprobe Hend. unfold ingest. fold p. fold id. fold d.
  assert (H1 : getVideoMetadata env p w = (ffprobe env, logged (EvProbe p) w)) by reflexivity.
  destruct (ffprobe env) as [dur | e]; [| discriminate].
  rewrite (bind_returns _ _ _ _ _ H1). clear H1. set (w1 := logged (EvProbe p) w).
  destruct (generateThumbnails_fresh env p d 10 w1 Hfd Hdd)
    as (w2 & H2 & _ & Hlog2 & Hkept2 & _ & _).
  destruct (ffmpeg_end env) as [[] | e]; [| discriminate].
  rewrite (bind_returns _ _ _ _ _ H2). clear H2.
  destruct (Hkept2 Hp) as [size2 Hp2].
  pose proof (uploadTo_runs v env p (video_key id) "video/mp4" w2 size2 Hp2) as H3.
  change ("videos/" ++ id ++ ".mp4") with (video_key id).
  set (w3 := logged _ w2) in H3.
  assert (Hlog3 : put_keys (log w3) = (put_keys (log w) ++ [video_key id])%list).
  { unfold w3. simpl. rewrite Hlog2. simpl. rewrite !put_keys_app. simpl.
    rewrite !app_nil_r. reflexivity. }
  destruct (store_put env (video_key id)) as [[] | e].
  - rewrite (bind_returns _ _ _ _ _ H3). intros Hrest.
    assert (Hgrow : log_grows w3 w').
    { revert Hrest. cbv beta.
      match goal with
      | |- ?m w3 = _ -> _ => assert (Hrest : respects log_grows m)
      end.
      { unfold readdirSync, Video_create, unlinkSync, rmSync, respond, emit.
        grows; try apply uploadTo_grows. }
      apply Hrest. }
    destruct Hgrow as [evs Hevs]. exists (put_keys evs).
    rewrite Hevs, put_keys_app, Hlog3, <- app_assoc. reflexivity.
  - rewrite (bind_throws _ _ _ _ _ H3). intros [= _ <-]. exists [].
    exact Hlog3.
Qed.

(** X14.  Nothing is rolled back in the store.  When ffprobe and ffmpeg
    succeed and the store accepts the video object, but a later step or
    the save fails, the upload is answered 500, no record is created,
    and the video object has been sent to the store all the same: it
    stays there without a record. *)
Theorem failed_upload_leaves_video_object srv env w size ttl descr :
  let id := path_parse_name (multer_filename env) in
  let upload := PostUpload {| form_video := Some size; form_title := Some ttl;
                              form_description := descr |} in
  size <= fileSize_limit (variant srv) ->
  JS.truthy ttl = true ->
  files (fs w) !! path_join "thumbnails" id = None ->
  dirs (fs w) !! path_join "thumbnails" id = None ->
  is_ok (ffprobe env) = true ->
  is_ok (ffmpeg_end env) = true ->
  steps_ok env id && save_ok env w id = false ->
  (exists e, response_to srv env upload w = Some (json 500 (BUploadFailed e)))
  /\ db (after srv env upload w) = db w
  /\ exists keys, put_keys (events_of srv env upload w) = video_key id :: keys.
Proof.
  intros id upload Hsize Httl Hfd Hdd Hprobe Hend Hfail.
  unfold response_to, events_of, after, upload, handle.
  rewrite (post_upload_runs srv env size ttl descr w Hsize Httl).
  set (p := path_join "uploads/videos" (multer_filename env)).
  set (d := path_join "thumbnails" (path_parse_name (multer_filename env))) in *.
  set (file := {| mf_path := p; mf_filename := multer_filename env; mf_size := size |}).
  set (w1 := set_fs _ w).
  assert (Hp1 : files (fs w1) !! mf_path file = Some size) by apply lookup_insert_eq.
  assert (Hfd1 : files (fs w1) !! d = None).
  { simpl. rewrite lookup_insert_ne by apply temp_paths_differ. exact Hfd. }
  destruct (ingest_fresh (variant srv) env file ttl descr w1 size Hp1 Hfd1 Hdd)
    as (r & w2 & Hrun & Hout).
  simpl in Hout. fold id in Hout. change (save_ok env w1 id) with (save_ok env w id) in Hout.
  rewrite Hfail in Hout. destruct Hout as (Hdb & e & ->). rewrite Hrun.
  destruct (ingest_sends_video (variant srv) env file ttl descr w1 _ w2
              (ex_intro _ size Hp1) Hfd1 Hdd Hprobe Hend Hrun) as [keys Hkeys].
  pose proof (ingest_grows _ _ _ _ _ _ _ _ Hrun) as Hgrow.
  apply (ingest_throw_keeps_file _ _ _ _ _ _ _ _ (ex_intro _ size Hp1)) in Hrun.
  destruct (upload_catch_cleans e w2 p d Hrun) as (w3 & Hc & _ & _ & Hdb3 & Hr).
  rewrite Hc. simpl. repeat split.
  - exists e. exact (responded_response _ w w3 (log_grows_responded _ w1 w2 w3 Hgrow Hr)).
  - rewrite Hdb3. exact Hdb.
  - destruct Hr as [evs3 Hlog3]. destruct Hgrow as [evs2 Hlog2].
    change (log w1) with (log w) in *.
    rewrite Hlog2, put_keys_app in Hkeys. apply app_inv_head in Hkeys.
    rewrite Hlog3, Hlog2, <- app_assoc, drop_app_length, put_keys_app, Hkeys.
    fold id. eexists. reflexivity.
Qed.

Lemma failed_upload_leaves_video_object_witness :
  (exists e, response_to minio_server env_thumbnail_put_fails (PostUpload demo_form)
               empty_world = Some (json 500 (BUploadFailed e)))
  /\ db (after minio_server env_thumbnail_put_fails (PostUpload demo_form) empty_world)
     = db empty_world
  /\ exists keys,
       put_keys (events_of minio_server env_thumbnail_put_fails (PostUpload demo_form)
                   empty_world)
       = video_key (path_parse_name (multer_filename env_thumbnail_put_fails)) :: keys.
Proof.
  apply (failed_upload_leaves_video_object minio_server env_thumbnail_put_fails
           empty_world 1000 "A" None).
  - vm_compute. discriminate.
  - reflexivity.
  - vm_compute. reflexivity.
  - vm_compute. reflexivity.
  - reflexivity.
  - reflexivity.
  - vm_compute. reflexivity.
Defined.

(** ** The [videoId] of an upload *)

Lemma after_last_plain sep s : contains sep s = false -> after_last sep s = s.
Proof.
  destruct s as [| c s']; [reflexivity |]. simpl.
  intros H. apply orb_false_iff in H as [Hc Hs]. rewrite Hs, Hc. reflexivity.
Qed.

(** A name without [/] and without [.] is its own [path.parse(..).name]. *)
Lemma path_parse_name_plain f :
  contains "/" f = false -> contains "." f = false -> path_parse_name f = f.
Proof.
  intros Hslash Hdot. unfold path_parse_name.
  rewrite (after_last_plain _ _ Hslash), Hdot. reflexivity.
Qed.

(** Two strings without [c] that agree up to and after a first [c] are
    the same. *)
Lemma append_sep_inj c f : forall g t t',
  contains c f = false -> contains c g = false ->
  f ++ String c t = g ++ String c t' -> f = g.
Proof.
  induction f as [| a f IH]; intros [| b g] t t' Hf Hg H.
  - reflexivity.
  - exfalso. change (String c t = String b (g ++ String c t')) in H.
    injection H as Hb _. simpl in Hg. rewrite Hb, Ascii.eqb_refl in Hg. discriminate.
  - exfalso. change (String a (f ++ String c t) = String c t') in H.
    injection H as Ha _. simpl in Hf. rewrite Ha, Ascii.eqb_refl in Hf. discriminate.
  - change (String a (f ++ String c t) = String b (g ++ String c t')) in H.
    injection H as Ha H. simpl in Hf, Hg.
    apply orb_false_iff in Hf as [_ Hf]. apply orb_false_iff in Hg as [_ Hg].
    rewrite Ha, (IH g t t' Hf Hg H). reflexivity.
Qed.

(** X15.  For a temp file name without [/] and [.], as the hexadecimal
    names multer generates are, the handler takes the file name itself
    as [videoId]; two uploads with different such names share neither
    their video key, nor their temp thumbnail directory, nor any
    thumbnail key. *)
Theorem plain_filenames_never_collide f g :
  contains "/" f = false -> contains "." f = false ->
  contains "/" g = false -> contains "." g = false ->
  f <> g ->
  path_parse_name f = f
  /\ video_key (path_parse_name f) <> video_key (path_parse_name g)
  /\ path_join "thumbnails" (path_parse_name f) <> path_join "thumbnails" (path_parse_name g)
  /\ forall t t', thumbnail_key (path_parse_name f) t <> thumbnail_key (path_parse_name g) t'.
Proof.
  intros Hfs Hfd Hgs Hgd Hne.
  rewrite (path_parse_name_plain f Hfs Hfd), (path_parse_name_plain g Hgs Hgd).
  repeat split.
  - unfold video_key. intros H. apply String.app_inj in H.
    exact (Hne (append_sep_inj "." f g "mp4" "mp4" Hfd Hgd H)).
  - unfold path_join. intros H. do 2 apply String.app_inj in H. exact (Hne H).
  - intros t t'. unfold thumbnail_key. intros H. apply String.app_inj in H.
    exact (Hne (append_sep_inj "/" f g t t' Hfs Hgs H)).
Qed.

Lemma plain_filenames_never_collide_witness :
  path_parse_name "0123abcd" = "0123abcd"
  /\ video_key (path_parse_name "0123abcd") <> video_key (path_parse_name "4567cdef")
  /\ path_join "thumbnails" (path_parse_name "0123abcd")
     <> path_join "thumbnails" (path_parse_name "4567cdef")
  /\ forall t t', thumbnail_key (path_parse_name "0123abcd") t
                  <> thumbnail_key (path_parse_name "4567cdef") t'.
Proof.
  apply (plain_filenames_never_collide "0123abcd" "4567cdef");
    try reflexivity.
  discriminate.
Defined.

(** With original file names instead, the extension is dropped and two
    different files get the same [videoId]. *)
Example names_with_extensions_collide :
  path_parse_name "clip.mp4" = path_parse_name "clip.mov".
Proof. reflexivity. Qed.

(** ** The bucket of the MinIO server *)

(** A bucket that exists is left as it is, with or without a policy. *)
Lemma ensureBucket_existing benv name b :
  is_Some (b !! name) -> ensureBucket benv name b = (Ok tt, b).
Proof.
  intros Hb. unfold ensureBucket, try_catch, bind, await, gets, ret.
  destruct (bucketExists_call benv) as [[] | e]; [| reflexivity].
  rewrite (bool_decide_true _ Hb). reflexivity.
Qed.

(** X16.  [ensureBucket] never throws, whatever the store answers; it
    touches no bucket other than its own; and a bucket that exists is
    left as it is, with its policy or without one. *)
Theorem ensureBucket_never_throws benv name b :
  exists b',
    ensureBucket benv name b = (Ok tt, b')
    /\ (forall other, other <> name -> b' !! other = b !! other)
    /\ (is_Some (b !! name) -> b' = b).
Proof.
  destruct (b !! name) as [pol |] eqn:Hb.
  - exists b. rewrite (ensureBucket_existing benv name b) by (rewrite Hb; eauto).
    auto.
  - unfold ensureBucket, try_catch, bind, await, gets, ret, modify.
    destruct (bucketExists_call benv) as [[] | e1].
    + rewrite bool_decide_false by (rewrite Hb; apply is_Some_None).
      cbv beta iota delta [negb].
      destruct (makeBucket_call benv) as [[] | e2].
      * destruct (setBucketPolicy_call benv) as [[] | e3];
          (eexists; split; [reflexivity | split; [intros other Hne | intros [? [=]]]]).
        -- cbv beta. rewrite !lookup_insert_ne by congruence. reflexivity.
        -- cbv beta. rewrite lookup_insert_ne by congruence. reflexivity.
      * exists b. split; [reflexivity | split; [reflexivity | intros [? [=]]]].
    + exists b. split; [reflexivity | split; [reflexivity | intros [? [=]]]].
Qed.

(** X17.  A failure of [setBucketPolicy] is not made up for.  When the
    bucket is created and the policy call is refused, the bucket is left
    without a policy, and no later start of the server gives it one,
    whatever the store answers then: objects stay unreadable through
    the public URLs the server hands out. *)
Theorem bucket_without_policy_is_not_repaired benv name b e starts :
  b !! name = None ->
  bucketExists_call benv = Ok tt ->
  makeBucket_call benv = Ok tt ->
  setBucketPolicy_call benv = Throw e ->
  restarts (benv :: starts) name b = <[name := None]> b.
Proof.
  intros Hb Hexists Hmake Hpolicy. unfold restarts. cbn [fold_left].
  assert (Hfirst : ensureBucket benv name b = (Ok tt, <[name := None]> b)).
  { unfold ensureBucket, try_catch, bind, await, gets, ret, modify.
    rewrite Hexists, Hmake, Hpolicy.
    rewrite bool_decide_false by (rewrite Hb; apply is_Some_None). reflexivity. }
  rewrite Hfirst. cbn [snd].
  assert (Hthere : is_Some (<[name := None]> b !! name))
    by (rewrite lookup_insert_eq; eauto).
  revert Hthere. generalize (<[name := None]> b). clear.
  induction starts as [| benv starts IH]; intros b1 Hthere; [reflexivity |].
  cbn [fold_left]. rewrite (ensureBucket_existing benv name b1 Hthere). cbn [snd].
  exact (IH b1 Hthere).
Qed.

Lemma bucket_without_policy_is_not_repaired_witness :
  restarts
    [ {| bucketExists_call := Ok tt; makeBucket_call := Ok tt;
         setBucketPolicy_call := Throw "AccessDenied" |};
      {| bucketExists_call := Ok tt; makeBucket_call := Ok tt;
         setBucketPolicy_call := Ok tt |} ]
    "videotube" ∅
  = <["videotube" := None]> ∅.
Proof.
  apply (bucket_without_policy_is_not_repaired
           {| bucketExists_call := Ok tt; makeBucket_call := Ok tt;
              setBucketPolicy_call := Throw "AccessDenied" |}
           "videotube" ∅ "AccessDenied").
  - reflexivity.
  - reflexivity.
  - reflexivity.
  - reflexivity.
Defined.

(** ** The urls of stored objects *)

Lemma getMinioUrl_inj penv k1 k2 : getMinioUrl penv k1 = getMinioUrl penv k2 -> k1 = k2.
Proof.
  unfold getMinioUrl.
  destruct (is_set (MINIO_PUBLIC_URL penv)); intros H.
  - do 4 apply String.app_inj in H. exact H.
  - do 8 apply String.app_inj in H. exact H.
Qed.

Lemma unreserved_not_percent a : is_unreserved a = true -> Ascii.eqb a "%" = false.
Proof.
  destruct (Ascii.eqb_spec a "%") as [-> |]; [discriminate | reflexivity].
Qed.

Lemma unreserved_below_128 a : is_unreserved a = true -> (N_of_ascii a <? 128)%N = true.
Proof.
  destruct a as [[] [] [] [] [] [] [] []]; vm_compute; intros H;
    first [reflexivity | discriminate H].
Qed.

Lemma hex_digits_read_back a :
  hex_value (hex_digit (N_of_ascii a / 16)) = Some (N_of_ascii a / 16)%N
  /\ hex_value (hex_digit (N_of_ascii a mod 16)) = Some (N_of_ascii a mod 16)%N
  /\ ascii_of_N (16 * (N_of_ascii a / 16) + N_of_ascii a mod 16) = a.
Proof.
  split; [| split].
  - destruct a as [[] [] [] [] [] [] [] []]; reflexivity.
  - destruct a as [[] [] [] [] [] [] [] []]; reflexivity.
  - rewrite <- N.div_mod by discriminate. apply ascii_N_embedding.
Qed.

(** What [unescape] reads in an encoded string: the bytes of the string,
    those that were escaped marked so. *)
Lemma unescape_encode_byte a r octets :
  unescape r = Ok octets ->
  unescape (encode_byte a ++ r) = Ok ((negb (is_unreserved a), a) :: octets).
Proof.
  intros Hr. unfold encode_byte.
  destruct (is_unreserved a) eqn:Ha.
  - change (String a EmptyString ++ r) with (String a r).
    cbn [unescape]. rewrite (unreserved_not_percent a Ha), Hr. reflexivity.
  - destruct (hex_digits_read_back a) as (Hhi & Hlo & Hback).
    change (unescape
              (String "%" (String (hex_digit (N_of_ascii a / 16))
                             (String (hex_digit (N_of_ascii a mod 16)) r)))
            = Ok ((negb false, a) :: octets)).
    cbn [unescape]. change (Ascii.eqb "%" "%") with true. cbv iota.
    rewrite Hhi, Hlo, Hr, Hback. reflexivity.
Qed.

Lemma unescape_encode key :
  unescape (encodeURIComponent key)
  = Ok (map (fun a => (negb (is_unreserved a), a)) (list_ascii_of_string key)).
Proof.
  induction key as [| a key IH]; [reflexivity |].
  cbn [encodeURIComponent list_ascii_of_string map].
  apply unescape_encode_byte. exact IH.
Qed.

Lemma encodeURIComponent_inj k1 k2 :
  encodeURIComponent k1 = encodeURIComponent k2 -> k1 = k2.
Proof.
  intros H. apply (f_equal unescape) in H. rewrite !unescape_encode in H.
  injection H as H. apply (f_equal (map snd)) in H.
  rewrite !map_map, !map_id in H.
  rewrite <- (string_of_list_ascii_of_string k1), <- (string_of_list_ascii_of_string k2), H.
  reflexivity.
Qed.

Lemma continuation_ranges b ranges :
  continuation b = Some ranges -> Forall (fun range => (128 <= fst range)%N) ranges.
Proof.
  unfold continuation.
  repeat match goal with
         | |- (if ?c then _ else _) = _ -> _ => destruct c
         end;
    intros [= <-]; repeat constructor; simpl; lia.
Qed.

Lemma between_escaped range b :
  (128 <= fst range)%N -> between range b = true -> is_unreserved b = false.
Proof.
  intros Hlo Hb. unfold between in Hb. apply andb_true_iff in Hb as [Hb _].
  apply N.leb_le in Hb.
  destruct (is_unreserved b) eqn:Hu; [| reflexivity].
  apply unreserved_below_128, N.ltb_lt in Hu. lia.
Qed.

(** The bytes of a well-formed string, escaped as [encodeURIComponent]
    escapes them, spell the string. *)
Lemma decode_octets_encoded s : forall pending,
  Forall (fun range => (128 <= fst range)%N) pending ->
  well_formed pending s = true ->
  decode_octets pending
    (map (fun a => (negb (is_unreserved a), a)) (list_ascii_of_string s))
  = Ok s.
Proof.
  induction s as [| b s IH]; intros pending Hpending Hwf.
  - destruct pending; [reflexivity | discriminate].
  - cbn [list_ascii_of_string map decode_octets well_formed] in *.
    destruct pending as [| range pending].
    + destruct (N_of_ascii b <? 128)%N eqn:Hb.
      * rewrite orb_true_r, (IH [] Hpending Hwf). reflexivity.
      * assert (Hu : is_unreserved b = false).
        { destruct (is_unreserved b) eqn:Hu; [| reflexivity].
          apply unreserved_below_128 in Hu. congruence. }
        rewrite Hu. cbn [negb orb].
        destruct (continuation b) as [ranges |] eqn:Hc; [| discriminate].
        rewrite (IH ranges (continuation_ranges b ranges Hc) Hwf). reflexivity.
    + apply andb_true_iff in Hwf as [Hb Hwf].
      inversion Hpending as [| ? ? Hlo Hrest]; subst.
      rewrite (between_escaped range b Hlo Hb), Hb. cbn [negb andb].
      rewrite (IH pending Hrest Hwf). reflexivity.
Qed.

Lemma decode_encode key :
  utf8 key = true -> decodeURIComponent (encodeURIComponent key) = Ok key.
Proof.
  intros Hkey. unfold decodeURIComponent. rewrite unescape_encode.
  apply decode_octets_encoded; [constructor | exact Hkey].
Qed.

Lemma unescape_without_percent key :
  contains "%" key = false ->
  unescape key = Ok (map (fun a => (false, a)) (list_ascii_of_string key)).
Proof.
  induction key as [| a key IH]; [reflexivity |].
  cbn [contains unescape list_ascii_of_string map]. intros H.
  apply orb_false_iff in H as [Ha Hkey].
  rewrite Ha, (IH Hkey). reflexivity.
Qed.

Lemma decode_octets_unescaped key :
  decode_octets [] (map (fun a => (false, a)) (list_ascii_of_string key)) = Ok key.
Proof.
  induction key as [| a key IH]; [reflexivity |].
  cbn [list_ascii_of_string map decode_octets negb orb]. rewrite IH. reflexivity.
Qed.

Lemma decode_without_percent key :
  contains "%" key = false -> decodeURIComponent key = Ok key.
Proof.
  intros H. unfold decodeURIComponent. rewrite (unescape_without_percent key H).
  apply decode_octets_unescaped.
Qed.

Lemma getR2Url_inj penv k1 k2 : getR2Url penv k1 = getR2Url penv k2 -> k1 = k2.
Proof.
  unfold getR2Url.
  destruct (is_set (R2_PUBLIC_URL penv)); intros H.
  - do 2 apply String.app_inj in H. exact H.
  - apply String.app_inj in H. apply encodeURIComponent_inj. exact H.
Qed.

(** X18.  However [process.env] is set, both servers give different
    object keys different urls, so the thumbnails of a record in an
    answer are pairwise distinct. *)
Theorem thumbnail_urls_are_distinct penv video :
  (forall k1 k2, getMinioUrl penv k1 = getMinioUrl penv k2 -> k1 = k2)
  /\ (forall k1 k2, getR2Url penv k1 = getR2Url penv k2 -> k1 = k2)
  /\ NoDup (thumbnail_urls (minio_at penv) video)
  /\ NoDup (thumbnail_urls (r2_at penv) video).
Proof.
  split; [apply getMinioUrl_inj |]. split; [apply getR2Url_inj |].
  split; apply thumbnail_urls_NoDup.
  - apply getMinioUrl_inj.
  - apply getR2Url_inj.
Qed.

(** The media route, handed a parameter that decodes to [key]: it signs
    [key] and redirects to the signed url. *)
Lemma get_media_runs srv env param key url w :
  variant srv = R2 ->
  decodeURIComponent param = Ok key ->
  store_sign env key = Ok url ->
  response_to srv env (GetMedia param) w = Some (redirect url).
Proof.
  intros Hv Hparam Hsign. unfold response_to, after, handle. rewrite Hv.
  cbv beta iota delta [get_media getSignedR2Url try_catch bind await respond emit modify].
  rewrite Hparam. cbv beta iota. rewrite Hsign. apply response_logged.
Qed.

(** X19.  Without [R2_PUBLIC_URL] a key is served under [/api/media/]
    followed by its escaped form.  Decoding that form gives the key
    back, so the media route, handed it as parameter, signs the key the
    url was made from and redirects to the signed url.  Handed the key
    itself, the parameter already decoded once, it decodes a second
    time, and still signs the key when the key has no [%]. *)
Theorem media_url_round_trip srv penv env key url w :
  variant srv = R2 ->
  is_set (R2_PUBLIC_URL penv) = false ->
  utf8 key = true ->
  store_sign env key = Ok url ->
  exists segment,
    getR2Url penv key = "/api/media/" ++ segment
    /\ decodeURIComponent segment = Ok key
    /\ response_to srv env (GetMedia segment) w = Some (redirect url)
    /\ (contains "%" key = false ->
        response_to srv env (GetMedia key) w = Some (redirect url)).
Proof.
  intros Hv Hpublic Hkey Hsign. exists (encodeURIComponent key). unfold getR2Url.
  rewrite Hpublic. split; [reflexivity |].
  split; [apply decode_encode; exact Hkey |].
  split.
  - apply (get_media_runs srv env _ key url w Hv (decode_encode key Hkey) Hsign).
  - intros Hplain.
    apply (get_media_runs srv env _ key url w Hv (decode_without_percent key Hplain) Hsign).
Qed.

Lemma media_url_round_trip_witness :
  exists segment,
    getR2Url {| MINIO_ENDPOINT := None; MINIO_PORT := None; MINIO_USE_SSL := None;
                MINIO_PUBLIC_URL := None; MINIO_BUCKET := None; R2_PUBLIC_URL := None |}
      "thumbnails/0123abcd/thumb_1.jpg"
    = "/api/media/" ++ segment
    /\ decodeURIComponent segment = Ok "thumbnails/0123abcd/thumb_1.jpg"
    /\ response_to r2_server demo_env (GetMedia segment) demo_world
       = Some (redirect "https://signed.example/thumbnails/0123abcd/thumb_1.jpg")
    /\ (contains "%" "thumbnails/0123abcd/thumb_1.jpg" = false ->
        response_to r2_server demo_env (GetMedia "thumbnails/0123abcd/thumb_1.jpg")
          demo_world
        = Some (redirect "https://signed.example/thumbnails/0123abcd/thumb_1.jpg")).
Proof.
  apply (media_url_round_trip r2_server
           {| MINIO_ENDPOINT := None; MINIO_PORT := None; MINIO_USE_SSL := None;
              MINIO_PUBLIC_URL := None; MINIO_BUCKET := None; R2_PUBLIC_URL := None |}
           demo_env "thumbnails/0123abcd/thumb_1.jpg"
           "https://signed.example/thumbnails/0123abcd/thumb_1.jpg" demo_world).
  - reflexivity.
  - reflexivity.
  - reflexivity.
  - reflexivity.
Defined.

(** A key with a [%] in it is not its own decoding.  Handed such a key
    already decoded, the media route signs another key, or answers 500
    when the second decoding throws; an escape that spells no character
    throws as well. *)
Example second_decoding_changes_key :
  decodeURIComponent (encodeURIComponent "a%41.jpg") = Ok "a%41.jpg"
  /\ response_to r2_server demo_env (GetMedia "a%41.jpg") demo_world
     = Some (redirect "https://signed.example/aA.jpg")
  /\ response_to r2_server demo_env (GetMedia "100%.jpg") demo_world
     = Some (json 500 (BError "Failed to fetch media"))
  /\ decodeURIComponent "%C3%A9" = Ok (String "195" (String "169" EmptyString))
  /\ decodeURIComponent "%C3" = Throw "URI malformed"
  /\ decodeURIComponent "%FF" = Throw "URI malformed"
  /\ decodeURIComponent "%C0%80" = Throw "URI malformed".
Proof. repeat split. Qed.

(** ** The pages *)

Section Durations.

Import QArith_base Qround.
Local Open Scope Z_scope.

(** The floor of a quotient by a whole number is the quotient of the
    floor. *)
Lemma Qfloor_div x d : 0 < d -> Qfloor (Page.div x d) = Qfloor x / d.
Proof.
  intros Hd. destruct x as [a b]. destruct d as [| d | d]; try lia.
  unfold Page.div, Qdiv, Qmult, Qinv, inject_Z, Qfloor. simpl.
  rewrite Z.mul_1_r, Pos2Z.inj_mul, Z.div_div by lia. reflexivity.
Qed.

Lemma Qfloor_minus x k : Qfloor (Qminus x (inject_Z k)) = Qfloor x - k.
Proof.
  destruct x as [a b]. unfold Qminus, Qplus, Qopp, inject_Z, Qfloor. simpl.
  rewrite Z.mul_1_r, Pos.mul_1_r.
  replace (a + - k * Z.pos b) with (a + (- k) * Z.pos b) by lia.
  rewrite Z.div_add by lia. lia.
Qed.

Lemma trunc_nonneg x : Qle (inject_Z 0) x -> Page.trunc x = Qfloor x.
Proof.
  intros H. unfold Page.trunc.
  apply Qle_bool_iff in H. rewrite H. reflexivity.
Qed.

Lemma div_nonneg x d : 0 < d -> Qle (inject_Z 0) x -> Qle (inject_Z 0) (Page.div x d).
Proof.
  intros Hd Hx. destruct x as [a b]. destruct d as [| d | d]; try lia.
  unfold Page.div, Qdiv, Qmult, Qinv, inject_Z, Qle in *. simpl in *. lia.
Qed.

Lemma Qfloor_rem x d :
  0 < d -> Qle (inject_Z 0) x -> Qfloor (Page.rem x d) = Qfloor x mod d.
Proof.
  intros Hd Hx. unfold Page.rem.
  rewrite Qfloor_minus, (trunc_nonneg _ (div_nonneg x d Hd Hx)), Qfloor_div by exact Hd.
  rewrite Z.mod_eq by lia. reflexivity.
Qed.

Lemma rem_nonneg x d : 0 < d -> Qle (inject_Z 0) x -> Qle (inject_Z 0) (Page.rem x d).
Proof.
  intros Hd Hx. unfold Page.rem.
  rewrite (trunc_nonneg _ (div_nonneg x d Hd Hx)), Qfloor_div by exact Hd.
  destruct x as [a b]. unfold Qminus, Qplus, Qopp, inject_Z, Qle, Qfloor in *.
  simpl in *. rewrite Z.mul_1_r in *.
  assert (Hq : d * (a / Z.pos b / d) <= a / Z.pos b)
    by (apply Z.mul_div_le; exact Hd).
  assert (Hb : Z.pos b * (a / Z.pos b) <= a) by (apply Z.mul_div_le; lia).
  nia.
Qed.

(** The fraction of a second is dropped, never rounded up. *)
Lemma formatDuration_floor x :
  Qle (inject_Z 0) x ->
  Page.formatDuration x = Page.formatDuration (inject_Z (Qfloor x)).
Proof.
  intros Hx.
  assert (Hn : Qle (inject_Z 0) (inject_Z (Qfloor x))).
  { rewrite <- Zle_Qle. rewrite <- (Qfloor_Z 0). apply Qfloor_resp_le. exact Hx. }
  unfold Page.formatDuration.
  repeat first
    [ rewrite Qfloor_div by lia
    | rewrite Qfloor_rem by (lia || assumption)
    | rewrite Qfloor_Z ].
  reflexivity.
Qed.

Lemma small_cases (P : Z -> Prop) (k : nat) :
  (forall i, (i < k)%nat -> P (Z.of_nat i)) -> forall m, 0 <= m < Z.of_nat k -> P m.
Proof.
  intros H m Hm. rewrite <- (Z2Nat.id m) by lia. apply H. lia.
Qed.

Lemma pad_length m :
  0 <= m < 60 -> String.length (Page.padStart (JS.Z_toString m) 2 "0") = 2%nat.
Proof.
  revert m. apply (small_cases _ 60). intros i Hi.
  do 60 (destruct i as [| i]; [reflexivity |]). lia.
Qed.

Lemma pad_parse m :
  0 <= m < 60 -> JS.parseInt (Page.padStart (JS.Z_toString m) 2 "0") = JS.Num m.
Proof.
  revert m. apply (small_cases _ 60). intros i Hi.
  do 60 (destruct i as [| i]; [reflexivity |]). lia.
Qed.

Lemma pad_inj m m' :
  0 <= m < 60 -> 0 <= m' < 60 ->
  Page.padStart (JS.Z_toString m) 2 "0" = Page.padStart (JS.Z_toString m') 2 "0" ->
  m = m'.
Proof.
  intros Hm Hm' H. apply (f_equal JS.parseInt) in H.
  rewrite !pad_parse in H by assumption. injection H. auto.
Qed.

Lemma append_length_inj a : forall a' b b',
  String.length a = String.length a' -> a ++ b = a' ++ b' -> a = a' /\ b = b'.
Proof.
  induction a as [| c a IH]; intros [| c' a'] b b' Hlen H; try discriminate Hlen.
  - split; [reflexivity | exact H].
  - change (String c (a ++ b) = String c' (a' ++ b')) in H.
    injection H as Hc H. injection Hlen as Hlen.
    destruct (IH a' b b' Hlen H) as [-> ->]. rewrite Hc. auto.
Qed.

Lemma length_append a b :
  String.length (a ++ b) = (String.length a + String.length b)%nat.
Proof.
  induction a as [| c a IH]; [reflexivity |].
  change (S (String.length (a ++ b)) = S (String.length a + String.length b)).
  rewrite IH. reflexivity.
Qed.

Lemma colon_stops rest : stops (String ":" rest).
Proof. reflexivity. Qed.

(** Two whole durations that are displayed alike are the same. *)
Lemma formatDuration_whole_inj n n' :
  0 <= n -> 0 <= n' ->
  Page.formatDuration (inject_Z n) = Page.formatDuration (inject_Z n') -> n = n'.
Proof.
  intros Hn Hn'.
  assert (H0 : forall k, 0 <= k -> Qle (inject_Z 0) (inject_Z k))
    by (intros k Hk; rewrite <- Zle_Qle; exact Hk).
  unfold Page.formatDuration.
  repeat first
    [ rewrite Qfloor_div by lia
    | rewrite Qfloor_rem by (lia || (apply H0; assumption))
    | rewrite Qfloor_Z ].
  assert (Hm : 0 <= n mod 3600 / 60 < 60) by (Z.div_mod_to_equations; lia).
  assert (Hs : 0 <= n mod 60 < 60) by (Z.div_mod_to_equations; lia).
  assert (Hm' : 0 <= n' mod 3600 / 60 < 60) by (Z.div_mod_to_equations; lia).
  assert (Hs' : 0 <= n' mod 60 < 60) by (Z.div_mod_to_equations; lia).
  assert (Hh : 0 <= n / 3600) by (Z.div_mod_to_equations; lia).
  assert (Hh' : 0 <= n' / 3600) by (Z.div_mod_to_equations; lia).
  set (h := n / 3600) in *. set (m := n mod 3600 / 60) in *. set (s := n mod 60) in *.
  set (h' := n' / 3600) in *. set (m' := n' mod 3600 / 60) in *. set (s' := n' mod 60) in *.
  assert (Hfields : h = h' -> m = m' -> s = s' -> n = n')
    by (unfold h, h', m, m', s, s'; Z.div_mod_to_equations; lia).
  destruct (Z.ltb_spec 0 h) as [Hpos | Hzero];
    destruct (Z.ltb_spec 0 h') as [Hpos' | Hzero']; intros H.
  - pose proof (f_equal JS.parseInt H) as Hp.
    rewrite !parseInt_toString in Hp by (try lia; apply colon_stops).
    injection Hp as Hp. rewrite <- Hp in H. apply String.app_inj in H.
    injection H as H.
    assert (Hlen : String.length (Page.padStart (JS.Z_toString m) 2 "0")
                   = String.length (Page.padStart (JS.Z_toString m') 2 "0"))
      by (rewrite !pad_length by assumption; reflexivity).
    destruct (append_length_inj _ _ _ _ Hlen H) as [Hpm Hps].
    injection Hps as Hps.
    apply Hfields; [exact Hp | apply pad_inj; assumption | apply pad_inj; assumption].
  - exfalso. pose proof (f_equal JS.parseInt H) as Hp.
    rewrite !parseInt_toString in Hp by (try lia; apply colon_stops).
    injection Hp as Hp. rewrite <- Hp in H. apply String.app_inj in H.
    injection H as H. apply (f_equal String.length) in H.
    rewrite !length_append, !pad_length in H by assumption. simpl in H. lia.
  - exfalso. pose proof (f_equal JS.parseInt H) as Hp.
    rewrite !parseInt_toString in Hp by (try lia; apply colon_stops).
    injection Hp as Hp. rewrite Hp in H. apply String.app_inj in H.
    injection H as H. apply (f_equal String.length) in H.
    rewrite !length_append, !pad_length in H by assumption. simpl in H. lia.
  - pose proof (f_equal JS.parseInt H) as Hp.
    rewrite !parseInt_toString in Hp by (try lia; apply colon_stops).
    injection Hp as Hp. rewrite <- Hp in H. apply String.app_inj in H.
    injection H as H.
    apply Hfields; [lia | exact Hp | apply pad_inj; assumption].
Qed.

End Durations.

(** X20.  Two durations of zero or more seconds are displayed alike
    exactly when they have the same whole number of seconds: the
    fraction is dropped, never rounded up, and nothing else is lost. *)
Theorem formatDuration_shows_whole_seconds p q :
  QArith_base.Qle (QArith_base.inject_Z 0) p ->
  QArith_base.Qle (QArith_base.inject_Z 0) q ->
  Page.formatDuration p = Page.formatDuration q <-> Qround.Qfloor p = Qround.Qfloor q.
Proof.
  intros Hp Hq. rewrite (formatDuration_floor p Hp), (formatDuration_floor q Hq). split.
  - apply formatDuration_whole_inj.
    + rewrite <- (Qround.Qfloor_Z 0). apply Qround.Qfloor_resp_le. exact Hp.
    + rewrite <- (Qround.Qfloor_Z 0). apply Qround.Qfloor_resp_le. exact Hq.
  - intros ->. reflexivity.
Qed.

Lemma formatDuration_shows_whole_seconds_witness :
  Page.formatDuration (QArith_base.Qmake 599 10) = Page.formatDuration (QArith_base.Qmake 59 1)
  <-> Qround.Qfloor (QArith_base.Qmake 599 10) = Qround.Qfloor (QArith_base.Qmake 59 1).
Proof.
  apply (formatDuration_shows_whole_seconds (QArith_base.Qmake 599 10)
           (QArith_base.Qmake 59 1)).
  - vm_compute. discriminate.
  - vm_compute. discriminate.
Defined.

(** X21.  The age of a video on the index page, for a date that is not
    in the future: with [days] the whole days gone by, the label is
    Today, Yesterday, or a count of days (2 to 6), of weeks (1 to 4), of
    months of 30 days (1 to 12) or of years of 365 days (1 or more); a
    count is never 0. *)
Theorem formatDate_of_past now date :
  date <= now ->
  let days := (now - date) / (1000 * 60 * 60 * 24) in
  let label := Index.formatDate now (JS.Num date) in
  (days = 0 /\ label = "Today")
  \/ (days = 1 /\ label = "Yesterday")
  \/ (2 <= days <= 6 /\ label = JS.Z_toString days ++ " days ago")
  \/ (7 <= days <= 29
      /\ exists n, 1 <= n <= 4 /\ label = JS.Z_toString n ++ " weeks ago")
  \/ (30 <= days <= 364
      /\ exists n, 1 <= n <= 12 /\ label = JS.Z_toString n ++ " months ago")
  \/ (365 <= days
      /\ exists n, 1 <= n /\ label = JS.Z_toString n ++ " years ago").
Proof.
  intros Hpast days label. unfold label, Index.formatDate.
  cbn [JS.sub Index.floor_div Index.strict_eq JS.lt JS.toString]. fold days.
  assert (Hdays : 0 <= days) by (unfold days; Z.div_mod_to_equations; lia).
  destruct (Z.eqb_spec days 0) as [H0 | H0]; [auto |].
  destruct (Z.eqb_spec days 1) as [H1 | H1]; [auto |].
  destruct (Z.ltb_spec days 7) as [H7 | H7].
  { right. right. left. split; [lia | reflexivity]. }
  destruct (Z.ltb_spec days 30) as [H30 | H30].
  { right. right. right. left. split; [lia |]. exists (days / 7).
    split; [Z.div_mod_to_equations; lia | reflexivity]. }
  destruct (Z.ltb_spec days 365) as [H365 | H365].
  { right. right. right. right. left. split; [lia |]. exists (days / 30).
    split; [Z.div_mod_to_equations; lia | reflexivity]. }
  right. right. right. right. right. split; [lia |]. exists (days / 365).
  split; [Z.div_mod_to_equations; lia | reflexivity].
Qed.

Lemma formatDate_of_past_witness :
  let days := (1700000000000 - 1699000000000) / (1000 * 60 * 60 * 24) in
  let label := Index.formatDate 1700000000000 (JS.Num 1699000000000) in
  (days = 0 /\ label = "Today")
  \/ (days = 1 /\ label = "Yesterday")
  \/ (2 <= days <= 6 /\ label = JS.Z_toString days ++ " days ago")
  \/ (7 <= days <= 29
      /\ exists n, 1 <= n <= 4 /\ label = JS.Z_toString n ++ " weeks ago")
  \/ (30 <= days <= 364
      /\ exists n, 1 <= n <= 12 /\ label = JS.Z_toString n ++ " months ago")
  \/ (365 <= days
      /\ exists n, 1 <= n /\ label = JS.Z_toString n ++ " years ago").
Proof.
  apply (formatDate_of_past 1700000000000 1699000000000). lia.
Defined.

(** X22.  A date in the future, be it by one millisecond (the clock of
    the browser being behind that of the server), is shown as a negative
    number of days ago. *)
Theorem formatDate_of_future now date :
  now < date ->
  exists n, n <= -1 /\ Index.formatDate now (JS.Num date) = JS.Z_toString n ++ " days ago".
Proof.
  intros Hfuture. exists ((now - date) / (1000 * 60 * 60 * 24)).
  assert (Hdays : (now - date) / (1000 * 60 * 60 * 24) <= -1)
    by (Z.div_mod_to_equations; lia).
  split; [exact Hdays |].
  unfold Index.formatDate.
  cbn [JS.sub Index.floor_div Index.strict_eq JS.lt JS.toString].
  destruct (Z.eqb_spec ((now - date) / (1000 * 60 * 60 * 24)) 0) as [H0 | H0]; [lia |].
  destruct (Z.eqb_spec ((now - date) / (1000 * 60 * 60 * 24)) 1) as [H1 | H1]; [lia |].
  destruct (Z.ltb_spec ((now - date) / (1000 * 60 * 60 * 24)) 7) as [H7 | H7]; [| lia].
  reflexivity.
Qed.

Lemma formatDate_of_future_witness :
  exists n, n <= -1
    /\ Index.formatDate 1700000000000 (JS.Num 1700000000001) = JS.Z_toString n ++ " days ago".
Proof.
  apply (formatDate_of_future 1700000000000 1700000000001). lia.
Defined.

(** A string that is no date gives neither an error nor a blank. *)
Example formatDate_of_invalid_date now : Index.formatDate now JS.NaN = "NaN years ago".
Proof. reflexivity. Qed.

(** *** The thumbnail preview of the index page *)

(** The interval started last, after [k] of its callbacks. *)
Lemma preview_after_ticks videoId thumb thumbs g k :
  let all := thumb :: thumbs in
  let gk := Nat.iter k (Index.tick (Index.next_id g))
              (Index.startThumbnailPreview videoId all g) in
  Index.running gk !! Index.next_id g
  = Some {| Index.card := videoId; Index.thumbnails := all;
            Index.currentIndex := k mod length all |}
  /\ ((1 <= k)%nat ->
      Index.src gk !! videoId = Some (nth (k mod length all) all EmptyString)).
Proof.
  intros all. induction k as [| k [IHrun IHsrc]].
  - split; [| lia]. unfold all.
    cbn [Nat.iter nat_rect Index.startThumbnailPreview Index.running].
    rewrite lookup_insert_eq, Nat.Div0.mod_0_l. reflexivity.
  - intros gk.
    set (gk' := Nat.iter k (Index.tick (Index.next_id g))
                  (Index.startThumbnailPreview videoId all g)) in *.
    assert (Hgk : gk = Index.tick (Index.next_id g) gk') by reflexivity.
    rewrite Hgk. unfold Index.tick. rewrite IHrun.
    cbn [Index.running Index.src Index.card Index.thumbnails Index.currentIndex].
    rewrite !lookup_insert_eq.
    replace ((k mod length all + 1) mod length all)%nat with (S k mod length all)%nat
      by (rewrite Nat.Div0.add_mod_idemp_l; f_equal; lia).
    split; [reflexivity | intros _; reflexivity].
Qed.

(** X23.  While the pointer stays on a card, the [k]-th callback of the
    preview shows the thumbnail of index [k mod n], [n] being the number
    of thumbnails: the second thumbnail comes first and the first one
    comes back every [n] callbacks. *)
Theorem preview_shows_thumbnails_in_turn videoId thumbs g k :
  thumbs <> [] ->
  (1 <= k)%nat ->
  Index.src (Nat.iter k (Index.tick (Index.next_id g))
               (Index.startThumbnailPreview videoId thumbs g)) !! videoId
  = Some (nth (k mod length thumbs) thumbs EmptyString).
Proof.
  intros Hthumbs Hk. destruct thumbs as [| thumb thumbs]; [congruence |].
  exact (proj2 (preview_after_ticks videoId thumb thumbs g k) Hk).
Qed.

Lemma preview_shows_thumbnails_in_turn_witness :
  Index.src (Nat.iter 4 (Index.tick (Index.next_id
                                       {| Index.currentThumbnailIntervals := ∅;
                                          Index.running := ∅;
                                          Index.next_id := 1;
                                          Index.src := ∅ |}))
               (Index.startThumbnailPreview "abc" ["t1"; "t2"; "t3"]
                  {| Index.currentThumbnailIntervals := ∅; Index.running := ∅;
                     Index.next_id := 1; Index.src := ∅ |})) !! "abc"
  = Some (nth (4 mod length ["t1"; "t2"; "t3"]) ["t1"; "t2"; "t3"] EmptyString).
Proof.
  apply (preview_shows_thumbnails_in_turn "abc" ["t1"; "t2"; "t3"]
           {| Index.currentThumbnailIntervals := ∅; Index.running := ∅;
              Index.next_id := 1; Index.src := ∅ |} 4).
  - discriminate.
  - lia.
Defined.

(** X24.  [stopThumbnailPreview] clears the interval the page remembers
    for the card, and [startThumbnailPreview] remembers only the last
    one it started.  So a preview that is started and stopped leaves the
    intervals of the window as they were; started twice and stopped
    once, it leaves the first interval running with nothing left to
    clear it, whatever is stopped afterwards. *)
Theorem stop_clears_only_last_interval videoId thumbs first g :
  thumbs <> [] ->
  Index.running g !! Index.next_id g = None ->
  let once := Index.stopThumbnailPreview videoId first
                (Index.startThumbnailPreview videoId thumbs g) in
  let twice := Index.stopThumbnailPreview videoId first
                 (Index.startThumbnailPreview videoId thumbs
                    (Index.startThumbnailPreview videoId thumbs g)) in
  Index.running once = Index.running g
  /\ Index.running twice !! Index.next_id g
     = Some {| Index.card := videoId; Index.thumbnails := thumbs;
               Index.currentIndex := 0 |}
  /\ Index.currentThumbnailIntervals twice !! videoId = None
  /\ forall first', Index.running (Index.stopThumbnailPreview videoId first' twice)
                    = Index.running twice.
Proof.
  intros Hthumbs Hfresh once twice.
  destruct thumbs as [| thumb thumbs]; [congruence |].
  assert (Hrun : forall g' f, Index.running
                   (Index.stopThumbnailPreview videoId f g')
                 = match Index.currentThumbnailIntervals g' !! videoId with
                   | Some id => delete id (Index.running g')
                   | None => Index.running g'
                   end).
  { intros g' f. unfold Index.stopThumbnailPreview.
    destruct (Index.currentThumbnailIntervals g' !! videoId), (JS.truthy f); reflexivity. }
  assert (Hmap : forall g' f, Index.currentThumbnailIntervals
                   (Index.stopThumbnailPreview videoId f g')
                 = delete videoId (Index.currentThumbnailIntervals g')).
  { intros g' f. unfold Index.stopThumbnailPreview.
    destruct (Index.currentThumbnailIntervals g' !! videoId) eqn:E, (JS.truthy f);
      try reflexivity; cbn; symmetry; apply delete_id; exact E. }
  assert (Hgone : Index.currentThumbnailIntervals twice !! videoId = None)
    by (unfold twice; rewrite Hmap; apply lookup_delete_eq).
  repeat split.
  - unfold once. rewrite Hrun. cbn. rewrite lookup_insert_eq.
    apply delete_insert_id. exact Hfresh.
  - unfold twice. rewrite Hrun. cbn. rewrite lookup_insert_eq.
    rewrite delete_insert_eq, lookup_delete_ne by lia.
    apply lookup_insert_eq.
  - exact Hgone.
  - intros first'. rewrite Hrun, Hgone. reflexivity.
Qed.

Lemma stop_clears_only_last_interval_witness :
  let g := {| Index.currentThumbnailIntervals := ∅; Index.running := ∅;
              Index.next_id := 1; Index.src := ∅ |} in
  let once := Index.stopThumbnailPreview "abc" "t1"
                (Index.startThumbnailPreview "abc" ["t1"; "t2"] g) in
  let twice := Index.stopThumbnailPreview "abc" "t1"
                 (Index.startThumbnailPreview "abc" ["t1"; "t2"]
                    (Index.startThumbnailPreview "abc" ["t1"; "t2"] g)) in
  Index.running once = Index.running g
  /\ Index.running twice !! Index.next_id g
     = Some {| Index.card := "abc"; Index.thumbnails := ["t1"; "t2"];
               Index.currentIndex := 0 |}
  /\ Index.currentThumbnailIntervals twice !! "abc" = None
  /\ forall first', Index.running (Index.stopThumbnailPreview "abc" first' twice)
                    = Index.running twice.
Proof.
  apply (stop_clears_only_last_interval "abc" ["t1"; "t2"] "t1"
           {| Index.currentThumbnailIntervals := ∅; Index.running := ∅;
              Index.next_id := 1; Index.src := ∅ |}).
  - discriminate.
  - reflexivity.
Defined.

(** *** The watch page *)

(** X25.  The watch page reads the date of a record under
    [created_at], a name the answer of the server does not have (the
    date is under [createdAt], where the index page reads it): for every
    record it shows Invalid Date. *)
Theorem watch_page_shows_invalid_date Date_parse toLocaleDateString oid version video thumbs :
  field (video_json oid version video thumbs) "created_at" = None
  /\ field (video_json oid version video thumbs) "createdAt" = Some (JDate (createdAt video))
  /\ Watch.shown_date Date_parse toLocaleDateString (video_json oid version video thumbs)
     = "Invalid Date".
Proof. repeat split. Qed.
